(** * Invoice-field extraction and the case-processing run

    A shallow embedding of the invoice parser ([parser_Invoicev2.py]), of the
    folder naming ([Google_add_string_Hv2-1.py], [Mega_Help_Scriptv2.py]),
    of the amount extraction of [make_case_dir_v2-1.py] and of the run of
    [Mega_Help_Scriptv2.py], followed by the properties proved about them.

    Python strings are sequences of Unicode code points: a [str] is a list
    of code points in [Z].  The character tables of the Python runtime
    (which code points are decimal digits, white space, word characters,
    how letters fold) are not part of the repository; they are the fields
    of the class [Unicode], together with the few facts about them that the
    proofs use. *)

From Stdlib Require Import ZArith List Bool Lia String Ascii Decimal SpecFloat.
From Stdlib Require DecimalPos DecimalZ.
From stdpp Require Import gmap strings list.

Local Open Scope Z_scope.

Abbreviation str := (list Z).

(** ** Python values *)

Module Py.

(** An ASCII literal as a [str]. *)
Definition lit (s : string) : str :=
  (λ a, Z.of_N (N_of_ascii a)) <$> list_ascii_of_string s.

Definition ascii_letter (c : Z) : bool :=
  ((65 <=? c) && (c <=? 90)) || ((97 <=? c) && (c <=? 122)).

Definition ascii_lower (c : Z) : Z :=
  if (65 <=? c) && (c <=? 90) then c + 32 else c.

(** The tables of the Unicode database consulted by [re], [int], [float],
    [str.strip] and [str.lower]. *)
Class Unicode := {
  (** [\d] of [re], the digits accepted by [int] and [float]: category Nd *)
  isdigit : Z → bool;
  (** the value of a decimal digit *)
  digit_value : Z → Z;
  (** [\s] of [re], [str.isspace], what [str.strip()] removes *)
  isspace : Z → bool;
  (** [\w] of [re]: alphanumeric or underscore; decides [\b] *)
  isword : Z → bool;
  (** [casefold_eq p c]: under [re.IGNORECASE] the pattern character [p]
      matches the text character [c] *)
  casefold_eq : Z → Z → bool;
  (** [str.lower] *)
  lower : str → str;
  isdigit_ascii c :
    0 ≤ c < 128 → isdigit c = (48 <=? c) && (c <=? 57);
  digit_value_ascii c : 48 ≤ c ≤ 57 → digit_value c = c - 48;
  digit_value_range c : isdigit c = true → 0 ≤ digit_value c ≤ 9;
  isspace_ascii c :
    0 ≤ c < 128 →
    isspace c = ((9 <=? c) && (c <=? 13)) || ((28 <=? c) && (c <=? 32));
  isdigit_not_space c : isdigit c = true → isspace c = false;
  isword_ascii c :
    0 ≤ c < 128 →
    isword c = ((48 <=? c) && (c <=? 57)) || ((65 <=? c) && (c <=? 90))
               || ((97 <=? c) && (c <=? 122)) || (c =? 95);
  (** on ASCII, letters match whatever their case *)
  casefold_eq_ascii p c :
    0 ≤ p < 128 → 0 ≤ c < 128 →
    casefold_eq p c = (ascii_lower p =? ascii_lower c);
  (** an ASCII character that is not a letter matches itself only *)
  casefold_eq_uncased p c :
    0 ≤ p < 128 → ascii_letter p = false → casefold_eq p c = (p =? c);
  (** a character that matches an ASCII letter is neither white space nor
      a digit *)
  casefold_letter_not_space p c :
    ascii_letter p = true → casefold_eq p c = true → isspace c = false;
  casefold_letter_not_digit p c :
    ascii_letter p = true → casefold_eq p c = true → isdigit c = false;
}.

Inductive exn :=
| ValueError (msg : str)
| TypeError (msg : str)
| OverflowError (msg : str)
| RuntimeError (msg : str)
| ExternalError (msg : str).

Inductive result (A : Type) :=
| Return (a : A)
| Raise (e : exn).
Arguments Return {A} a.
Arguments Raise {A} e.

Definition bind {A B} (x : result A) (f : A → result B) : result B :=
  match x with Return a => f a | Raise e => Raise e end.

(** [str(e)] of an exception *)
Definition exn_msg (e : exn) : str :=
  match e with
  | ValueError m | TypeError m | OverflowError m | RuntimeError m | ExternalError m => m
  end.

Definition str_eqb (a b : str) : bool := bool_decide (a = b).

(** [s.lstrip(chars)], [s.rstrip(chars)], [s.strip(chars)] with the set of
    characters given as a predicate *)
Fixpoint lstrip_by (p : Z → bool) (s : str) : str :=
  match s with
  | c :: s' => if p c then lstrip_by p s' else s
  | [] => []
  end.

(** The longest prefix of [s] whose characters satisfy [p] *)
Fixpoint prefix_by (p : Z → bool) (s : str) : str :=
  match s with
  | c :: s' => if p c then c :: prefix_by p s' else []
  | [] => []
  end.

Definition rstrip_by (p : Z → bool) (s : str) : str :=
  reverse (lstrip_by p (reverse s)).

Definition strip_by (p : Z → bool) (s : str) : str :=
  rstrip_by p (lstrip_by p s).

Definition in_chars (chars : str) (c : Z) : bool := bool_decide (c ∈ chars).

(** [sep.join(parts)] *)
Fixpoint join (sep : str) (parts : list str) : str :=
  match parts with
  | [] => []
  | [p] => p
  | p :: ps => p ++ sep ++ join sep ps
  end.

(** The line boundaries of [str.splitlines]: LF, VT, FF, CR, FS, GS, RS,
    NEL, LS, PS; CR LF counts once. *)
Definition is_linebreak (c : Z) : bool :=
  in_chars [10; 11; 12; 13; 28; 29; 30; 133; 8232; 8233] c.

(** [splitlines_aux cur after_cr s]: [cur] is the line being read,
    [after_cr] says that the last boundary was a CR. *)
Fixpoint splitlines_aux (cur : str) (after_cr : bool) (s : str) : list str :=
  match s with
  | [] => if cur is [] then [] else [cur]
  | c :: s' =>
      if after_cr && (c =? 10) then splitlines_aux [] false s'
      else if is_linebreak c then cur :: splitlines_aux [] (c =? 13) s'
      else splitlines_aux (cur ++ [c]) false s'
  end.

Definition splitlines (s : str) : list str := splitlines_aux [] false s.

Section WithUnicode.
Context `{Unicode}.

(** [s.strip()] *)
Definition strip (s : str) : str := strip_by isspace s.

(** [int(s)] for a string of decimal digits; Python raises [ValueError] on
    the empty string and on a character that is not a digit (signs, blanks
    and underscores, which [int] also accepts, never reach it here).
    CPython, from 3.11 on, also refuses a string of more than 4300 digits;
    the strings that the scripts give to [int] have eight digits at
    most. *)
Definition int_of_digits (s : str) : Z :=
  foldl (λ acc c, 10 * acc + digit_value c) 0 s.

Definition int (s : str) : result Z :=
  if negb (bool_decide (s = [])) && forallb isdigit s
  then Return (int_of_digits s)
  else Raise (ValueError (lit "invalid literal for int() with base 10")).

(** The binary64 number nearest to [m / 10^k] (ties to even), for
    [0 ≤ m]: the quotient is computed with enough bits and rounded once. *)
Definition float_of_decimal (m : Z) (k : nat) : spec_float :=
  let '(q, e, l) := SFdiv_core_binary 53 1024 m 0 (10 ^ Z.of_nat k) 0 in
  binary_round_aux 53 1024 false q e l.

(** The white space that [float] ignores around a number: that of
    [str.isspace], but for the separators U+001C to U+001F, which
    [str.strip] removes and [float] does not accept *)
Definition float_blank (c : Z) : bool :=
  isspace c && negb ((28 <=? c) && (c <=? 31)).

(** [float(s)] on the strings that reach it in this repository, which
    consist of digits, periods and white space: white space around the
    number is ignored, the number is [digits], [digits.digits], [digits.]
    or [.digits]; anything else raises [ValueError].  (Signs, exponents,
    underscores, [inf] and [nan], which [float] also reads, never occur in
    these strings.) *)
Definition float (s : str) : result spec_float :=
  let bad := Raise (ValueError (lit "could not convert string to float")) in
  let t := strip_by float_blank s in
  let ip := prefix_by isdigit t in
  match drop (length ip) t with
  | [] =>
      if bool_decide (ip = []) then bad
      else Return (float_of_decimal (int_of_digits ip) 0)
  | c :: fp =>
      if (c =? 46) && forallb isdigit fp
         && negb (bool_decide (ip = []) && bool_decide (fp = []))
      then Return (float_of_decimal (int_of_digits (ip ++ fp)) (length fp))
      else bad
  end.

End WithUnicode.

(** [float(n)] of an integer *)
Definition float_of_int (n : Z) : spec_float :=
  binary_normalize 53 1024 n 0 false.

(** [round(x)] of a float, with one argument: the nearest integer, ties to
    the even one; [OverflowError] on an infinity, [ValueError] on a NaN. *)
Definition round_half_even (m : positive) (e : Z) : Z :=
  if 0 <=? e then Z.pos m * 2 ^ e
  else
    let d := 2 ^ (- e) in
    let q := Z.pos m / d in
    let r := Z.pos m mod d in
    if 2 * r <? d then q
    else if d <? 2 * r then q + 1
    else if Z.even q then q else q + 1.

Definition round (x : spec_float) : result Z :=
  match x with
  | S754_zero _ => Return 0
  | S754_finite s m e =>
      Return (if s then - round_half_even m e else round_half_even m e)
  | S754_infinity _ =>
      Raise (OverflowError (lit "cannot convert float infinity to integer"))
  | S754_nan => Raise (ValueError (lit "cannot convert float NaN to integer"))
  end.

(** [str(n)] of an integer *)
Fixpoint uint_chars (d : Decimal.uint) : str :=
  match d with
  | Nil => []
  | D0 d => 48 :: uint_chars d
  | D1 d => 49 :: uint_chars d
  | D2 d => 50 :: uint_chars d
  | D3 d => 51 :: uint_chars d
  | D4 d => 52 :: uint_chars d
  | D5 d => 53 :: uint_chars d
  | D6 d => 54 :: uint_chars d
  | D7 d => 55 :: uint_chars d
  | D8 d => 56 :: uint_chars d
  | D9 d => 57 :: uint_chars d
  end.

Definition str_of_int (n : Z) : str :=
  match Z.to_int n with
  | Decimal.Pos d => uint_chars d
  | Decimal.Neg d => 45 :: uint_chars d
  end.

(** [s.zfill(n)] of a string of digits, the padding of [%02d] and [%04d] *)
Definition zfill (n : nat) (s : str) : str :=
  replicate (n - length s) 48 ++ s.

(** *** [datetime] *)

Record date := Date { year : Z; month : Z; day : Z }.

Definition is_leap (y : Z) : bool :=
  (y mod 4 =? 0) && (negb (y mod 100 =? 0) || (y mod 400 =? 0)).

Definition days_in_month (y m : Z) : Z :=
  if m =? 2 then (if is_leap y then 29 else 28)
  else if (m =? 4) || (m =? 6) || (m =? 9) || (m =? 11) then 30
  else 31.

Definition valid_date (y m d : Z) : bool :=
  (1 <=? y) && (y <=? 9999) && (1 <=? m) && (m <=? 12)
  && (1 <=? d) && (d <=? days_in_month y m).

(** [datetime(y, m, d)]: [ValueError] unless the triple is a date of the
    proleptic Gregorian calendar with a year in 1..9999 *)
Definition datetime (y m d : Z) : result date :=
  if valid_date y m d then Return (Date y m d)
  else Raise (ValueError (lit "date value out of range")).

(** [d.isoformat()]: YYYY-MM-DD *)
Definition isoformat (d : date) : str :=
  zfill 4 (str_of_int (year d)) ++ [45] ++ zfill 2 (str_of_int (month d))
  ++ [45] ++ zfill 2 (str_of_int (day d)).

Definition ascii_digit (c : Z) : bool := (48 <=? c) && (c <=? 57).

Definition ascii_int (s : str) : Z :=
  foldl (λ acc c, 10 * acc + (c - 48)) 0 s.

(** [datetime.fromisoformat(s)] on the format YYYY-MM-DD, the one that
    [isoformat] writes; other strings raise [ValueError] here (newer
    Pythons read more formats, none of which [parse_invoice] produces). *)
Definition fromisoformat (s : str) : result date :=
  let bad := Raise (ValueError (lit "Invalid isoformat string")) in
  match s with
  | [y1; y2; y3; y4; h1; m1; m2; h2; d1; d2] =>
      if forallb ascii_digit [y1; y2; y3; y4; m1; m2; d1; d2]
         && (h1 =? 45) && (h2 =? 45)
      then datetime (ascii_int [y1; y2; y3; y4]) (ascii_int [m1; m2])
             (ascii_int [d1; d2])
      else bad
  | _ => bad
  end.

(** [d.strftime("%y-%m")] *)
Definition strftime_yy_mm (d : date) : str :=
  zfill 2 (str_of_int (year d mod 100)) ++ [45]
  ++ zfill 2 (str_of_int (month d)).

End Py.

(** ** The regular expressions of [re]

    The fragment of Python's [re] that the repository's patterns use:
    one-character sets, concatenation, an optional group, repetition of a
    one-character set (greedy or lazy, with bounds), capture groups and
    [\b].  The matcher is the backtracking matcher of [re]: alternatives
    are tried in the order of their priority and the first complete match
    wins. *)

Module Re.
Import Py.

Inductive cset :=
| CDigit                     (* \d *)
| CSpace                     (* \s *)
| CAny                       (* . under re.S *)
| CChar (c : Z)              (* a literal character *)
| CCharI (c : Z)             (* a literal character under re.I *)
| CIn (chars : str)          (* [...] of literal characters *)
| CUnion (a b : cset)        (* [ab] *)
| CNot (a : cset).           (* [^a] *)

Inductive greed := Greedy | Lazy.

Inductive regex :=
| RSet (cs : cset)
| RSeq (r1 r2 : regex)
| ROpt (r : regex)                                       (* (?:r)? *)
| RRep (g : greed) (cs : cset) (lo : nat) (hi : option nat)  (* cs{lo,hi} *)
| RGroup (n : nat) (r : regex)                           (* (r) *)
| RWordB                                                 (* \b *)
| REps.

(** Matcher state: the character before the current position (for [\b]),
    the text from the current position on, the groups captured so far. *)
Record mstate := MState {
  prev : option Z;
  rest : str;
  caps : gmap nat str;
}.

(** A match object: where the match starts, [group(0)], the groups. *)
Record match_obj := MatchObj {
  m_start : nat;
  m_group0 : str;
  m_groups : gmap nat str;
}.

(** [m.group(n)] for [n ≥ 1]; in every pattern of the repository each
    group takes part in every match. *)
Definition group (m : match_obj) (n : nat) : str :=
  default [] (m_groups m !! n).

Definition hi_open (hi : option nat) : bool :=
  match hi with Some O => false | _ => true end.

Section WithUnicode.
Context `{Unicode}.

Fixpoint cset_mem (cs : cset) (c : Z) : bool :=
  match cs with
  | CDigit => isdigit c
  | CSpace => isspace c
  | CAny => true
  | CChar p => p =? c
  | CCharI p => casefold_eq p c
  | CIn chars => in_chars chars c
  | CUnion a b => cset_mem a c || cset_mem b c
  | CNot a => negb (cset_mem a c)
  end.

Definition opt_word (c : option Z) : bool :=
  match c with Some c => isword c | None => false end.

(** [\b]: exactly one of the two neighbours is a word character *)
Definition word_boundary (pv : option Z) (s : str) : bool :=
  xorb (opt_word pv) (opt_word (head s)).

Section Exec.
Context {A : Type}.

(** Greedy repetition: take one more character if possible, fall back to
    stopping here. *)
Fixpoint rep_greedy (p : Z → bool) (lo : nat) (hi : option nat)
    (pv : option Z) (s : str) (k : option Z → str → option A) : option A :=
  let stop := match lo with O => k pv s | S _ => None end in
  match s with
  | c :: s' =>
      if p c && hi_open hi then
        match rep_greedy p (pred lo) (pred <$> hi) (Some c) s' k with
        | Some a => Some a
        | None => stop
        end
      else stop
  | [] => stop
  end.

(** Lazy repetition: stop here if allowed and the rest matches, otherwise
    take one more character. *)
Fixpoint rep_lazy (p : Z → bool) (lo : nat) (hi : option nat)
    (pv : option Z) (s : str) (k : option Z → str → option A) : option A :=
  match lo with
  | O =>
      match k pv s with
      | Some a => Some a
      | None =>
          match s with
          | c :: s' =>
              if p c && hi_open hi
              then rep_lazy p O (pred <$> hi) (Some c) s' k
              else None
          | [] => None
          end
      end
  | S lo' =>
      match s with
      | c :: s' =>
          if p c && hi_open hi
          then rep_lazy p lo' (pred <$> hi) (Some c) s' k
          else None
      | [] => None
      end
  end.

Definition rep (g : greed) :=
  match g with Greedy => rep_greedy | Lazy => rep_lazy end.

(** The text consumed between two states *)
Definition consumed (st st' : mstate) : str :=
  take (length (rest st) - length (rest st')) (rest st).

Fixpoint exec (r : regex) (st : mstate) (k : mstate → option A) : option A :=
  match r with
  | RSet cs =>
      match rest st with
      | c :: s' =>
          if cset_mem cs c then k (MState (Some c) s' (caps st)) else None
      | [] => None
      end
  | RSeq r1 r2 => exec r1 st (λ st1, exec r2 st1 k)
  | ROpt r1 =>
      match exec r1 st k with
      | Some a => Some a
      | None => k st
      end
  | RRep g cs lo hi =>
      rep g (cset_mem cs) lo hi (prev st) (rest st)
        (λ pv s, k (MState pv s (caps st)))
  | RGroup n r1 =>
      exec r1 st (λ st',
        k (MState (prev st') (rest st') (<[n := consumed st st']> (caps st'))))
  | RWordB => if word_boundary (prev st) (rest st) then k st else None
  | REps => k st
  end.

End Exec.

(** [r.match] at one position *)
Definition match_at (r : regex) (pv : option Z) (s : str) : option mstate :=
  exec r (MState pv s ∅) Some.

(** [r.search(text)]: the first position, from the left, with a match *)
Fixpoint search_from (r : regex) (pv : option Z) (s : str) (pos : nat)
    : option match_obj :=
  match match_at r pv s with
  | Some st =>
      Some (MatchObj pos (take (length s - length (rest st)) s) (caps st))
  | None =>
      match s with
      | [] => None
      | c :: s' => search_from r (Some c) s' (S pos)
      end
  end.

Definition search (r : regex) (text : str) : option match_obj :=
  search_from r None text 0.

(** What a pattern may match, whatever the order of the attempts:
    [matches r pv w nx c c'] says that [r] matches the word [w] when [pv] is
    the character before it and [nx] the text after it, the groups going
    from [c] to [c']. *)
Definition last_of (pv : option Z) (w : str) : option Z :=
  match last w with Some c => Some c | None => pv end.

Inductive matches : regex → option Z → str → str →
    gmap nat str → gmap nat str → Prop :=
| M_set cs pv ch nx c :
    cset_mem cs ch = true → matches (RSet cs) pv [ch] nx c c
| M_seq r1 r2 pv w1 w2 nx c c1 c2 :
    matches r1 pv w1 (w2 ++ nx) c c1 →
    matches r2 (last_of pv w1) w2 nx c1 c2 →
    matches (RSeq r1 r2) pv (w1 ++ w2) nx c c2
| M_opt_some r pv w nx c c1 :
    matches r pv w nx c c1 → matches (ROpt r) pv w nx c c1
| M_opt_none r pv nx c : matches (ROpt r) pv [] nx c c
| M_rep g cs lo hi pv w nx c :
    Forall (λ ch, cset_mem cs ch = true) w →
    (lo ≤ length w)%nat →
    (∀ h, hi = Some h → (length w ≤ h)%nat) →
    matches (RRep g cs lo hi) pv w nx c c
| M_group n r pv w nx c c1 :
    matches r pv w nx c c1 → matches (RGroup n r) pv w nx c (<[n := w]> c1)
| M_wordb pv nx c :
    word_boundary pv nx = true → matches RWordB pv [] nx c c
| M_eps pv nx c : matches REps pv [] nx c c.

(** [r] matches at the position of [text] that follows [pre] *)
Definition matches_at (r : regex) (text pre : str) : Prop :=
  ∃ w nx c, text = pre ++ w ++ nx ∧ matches r (last_of None pre) w nx ∅ c.

(** [re.sub("[cs]", repl, s)] for a pattern that is one character set *)
Definition sub_set (cs : cset) (repl : str) (s : str) : str :=
  mbind (λ c, if cset_mem cs c then repl else [c]) s.

End WithUnicode.

(** A literal word of a pattern; [lit_i] under [re.I] *)
Fixpoint seq_of (rs : list regex) : regex :=
  match rs with
  | [] => REps
  | [r] => r
  | r :: rs' => RSeq r (seq_of rs')
  end.

Definition word (s : string) : regex := seq_of ((λ c, RSet (CChar c)) <$> lit s).
Definition word_i (s : string) : regex := seq_of ((λ c, RSet (CCharI c)) <$> lit s).

End Re.

(** ** [parser_Invoicev2.py] *)

Module Invoice.
Import Py Re.

Definition sp_star : regex := RRep Greedy CSpace 0 None.   (* \s* *)
Definition sp_plus : regex := RRep Greedy CSpace 1 None.   (* \s+ *)

(** [(\d{1,2})/(\d{1,2})/(\d{4})] *)
Definition _RE_DATE : regex :=
  seq_of [RGroup 1 (RRep Greedy CDigit 1 (Some 2%nat)); RSet (CChar 47);
          RGroup 2 (RRep Greedy CDigit 1 (Some 2%nat)); RSet (CChar 47);
          RGroup 3 (RRep Greedy CDigit 4 (Some 4%nat))].

(** [Invoice\s*No\.?\s*0*(\d{3,})], re.I *)
Definition _RE_INVNO : regex :=
  seq_of [word_i "Invoice"; sp_star; word_i "No";
          RRep Greedy (CCharI 46) 0 (Some 1%nat); sp_star;
          RRep Greedy (CCharI 48) 0 None;
          RGroup 1 (RRep Greedy CDigit 3 None)].

(** [\b000\d{5}\b] *)
Definition _RE_INVNO_FBK : regex :=
  seq_of [RWordB; word "000"; RRep Greedy CDigit 5 (Some 5%nat); RWordB].

(** [([\d\s,]+(?:\.\d{2})?)], re.I *)
Definition amount_group : regex :=
  RGroup 1
    (RSeq (RRep Greedy (CUnion CDigit (CUnion CSpace (CCharI 44))) 1 None)
          (ROpt (RSeq (RSet (CCharI 46))
                      (RRep Greedy CDigit 2 (Some 2%nat))))).

(** [Total\s+amount:?\s*USD\s+([\d\s,]+(?:\.\d{2})?)], re.I *)
Definition _RE_TOTALUSD : regex :=
  seq_of [word_i "Total"; sp_plus; word_i "amount";
          RRep Greedy (CCharI 58) 0 (Some 1%nat); sp_star; word_i "USD";
          sp_plus; amount_group].

(** [USD\s+([\d\s,]+(?:\.\d{2})?)], re.I *)
Definition _RE_ANYUSD : regex :=
  seq_of [word_i "USD"; sp_plus; amount_group].

(** [[^\d\.]] *)
Definition _RE_NON_DIGIT_DOT : cset := CNot (CUnion CDigit (CChar 46)).

(** [Description\s+Amount\s+(.+?)\s+USD\s*\d], re.I | re.S *)
Definition _RE_CASEDESCR : regex :=
  seq_of [word_i "Description"; sp_plus; word_i "Amount"; sp_plus;
          RGroup 1 (RRep Lazy CAny 1 None); sp_plus; word_i "USD"; sp_star;
          RSet CDigit].

(** The dictionary that [parse_invoice] returns; a value may be [None] as
    far as the types go. *)
Record invoice := Invoice {
  invoice_number : option str;
  date : option str;
  amount : option spec_float;
  case_descr : option str;
}.

(** [v in (None, "", [])] for a value that is a string or [None], and for
    one that is a float or [None] (a float equals neither [""] nor [[]]) *)
Definition str_missing (v : option str) : bool :=
  match v with
  | None | Some [] => true
  | Some (_ :: _) => false
  end.

Definition float_missing (v : option spec_float) : bool :=
  match v with None => true | Some _ => false end.

Section WithUnicode.
Context `{Unicode}.

(** The first line of [raw] that is not blank once stripped *)
Definition first_nonblank (raw : str) : option str :=
  List.find (λ line, negb (bool_decide (line = []))) (strip <$> splitlines raw).

Definition _find_case_descr (text : str) : option str :=
  match search _RE_CASEDESCR text with
  | Some m => first_nonblank (group m 1)
  | None => None
  end.

(** Step 3 of [parse_invoice]: the date *)
Definition find_date (full_text : str) : result (option str) :=
  match search _RE_DATE full_text with
  | Some m_date =>
      bind (int (group m_date 1)) (λ mm,
      bind (int (group m_date 2)) (λ dd,
      bind (int (group m_date 3)) (λ yyyy,
        match datetime yyyy mm dd with
        | Return d => Return (Some (isoformat d))
        | Raise (ValueError _) => Return None
        | Raise e => Raise e
        end)))
  | None => Return None
  end.

(** Step 4: the invoice number *)
Definition find_invoice_number (full_text : str) : option str :=
  match search _RE_INVNO full_text with
  | Some m_inv => Some (group m_inv 1)
  | None =>
      match search _RE_INVNO_FBK full_text with
      | Some m_fb => Some (lstrip_by (in_chars (lit "0")) (m_group0 m_fb))
      | None => None
      end
  end.

(** Step 5: the amount *)
Definition amount_match (full_text : str) : option match_obj :=
  match search _RE_TOTALUSD full_text with
  | Some m => Some m
  | None => search _RE_ANYUSD full_text
  end.

Definition normalize_amount (captured : str) : result (option spec_float) :=
  let raw := sub_set _RE_NON_DIGIT_DOT [] captured in
  match float raw with
  | Return x => Return (Some x)
  | Raise (ValueError _) => Return None
  | Raise e => Raise e
  end.

Definition find_amount (full_text : str) : result (option spec_float) :=
  match amount_match full_text with
  | Some m_amt => normalize_amount (group m_amt 1)
  | None => Return None
  end.

(** Step 7: the names of the missing fields, in the order of the keys *)
Definition missing_fields (r : invoice) : list str :=
  (if str_missing (invoice_number r) then [lit "invoice_number"] else [])
  ++ (if str_missing (date r) then [lit "date"] else [])
  ++ (if float_missing (amount r) then [lit "amount"] else [])
  ++ (if str_missing (case_descr r) then [lit "case_descr"] else []).

(** [parse_invoice] from the text of the pages on (steps 3 to 8); reading
    the file is the caller's. *)
Definition parse_invoice (full_text : str) : result invoice :=
  bind (find_date full_text) (λ date_iso,
  let invoice_number := find_invoice_number full_text in
  bind (find_amount full_text) (λ amount,
  let case_descr := _find_case_descr full_text in
  let r := Invoice invoice_number date_iso amount case_descr in
  match missing_fields r with
  | [] => Return r
  | missing =>
      Raise (ValueError (lit "parse_invoice: missing " ++ join (lit ", ") missing))
  end)).

End WithUnicode.

End Invoice.

(** ** [make_case_dir_v2-1.py]: the amount of [extract_from_pdf] *)

Module MakeCaseDir.
Import Py Re.

(** [s.replace(c, '')] for a one-character [c] *)
Definition remove_char (c : Z) (s : str) : str :=
  List.filter (λ x, negb (x =? c)) s.

Section WithUnicode.
Context `{Unicode}.

(** [norm = raw_amt.replace(' ', '').replace(',', '')];
    [amount_float = float(norm)] *)
Definition amount_float (raw_amt : str) : result spec_float :=
  let norm := remove_char 44 (remove_char 32 raw_amt) in
  float norm.

(** The amount part of [extract_from_pdf]: the patterns are those of
    [parser_Invoicev2.py], letter for letter. *)
Definition extract_amount (text : str) : result spec_float :=
  match Invoice.amount_match text with
  | None =>
      Raise (ValueError (lit "USD amount " ++ [1085; 1077; 32; 1085; 1072;
                                               1081; 1076; 1077; 1085; 1072]))
  | Some m_amt => amount_float (group m_amt 1)
  end.

End WithUnicode.

End MakeCaseDir.

(** ** [Google_add_string_Hv2-1.py]: the folder of a case *)

Module AddString.
Import Py Re.

Definition CONSTANT_TEXT : str := lit "XXX".

(** The raw string of forbidden characters: less-than, greater-than, colon,
    double quote, slash, backslash (twice, the string being raw), vertical
    bar, question mark, asterisk *)
Definition FORBIDDEN : str := [60; 62; 58; 34; 47; 92; 92; 124; 63; 42].

(** The words of the template: "Нова ", " №", " Хелп" *)
Definition nova : str := [1053; 1086; 1074; 1072; 32].
Definition numero : str := [32; 8470].
Definition help : str := [32; 1061; 1077; 1083; 1087].

Section WithUnicode.
Context `{Unicode}.

Definition sanitize (name : str) : str :=
  let name := sub_set (CIn FORBIDDEN) [] name in
  strip_by (in_chars (lit " .")) name.

(** [create_case_dir] up to the name of the directory it creates under the
    working directory; the [mkdir] is the caller's. *)
Definition create_case_dir (date_iso : str) (amount : spec_float)
    (invoice_number : Z) : result str :=
  bind (fromisoformat date_iso) (λ dt,
  let yy_mm := strftime_yy_mm dt in
  bind (round amount) (λ amount_int,
  let dir_name :=
    nova ++ yy_mm ++ [32] ++ CONSTANT_TEXT ++ [32] ++ str_of_int amount_int
    ++ numero ++ str_of_int invoice_number ++ help in
  Return (sanitize dir_name))).

End WithUnicode.

End AddString.

(** ** [Mega_Help_Scriptv2.py] *)

Module MegaHelp.
Import Py Re.

(** [Approved case\s*(\d{8})] *)
Definition RE_APPROVED : regex :=
  seq_of [word "Approved case"; RRep Greedy CSpace 0 None;
          RGroup 1 (RRep Greedy CDigit 8 (Some 8%nat))].

(** The raw string of forbidden characters, as in
    [Google_add_string_Hv2-1.py] *)
Definition FORBIDDEN : str := [60; 62; 58; 34; 47; 92; 92; 124; 63; 42].

(** [RE_CASE_FOLDER.format(n)], that is [{0:08d}]: the sign comes first *)
Definition format_08d (n : Z) : str :=
  if n <? 0 then 45 :: zfill 7 (str_of_int (- n)) else zfill 8 (str_of_int n).

(** The status texts "Готово", "Ожидает Invoice", "Ошибка: ", and the causes
    "Папка-кейс не найдена", "Invoice не найден", "Invoice not found" *)
Definition READY : str := [1043; 1086; 1090; 1086; 1074; 1086].
Definition WAITING : str :=
  [1054; 1078; 1080; 1076; 1072; 1077; 1090; 32] ++ lit "Invoice".
Definition ERROR_PREFIX : str := [1054; 1096; 1080; 1073; 1082; 1072; 58; 32].
Definition FOLDER_NOT_FOUND : str :=
  [1055; 1072; 1087; 1082; 1072; 45; 1082; 1077; 1081; 1089; 32; 1085; 1077;
   32; 1085; 1072; 1081; 1076; 1077; 1085; 1072].
Definition INVOICE_NOT_FOUND_RU : str :=
  lit "Invoice " ++ [1085; 1077; 32; 1085; 1072; 1081; 1076; 1077; 1085].
Definition INVOICE_NOT_FOUND : str := lit "Invoice not found".
(** the marker of the last column of a row of the sheet *)
Definition MARKER : str := [1093; 1077; 1088].

(** *** Data *)

Inductive cell :=
| CNone
| CStr (s : str)
| CInt (n : Z)
| CFloat (x : spec_float).

(** A row of [cases_status.xlsx]: the columns YY-MM, case_descr, amount,
    invoice_number, status *)
Record row := Row {
  r_yy_mm : cell;
  r_case_descr : cell;
  r_amount : cell;
  r_invoice_number : Z;
  r_status : str;
}.

Record CaseFlags := Flags {
  invoice_downloaded : bool;
  grant_downloaded : bool;
  parsed : bool;
  error : option str;
}.

Definition new_flags : CaseFlags := Flags false false false None.

(** [seen_cases.json]: the messages seen, the flags of each case under the
    key [str(invoice_number)] *)
Record seen_data := SeenData {
  messages : list str;
  cases : gmap str CaseFlags;
}.

(** The two files of the working directory; [None]: the file is not there *)
Record disk := Disk {
  cases_xlsx : option (list row);
  seen_json : option seen_data;
}.

(** The lines of the Telegram log, by their template *)
Inductive log_line :=
| LGmailError (msg : str)
| LFound (n : Z)
| LDownloaded (name : str)
| LParsed
| LFolder
| LSheet
| LProcessed (n : Z)
| LCaseError (n : Z) (msg : str).

Record file_meta := FileMeta { file_id : str; file_name : str }.

(** A part of the payload of a message: its decoded body data, its parts *)
Inductive part := Part (data : option str) (parts : list part).

Record message := Message {
  headers : list (str * str);
  payload : part;
}.

(** The services of one run.  A call answers or raises. *)
Record env := Env {
  load_parser : result unit;
  (** building the Gmail service, then [messages().list]: the ids *)
  gmail_list : result (list str);
  gmail_get : str → result message;
  (** building the Drive and Sheets services *)
  drive_auth : result unit;
  (** the ids of the folders of that name under the root folder *)
  drive_folders : str → result (list str);
  (** the PDFs of a folder, the last modified first *)
  drive_pdfs : str → result (list file_meta);
  (** fetching a file into the local file of that name *)
  drive_download : file_meta → str → result unit;
  (** the text of the pages of a local PDF *)
  pdf_text : str → result str;
  fs_mkdir : str → result unit;
  fs_move : str → str → result unit;
  sheet_append : list cell → result unit;
}.

(** The updates of the state of a case *)
Inductive transition :=
| TDiscovered
| TInvoiceDownloaded
| TGrantDownloaded
| TParsed
| TDone
| TError (cause : str).

(** What a run does: the calls of the services, the updates of the state of
    a case in memory, the writes of the two files. *)
Inductive event :=
| EGmailList
| EGmailGet (id : str)
| EFindFolder (padded : str)
| EListPdfs (folder : str)
| EDownload (id : str) (name : str)
| EReadPdf (path : str)
| EMkdir (name : str)
| EMove (src dst : str)
| EAppendRow (values : list cell)
| EState (n : Z) (t : transition)
| ESaveExcel (df : list row)
| ESaveSeen (sd : seen_data)
| ETelegram (log : list log_line).

(** The variables of [process], and what was done so far, in order: each
    event with the case in hand when it happened ([None] outside the second
    loop). *)
Record rstate := RState {
  cases_df : list row;
  seen : seen_data;
  seen_msgs : gset str;
  telegram_log : list log_line;
  case_flags : CaseFlags;
  in_hand : option Z;
  trace : list (option Z * event);
}.

Definition init_state : rstate :=
  RState [] (SeenData [] ∅) ∅ [] new_flags None [].

(** *** A computation on the variables that may raise; what was done before
    an exception stays done. *)

Definition M (A : Type) : Type := rstate → result A * rstate.

#[global] Instance M_ret : MRet M := λ A a s, (Return a, s).
#[global] Instance M_bind : MBind M := λ A B f m s,
  match m s with
  | (Return a, s') => f a s'
  | (Raise e, s') => (Raise e, s')
  end.

Definition lift {A} (r : result A) : M A := λ s, (r, s).
Definition raise {A} (e : exn) : M A := lift (Raise e).
Definition gets {A} (f : rstate → A) : M A := λ s, (Return (f s), s).
Definition modify (f : rstate → rstate) : M unit := λ s, (Return (), f s).

(** [try: m except Exception as e: h e] *)
Definition try_except {A} (m : M A) (h : exn → M A) : M A := λ s,
  match m s with
  | (Return a, s') => (Return a, s')
  | (Raise e, s') => h e s'
  end.

(** [try: m finally: f] *)
Definition try_finally {A} (m : M A) (f : M unit) : M A := λ s,
  let '(r, s') := m s in
  match f s' with
  | (Return _, s'') => (r, s'')
  | (Raise e, s'') => (Raise e, s'')
  end.

Fixpoint for_each {A} (f : A → M unit) (l : list A) : M unit :=
  match l with
  | [] => mret ()
  | a :: l' => f a ;; for_each f l'
  end.

Definition set_df (f : list row → list row) : M unit :=
  modify (λ s, RState (f (cases_df s)) (seen s) (seen_msgs s)
                 (telegram_log s) (case_flags s) (in_hand s) (trace s)).
Definition set_seen (f : seen_data → seen_data) : M unit :=
  modify (λ s, RState (cases_df s) (f (seen s)) (seen_msgs s)
                 (telegram_log s) (case_flags s) (in_hand s) (trace s)).
Definition set_seen_msgs (f : gset str → gset str) : M unit :=
  modify (λ s, RState (cases_df s) (seen s) (f (seen_msgs s))
                 (telegram_log s) (case_flags s) (in_hand s) (trace s)).
Definition log (l : log_line) : M unit :=
  modify (λ s, RState (cases_df s) (seen s) (seen_msgs s)
                 (telegram_log s ++ [l]) (case_flags s) (in_hand s)
                 (trace s)).
Definition set_flags (f : CaseFlags → CaseFlags) : M unit :=
  modify (λ s, RState (cases_df s) (seen s) (seen_msgs s)
                 (telegram_log s) (f (case_flags s)) (in_hand s)
                 (trace s)).
Definition set_in_hand (n : option Z) : M unit :=
  modify (λ s, RState (cases_df s) (seen s) (seen_msgs s)
                 (telegram_log s) (case_flags s) n (trace s)).
Definition emit (e : event) : M unit :=
  modify (λ s, RState (cases_df s) (seen s) (seen_msgs s)
                 (telegram_log s) (case_flags s) (in_hand s)
                 (trace s ++ [(in_hand s, e)])).

(** A call of a service: it is recorded, then it answers or raises. *)
Definition call {A} (e : event) (r : result A) : M A := emit e ;; lift r.

(** A value that must not be [None] where it is used *)
Definition require {A} (o : option A) : M A :=
  match o with
  | Some a => mret a
  | None => raise (TypeError (lit "NoneType"))
  end.

(** *** The functions of the script *)

Section WithUnicode.
Context `{Unicode}.

Definition clean_filename (name : str) : str :=
  strip_by (in_chars (lit " .")) (sub_set (CIn FORBIDDEN) (lit "_") name).

(** [create_case_dir] up to the name of the directory made under the
    working directory; the [mkdir] is in [file_case] below. *)
Definition create_case_dir (date_iso : str) (amount : spec_float)
    (invoice_number : Z) : result str :=
  bind (fromisoformat date_iso) (λ dt,
  let yy_mm := strftime_yy_mm dt in
  bind (round amount) (λ amount_int,
  let name :=
    AddString.nova ++ yy_mm ++ lit " XXX " ++ str_of_int amount_int
    ++ AddString.numero ++ str_of_int invoice_number ++ AddString.help in
  Return (clean_filename name))).

Definition startswith (s pre : str) : bool := bool_decide (pre `prefix_of` s).
Definition endswith (s suf : str) : bool := bool_decide (suf `suffix_of` s).

Fixpoint _extract_text (p : part) : str :=
  match p with
  | Part data parts =>
      default [] data
      ++ (fix go (ps : list part) : str :=
            match ps with
            | [] => []
            | q :: ps' => _extract_text q ++ go ps'
            end) parts
  end.

Definition subject_of (hs : list (str * str)) : str :=
  match List.find (λ h, str_eqb (fst h) (lit "Subject")) hs with
  | Some h => snd h
  | None => []
  end.

(** [full_text = subject + "\n" + body] of a fetched message *)
Definition message_text (full : message) : str :=
  let subject := subject_of (headers full) in
  let body := _extract_text (payload full) in
  subject ++ [10] ++ body.

(** The loop of [search_new_messages] over the ids that the query gave *)
Fixpoint scan_messages (e : env) (seen_ids : gset str) (ids : list str)
    (results : list (str * Z)) : M (list (str * Z)) :=
  match ids with
  | [] => mret results
  | msg_id :: ids' =>
      if bool_decide (msg_id ∈ seen_ids) then
        scan_messages e seen_ids ids' results
      else
        full ← call (EGmailGet msg_id) (gmail_get e msg_id);
        match search RE_APPROVED (message_text full) with
        | None => scan_messages e seen_ids ids' results
        | Some m =>
            n ← lift (int (group m 1));
            scan_messages e seen_ids ids' (results ++ [(msg_id, n)])
        end
  end.

Definition search_new_messages (e : env) (seen_ids : gset str)
    : M (list (str * Z)) :=
  ids ← call EGmailList (gmail_list e);
  scan_messages e seen_ids ids [].

Definition find_case_folder (e : env) (padded : str) : M (option str) :=
  files ← call (EFindFolder padded) (drive_folders e padded);
  mret (head files).

Definition find_latest_pdf (e : env) (parent_id prefix : str)
    : M (option file_meta) :=
  files ← call (EListPdfs parent_id) (drive_pdfs e parent_id);
  mret (List.find (λ f, startswith (lower (file_name f)) (lower prefix)) files).

Definition download_pdf (e : env) (fm : file_meta) (desired_name : str)
    : M str :=
  let desired_name :=
    if endswith (lower desired_name) (lit ".pdf") then desired_name
    else desired_name ++ lit ".pdf" in
  let desired_name := clean_filename desired_name in
  call (EDownload (file_id fm) desired_name)
       (drive_download e fm desired_name) ;;
  mret desired_name.

(** The writes of the two files, as they go when the files can be
    written; [MegaHelpStore] below has the reads and the writes that may
    fail. *)
Definition save_cases_excel : M unit :=
  df ← gets cases_df; emit (ESaveExcel df).

Definition save_seen : M unit :=
  sd ← gets seen; emit (ESaveSeen sd).

(** [ensure_cases_excel]: an absent file is created with no row *)
Definition ensure_cases_excel (d : disk) : M (list row) :=
  match cases_xlsx d with
  | None => emit (ESaveExcel []) ;; mret []
  | Some df => mret df
  end.

Definition load_seen (d : disk) : seen_data :=
  default (SeenData [] ∅) (seen_json d).

Definition send_telegram : M unit :=
  lg ← gets telegram_log;
  match lg with
  | [] => mret ()
  | _ => emit (ETelegram lg)
  end.

Definition set_status (idx : nat) (n : Z) (v : str) (t : transition) : M unit :=
  set_df (alter (λ r, Row (r_yy_mm r) (r_case_descr r) (r_amount r)
                          (r_invoice_number r) v) idx) ;;
  emit (EState n t).

Definition opt_cell {A} (f : A → cell) (o : option A) : cell :=
  match o with Some a => f a | None => CNone end.

(** The first loop of [process]: a message that names a case *)
Definition note_message (m : str * Z) : M unit :=
  let '(msg_id, inv_no) := m in
  df ← gets cases_df;
  (if bool_decide (inv_no ∈ r_invoice_number <$> df) then mret ()
   else
     set_df (λ df, df ++ [Row (CStr []) (CStr []) (CStr []) inv_no WAITING]) ;;
     emit (EState inv_no TDiscovered)) ;;
  log (LFound inv_no) ;;
  set_seen_msgs (λ sm, sm ∪ {[ msg_id ]}) ;;
  set_seen (λ sd, SeenData (messages sd)
    (match cases sd !! str_of_int inv_no with
     | Some _ => cases sd
     | None => <[str_of_int inv_no := new_flags]> (cases sd)
     end)).

(** The body of the [try] of the second loop, from the parsing on *)
Definition file_case (e : env) (idx : nat) (invoice_number : Z)
    (inv_path : str) (grant_path : option str) : M unit :=
  full_text ← call (EReadPdf inv_path) (pdf_text e inv_path);
  info ← lift (Invoice.parse_invoice full_text);
  date_iso ← require (Invoice.date info);
  dt ← lift (fromisoformat date_iso);
  let yy_mm := strftime_yy_mm dt in
  set_df (alter (λ r, Row (CStr yy_mm) (opt_cell CStr (Invoice.case_descr info))
                          (opt_cell CFloat (Invoice.amount info))
                          (r_invoice_number r) (r_status r)) idx) ;;
  log LParsed ;;
  set_flags (λ f, Flags (invoice_downloaded f) (grant_downloaded f) true (error f)) ;;
  emit (EState invoice_number TParsed) ;;
  amount ← require (Invoice.amount info);
  target_dir ← lift (create_case_dir date_iso amount invoice_number);
  call (EMkdir target_dir) (fs_mkdir e target_dir) ;;
  (let dst := target_dir ++ [47] ++ inv_path in
   call (EMove inv_path dst) (fs_move e inv_path dst)) ;;
  match grant_path with
  | Some g =>
      let dst := target_dir ++ [47] ++ g in
      call (EMove g dst) (fs_move e g dst)
  | None => mret ()
  end ;;
  log LFolder ;;
  (let values :=
     [CStr date_iso; CStr []; CStr []; CInt invoice_number;
      opt_cell CStr (Invoice.case_descr info);
      opt_cell CFloat (Invoice.amount info);
      CStr []; CStr []; CStr []; CStr []; CStr []; CStr MARKER] in
   call (EAppendRow values) (sheet_append e values)) ;;
  log LSheet ;;
  set_status idx invoice_number READY TDone ;;
  log (LProcessed invoice_number).

(** The body of the [try] of the second loop *)
Definition acquire_case (e : env) (idx : nat) (invoice_number : Z) : M unit :=
  let padded := format_08d invoice_number in
  folder ← find_case_folder e padded;
  match folder with
  | None | Some [] => raise (RuntimeError FOLDER_NOT_FOUND)
  | Some folder_id =>
      invoice_meta ← find_latest_pdf e folder_id (lit "Invoice");
      grant_meta ← find_latest_pdf e folder_id (lit "Grant Agreement");
      inv_path ←
        match invoice_meta with
        | Some fm =>
            p ← download_pdf e fm
                  (lit "Invoice " ++ str_of_int invoice_number ++ lit ".pdf");
            log (LDownloaded p) ;;
            set_flags (λ f, Flags true (grant_downloaded f) (parsed f) (error f)) ;;
            emit (EState invoice_number TInvoiceDownloaded) ;;
            mret (Some p)
        | None => mret None
        end;
      grant_path ←
        match grant_meta with
        | Some fm =>
            p ← download_pdf e fm
                  (lit "Grant Agreement " ++ str_of_int invoice_number
                   ++ lit ".pdf");
            log (LDownloaded p) ;;
            set_flags (λ f, Flags (invoice_downloaded f) true (parsed f) (error f)) ;;
            emit (EState invoice_number TGrantDownloaded) ;;
            mret (Some p)
        | None => mret None
        end;
      match inv_path with
      | Some p => file_case e idx invoice_number p grant_path
      | None =>
          set_status idx invoice_number (ERROR_PREFIX ++ INVOICE_NOT_FOUND_RU)
            (TError INVOICE_NOT_FOUND) ;;
          log (LCaseError invoice_number INVOICE_NOT_FOUND_RU) ;;
          set_flags (λ f, Flags (invoice_downloaded f) (grant_downloaded f)
                            (parsed f) (Some INVOICE_NOT_FOUND))
      end
  end.

(** One turn of the second loop of [process] *)
Definition process_row (e : env) (ir : nat * row) : M unit :=
  let '(idx, r) := ir in
  if str_eqb (r_status r) READY then mret ()
  else
    let invoice_number := r_invoice_number r in
    set_in_hand (Some invoice_number) ;;
    sd ← gets seen;
    set_flags (λ _, default new_flags (cases sd !! str_of_int invoice_number)) ;;
    try_finally
      (try_except (acquire_case e idx invoice_number)
         (λ ex,
            set_status idx invoice_number (ERROR_PREFIX ++ exn_msg ex)
              (TError (exn_msg ex)) ;;
            log (LCaseError invoice_number (exn_msg ex)) ;;
            set_flags (λ f, Flags (invoice_downloaded f) (grant_downloaded f)
                              (parsed f) (Some (exn_msg ex)))))
      (cf ← gets case_flags;
       set_seen (λ sd, SeenData (messages sd)
                         (<[str_of_int invoice_number := cf]> (cases sd))) ;;
       save_cases_excel ;;
       save_seen ;;
       set_in_hand None).

(** The start of [process]: the table and the seen data are read. *)
Definition load_files (d : disk) : M unit :=
  df ← ensure_cases_excel d;
  set_df (λ _, df) ;;
  set_seen (λ _, load_seen d) ;;
  set_seen_msgs (λ _, list_to_set (messages (load_seen d))).

(** The first part of [process]: the search of the messages, the first
    loop and the saves after it *)
Definition discover (e : env) : M unit :=
  seen_ids ← gets seen_msgs;
  new_msgs ← try_except (search_new_messages e seen_ids)
                (λ ex, log (LGmailError (exn_msg ex)) ;; mret []);
  for_each note_message new_msgs ;;
  save_cases_excel ;;
  sm ← gets seen_msgs;
  set_seen (λ sd, SeenData (elements sm) (cases sd)) ;;
  save_seen.

(** The second loop *)
Definition process_cases (e : env) : M unit :=
  df ← gets cases_df;
  for_each (process_row e) (imap pair df).

Definition process (e : env) (d : disk) : M unit :=
  lift (load_parser e) ;;
  load_files d ;;
  discover e ;;
  lift (drive_auth e) ;;
  process_cases e ;;
  send_telegram.

End WithUnicode.

(** The files after the writes of a trace *)
Definition stored (d : disk) (ev : option Z * event) : disk :=
  match snd ev with
  | ESaveExcel df => Disk (Some df) (seen_json d)
  | ESaveSeen sd => Disk (cases_xlsx d) (Some sd)
  | _ => d
  end.

Definition disk_after (d : disk) (tr : list (option Z * event)) : disk :=
  foldl stored d tr.

Section Runs.
Context `{Unicode}.

(** One run of the script: how it ends, what it did, the files it leaves *)
Definition run (e : env) (d : disk)
    : result unit * list (option Z * event) * disk :=
  let '(r, s) := process e d init_state in
  (r, trace s, disk_after d (trace s)).

(** Runs one after the other, each on the files that the one before
    left: what each did *)
Fixpoint run_all (es : list env) (d : disk)
    : list (list (option Z * event)) :=
  match es with
  | [] => []
  | e :: es' => let '(_, tr, d') := run e d in tr :: run_all es' d'
  end.

(** The files after runs one after the other *)
Fixpoint files_after (es : list env) (d : disk) : disk :=
  match es with
  | [] => d
  | e :: es' => files_after es' (run e d).2
  end.

End Runs.

(** *** Words for the properties of a run *)

Definition numbers (df : list row) : list Z := r_invoice_number <$> df.

(** The case [n] is done in the table: it has a row, and each of its rows
    has the status of a finished case. *)
Definition done_in (n : Z) (df : list row) : Prop :=
  n ∈ numbers df ∧ ∀ r, r ∈ df → r_invoice_number r = n → r_status r = READY.

(** An event that belongs to the case [n]: done while [n] was in hand, or
    an update of the state of [n] *)
Definition for_case (n : Z) (ev : option Z * event) : Prop :=
  fst ev = Some n ∨ ∃ t, snd ev = EState n t.

(** Nothing in [tr] belongs to the case [n]. *)
Definition quiet (n : Z) (tr : list (option Z * event)) : Prop :=
  Forall (λ ev, ¬ for_case n ev) tr.

Definition is_save (ev : option Z * event) : bool :=
  match snd ev with
  | ESaveExcel _ | ESaveSeen _ => true
  | _ => false
  end.

Definition is_transition (ev : option Z * event) : bool :=
  match snd ev with
  | EState _ _ => true
  | _ => false
  end.

(** Two updates of the state of a case follow each other in [tr] with no
    save between them ([pending]: an update was seen since the last
    save). *)
Fixpoint unsaved_transitions (pending : bool)
    (tr : list (option Z * event)) : bool :=
  match tr with
  | [] => false
  | ev :: tr' =>
      if is_save ev then unsaved_transitions false tr'
      else if is_transition ev then pending || unsaved_transitions true tr'
      else unsaved_transitions pending tr'
  end.

(** The two files hold what is in memory. *)
Definition synced (d : disk) (s : rstate) : Prop :=
  disk_after d (trace s) = Disk (Some (cases_df s)) (Some (seen s)).

(** The messages recorded as seen in the files *)
Definition seen_on (d : disk) : list str :=
  match seen_json d with Some sd => messages sd | None => [] end.

(** [m], started where [P] holds, ends where [Q] holds, whatever it
    answers. *)
Definition hoare {A} (P : rstate → Prop) (m : M A) (Q : rstate → Prop)
    : Prop :=
  ∀ s, P s → Q (snd (m s)).

(** [m] keeps [I]. *)
Definition keeps {A} (I : rstate → Prop) (m : M A) : Prop := hoare I m I.

(** [m], started where [P] holds, answers a value and a state that [Q]
    relates, or raises in a state where [R] holds. *)
Definition triple {A} (P : rstate → Prop) (m : M A)
    (Q : A → rstate → Prop) (R : rstate → Prop) : Prop :=
  ∀ s, P s →
    match m s with
    | (Return a, s') => Q a s'
    | (Raise _, s') => R s'
    end.

(** [m] never raises. *)
Definition total {A} (m : M A) : Prop := ∀ s, ∃ a, (m s).1 = Return a.

(** The case [n] is in hand and, since the trace was [t0], nothing was
    saved. *)
Definition within_case (n : Z) (t0 : list (option Z * event)) (s : rstate)
    : Prop :=
  in_hand s = Some n
  ∧ ∃ evs, trace s = t0 ++ evs ∧ Forall (λ ev, is_save ev = false) evs.

(** Every message that is seen, in memory or in a write of the file,
    satisfies [P]. *)
Definition seen_within (P : str → Prop) (s : rstate) : Prop :=
  (∀ id, id ∈ seen_msgs s → P id)
  ∧ (∀ id, id ∈ messages (seen s) → P id)
  ∧ Forall (λ ev, ∀ sd, ev.2 = ESaveSeen sd → ∀ id, id ∈ messages sd → P id)
      (trace s).

(** The message [id] was fetched. *)
Definition fetched (id : str) (s : rstate) : Prop :=
  ∃ w, (w, EGmailGet id) ∈ trace s.
Section Messages.
Context `{Unicode}.

(** The query of [e] lists the message [id], and its text carries the
    pattern. *)
Definition approved (e : env) (id : str) : Prop :=
  ∃ ids full m, gmail_list e = Return ids ∧ id ∈ ids
    ∧ gmail_get e id = Return full
    ∧ search RE_APPROVED (message_text full) = Some m.

(** The script starts, the query of [e] lists messages that can all be
    fetched, and among them [id], whose text does not carry the pattern. *)
Definition listed_unapproved (e : env) (id : str) : Prop :=
  load_parser e = Return ()
  ∧ ∃ ids, gmail_list e = Return ids ∧ id ∈ ids
      ∧ (∀ id', id' ∈ ids → ∃ full, gmail_get e id' = Return full)
      ∧ ∃ full, gmail_get e id = Return full
          ∧ search RE_APPROVED (message_text full) = None.

End Messages.

(** An event that leaves the case [n] alone: it does not belong to [n], a
    table that it writes has [n] done, a row that it appends to the sheet
    is not a row of [n]. *)
Definition innocent (n : Z) (ev : option Z * event) : Prop :=
  ¬ for_case n ev
  ∧ (∀ df, snd ev = ESaveExcel df → done_in n df)
  ∧ (∀ values, snd ev = EAppendRow values →
       values !! 3%nat ≠ Some (CInt n)).

(** So far the case [n] was left alone, and it is not in hand. *)
Definition untouched (n : Z) (s : rstate) : Prop :=
  Forall (innocent n) (trace s) ∧ in_hand s ≠ Some n.

(** Moreover the case [n] is done in the table in memory. *)
Definition skipping (n : Z) (s : rstate) : Prop :=
  untouched n s ∧ done_in n (cases_df s).

(** Moreover the numbers of the rows are [L]. *)
Definition skipping_at (n : Z) (L : list Z) (s : rstate) : Prop :=
  skipping n s ∧ numbers (cases_df s) = L.

End MegaHelp.

(** ** The tables on ASCII

    The tables restricted to the ASCII letters and digits, with the white
    space of the whole of Unicode: what every version of the Unicode
    database says of the characters of an ASCII text.  The concrete texts
    of this file are evaluated with them. *)

Module Tables.
Import Py.

Definition a_isdigit (c : Z) : bool := (48 <=? c) && (c <=? 57).

Definition a_isspace (c : Z) : bool :=
  ((9 <=? c) && (c <=? 13)) || ((28 <=? c) && (c <=? 32))
  || in_chars [133; 160; 5760; 8232; 8233; 8239; 8287; 12288] c
  || ((8192 <=? c) && (c <=? 8202)).

Definition a_isword (c : Z) : bool :=
  ((48 <=? c) && (c <=? 57)) || ((65 <=? c) && (c <=? 90))
  || ((97 <=? c) && (c <=? 122)) || (c =? 95).

Definition a_casefold_eq (p c : Z) : bool := ascii_lower p =? ascii_lower c.

Definition ascii_tables : Unicode.
Proof.
  refine {|
    isdigit := a_isdigit;
    digit_value c := c - 48;
    isspace := a_isspace;
    isword := a_isword;
    casefold_eq := a_casefold_eq;
    lower := map ascii_lower;
  |}.
  all: unfold a_isdigit, a_isspace, a_isword, a_casefold_eq, ascii_lower,
         ascii_letter, in_chars.
  - reflexivity.
  - reflexivity.
  - lia.
  - intros c Hc.
    rewrite bool_decide_eq_false_2
      by (rewrite !elem_of_cons, elem_of_nil; lia).
    replace ((8192 <=? c) && (c <=? 8202)) with false by lia.
    rewrite !orb_false_r. reflexivity.
  - intros c Hc.
    rewrite bool_decide_eq_false_2
      by (rewrite !elem_of_cons, elem_of_nil; lia).
    lia.
  - reflexivity.
  - reflexivity.
  - intros p c Hp Hl. destruct ((65 <=? p) && (p <=? 90)) eqn:E; [lia|].
    destruct ((65 <=? c) && (c <=? 90)) eqn:E'; lia.
  - intros p c Hl Hc.
    assert (65 ≤ c ≤ 122)
      by (destruct ((65 <=? p) && (p <=? 90)) eqn:E1;
          destruct ((65 <=? c) && (c <=? 90)) eqn:E2; lia).
    rewrite bool_decide_eq_false_2
      by (rewrite !elem_of_cons, elem_of_nil; lia).
    lia.
  - intros p c Hl Hc.
    destruct ((65 <=? p) && (p <=? 90)) eqn:E1;
      destruct ((65 <=? c) && (c <=? 90)) eqn:E2; lia.
Defined.

End Tables.

(** ** The shapes of text that the properties speak of *)

Module Shape.
Import Py Re.

Section WithUnicode.
Context `{Unicode}.

Definition digits (s : str) : Prop := Forall (λ c, isdigit c = true) s.
Definition blanks (s : str) : Prop := Forall (λ c, isspace c = true) s.

(** [w] is the word [p] of a pattern compiled with [re.I] *)
Definition word_i_is (p : string) (w : str) : Prop :=
  Forall2 (λ pc c, casefold_eq pc c = true) (lit p) w.

(** A date M/D/YYYY stands in [text] right after [pre]: one or two digits,
    a slash, one or two digits, a slash, four digits. *)
Definition date_at (text pre mm dd yyyy : str) : Prop :=
  ∃ post, text = pre ++ mm ++ [47] ++ dd ++ [47] ++ yyyy ++ post
    ∧ digits mm ∧ (1 ≤ length mm ≤ 2)%nat
    ∧ digits dd ∧ (1 ≤ length dd ≤ 2)%nat
    ∧ digits yyyy ∧ length yyyy = 4%nat.

(** The first substring of [text] that is such a date *)
Definition first_date (text mm dd yyyy : str) : Prop :=
  ∃ pre, date_at text pre mm dd yyyy
    ∧ ∀ pre' mm' dd' yyyy', date_at text pre' mm' dd' yyyy' →
        (length pre ≤ length pre')%nat.



(** The header of the table: Description, white space, Amount, white
    space, whatever the case of the letters *)
Definition header (h : str) : Prop :=
  ∃ d ws1 a ws2, h = d ++ ws1 ++ a ++ ws2
    ∧ word_i_is "Description" d ∧ blanks ws1 ∧ ws1 ≠ []
    ∧ word_i_is "Amount" a ∧ blanks ws2 ∧ ws2 ≠ [].

(** The money cell that ends the description: white space, USD, possibly
    white space, a digit *)
Definition anchor (a : str) : Prop :=
  ∃ ws u ws' d, a = ws ++ u ++ ws' ++ [d]
    ∧ blanks ws ∧ ws ≠ [] ∧ word_i_is "USD" u ∧ blanks ws'
    ∧ isdigit d = true.

(** After [pre], [text] has a header, the text [body], which is not empty,
    and an anchor. *)
Definition descr_at (text pre body : str) : Prop :=
  ∃ h a post, text = pre ++ h ++ body ++ a ++ post
    ∧ header h ∧ body ≠ [] ∧ anchor a.

(** An anchor starts in [text] right after [pre]. *)
Definition anchor_at (text pre : str) : Prop :=
  ∃ a post, text = pre ++ a ++ post ∧ anchor a.

(** The layout of the sample invoice: after [pre], a header with all the
    white space that follows it, a text [body] that starts with a character
    that is not white space and in which no anchor starts, then an
    anchor. *)
Definition descr_layout (text pre body : str) : Prop :=
  ∃ h a post, text = pre ++ h ++ body ++ a ++ post
    ∧ header h ∧ anchor a
    ∧ (∃ b body', body = b :: body' ∧ isspace b = false)
    ∧ ∀ b1 b2, body = b1 ++ b2 → b1 ≠ [] → b2 ≠ [] →
        ¬ anchor_at (b2 ++ a ++ post) [].

(** The end of the description pattern, which reads an anchor *)
Definition anchor_re : regex :=
  seq_of [Invoice.sp_plus; word_i "USD"; Invoice.sp_star; RSet CDigit].

(** A field that was located: a value, and not the empty string *)
Definition located (v : option str) : Prop := ∃ s, v = Some s ∧ s ≠ [].

(** The message of the failure of [parse_invoice] that names [names] *)
Definition missing_message (names : list str) : str :=
  lit "parse_invoice: missing " ++ join (lit ", ") names.

(** The date that the triple of a date M/D/YYYY gives, read as month, day,
    year; [None] when it is no date of the calendar *)
Definition date_of_triple (mm dd yyyy : str) : option str :=
  let y := int_of_digits yyyy in
  let m := int_of_digits mm in
  let d := int_of_digits dd in
  if valid_date y m d then Some (isoformat (Date y m d)) else None.

End WithUnicode.

End Shape.

(** ** Words for the names of folders *)

Module NameShape.
Import Py.

(** [sub] occurs in [s] *)
Definition contains (s sub : str) : Prop := ∃ a b, s = a ++ sub ++ b.

(** No character of [s] is forbidden *)
Definition legal (s : str) : Prop := Forall (λ c, c ∉ AddString.FORBIDDEN) s.

(** [s] neither starts nor ends with a space or a period *)
Definition trimmed (s : str) : Prop :=
  (∀ c, head s = Some c → c ≠ 32 ∧ c ≠ 46)
  ∧ (∀ c, last s = Some c → c ≠ 32 ∧ c ≠ 46).

(** The name that the template gives *)
Definition template (d : date) (amount_int invoice_number : Z) : str :=
  AddString.nova ++ strftime_yy_mm d ++ lit " XXX " ++ str_of_int amount_int
  ++ AddString.numero ++ str_of_int invoice_number ++ AddString.help.

End NameShape.

(** ** Sample inputs *)

Module Samples.
Import Py.

(** The invoice of the docstring of the parser *)
Definition invoice_text : str :=
  lit "Invoice No. 00012345" ++ [10] ++ lit "Date 3/10/2025" ++ [10]
  ++ lit "Description Amount" ++ [10; 10] ++ lit "repellents" ++ [10]
  ++ lit "USD 4,000.00" ++ [10] ++ lit "Total amount: USD 4 000.00".

(** A text whose first date has month 13, and a valid date after it *)
Definition month13_text : str := lit "13/01/2025 then 01/02/2025".

(** A header of the table and, glued to the description, the money cell *)
Definition glued_usd_text : str :=
  lit "Description Amount" ++ [10] ++ lit "repellentsUSD4".

(** A text with the all-zero token only *)
Definition zero_token_text : str := lit "case 00000000 closed".

(** A text with the bare token only *)
Definition bare_token_text : str := lit "00012345".

(** Services that answer: two messages, the first of which names the case
    12345; a folder with an invoice and a grant agreement; the sample
    invoice. *)
Definition services : MegaHelp.env :=
  MegaHelp.Env (Return ()) (Return [lit "m1"; lit "m2"])
    (λ id, Return (MegaHelp.Message [(lit "Subject", lit "Done")]
       (MegaHelp.Part
          (Some (if bool_decide (id = lit "m1")
                 then lit "Approved case 00012345" else lit "hello")) [])))
    (Return ()) (λ _, Return [lit "F1"])
    (λ _, Return [MegaHelp.FileMeta (lit "f1") (lit "invoice_x.pdf");
                  MegaHelp.FileMeta (lit "f2") (lit "Grant agreement.pdf")])
    (λ _ _, Return ()) (λ _, Return invoice_text) (λ _, Return ())
    (λ _ _, Return ()) (λ _, Return ()).

(** No file yet *)
Definition first_run_disk : MegaHelp.disk := MegaHelp.Disk None None.

(** The files when the case 12345 is done *)
Definition done_disk : MegaHelp.disk :=
  MegaHelp.Disk
    (Some [MegaHelp.Row (MegaHelp.CStr (lit "25-03"))
             (MegaHelp.CStr (lit "repellents"))
             (MegaHelp.CFloat (float_of_int 4000)) 12345 MegaHelp.READY])
    (Some (MegaHelp.SeenData [lit "m1"] ∅)).

End Samples.

(** ** Words for what a run leaves *)

Module RunWords.
Import Py Re MegaHelp.

(** The table of the files; no file, no row *)
Definition table_on (d : disk) : list row := default [] (cases_xlsx d).

(** A row that is done, or that carries an error *)
Definition settled (r : row) : Prop :=
  r_status r = READY ∨ ∃ cause, r_status r = ERROR_PREFIX ++ cause.

(** [ev] was done. *)
Definition happened (ev : option Z * event) (s : rstate) : Prop :=
  ev ∈ trace s.

(** [a] stands in [l] before an occurrence of [b]. *)
Definition precedes {A} (a b : A) (l : list A) : Prop :=
  ∃ l1 l2, l = l1 ++ a :: l2 ∧ b ∈ l2.

Definition is_telegram (ev : option Z * event) : bool :=
  match ev.2 with
  | ETelegram _ => true
  | _ => false
  end.

(** No Telegram message was sent. *)
Definition silent (s : rstate) : Prop :=
  Forall (λ ev, is_telegram ev = false) (trace s).

(** At most one Telegram message was sent, as the last thing done, and it
    is not empty. *)
Definition one_digest (tr : list (option Z * event)) : Prop :=
  Forall (λ ev, is_telegram ev = false) tr
  ∨ ∃ tr' w lg, tr = tr' ++ [(w, ETelegram lg)] ∧ lg ≠ []
      ∧ Forall (λ ev, is_telegram ev = false) tr'.

(** The row that the first loop adds for a case *)
Definition waiting_row (n : Z) : row :=
  Row (CStr []) (CStr []) (CStr []) n WAITING.

(** The numbers among [found] that are new to a table whose numbers are
    [known], each once, in the order in which they were found *)
Fixpoint fresh (known found : list Z) : list Z :=
  match found with
  | [] => []
  | k :: found' =>
      if bool_decide (k ∈ known) then fresh known found'
      else k :: fresh (known ++ [k]) found'
  end.

(** The message [id] is among the seen ones, in memory and in every write
    of the file, and it was not fetched. *)
Definition kept_seen (id : str) (s : rstate) : Prop :=
  id ∈ seen_msgs s ∧ id ∈ messages (seen s)
  ∧ Forall (λ ev, (∀ sd, ev.2 = ESaveSeen sd → id ∈ messages sd)
                  ∧ ev.2 ≠ EGmailGet id) (trace s).

(** The numbers of the table [df] start with [L], and are distinct if
    those of [L] are. *)
Definition extends (L : list Z) (df : list row) : Prop :=
  L `prefix_of` numbers df ∧ (NoDup L → NoDup (numbers df)).

(** The table in memory and every table written extend [L]. *)
Definition table_extends (L : list Z) (s : rstate) : Prop :=
  extends L (cases_df s)
  ∧ Forall (λ ev, ∀ df, ev.2 = ESaveExcel df → extends L df) (trace s).

(** The variables of the run are those of [s0]; the log and the trace may
    have grown. *)
Definition same_vars (s0 s : rstate) : Prop :=
  cases_df s = cases_df s0 ∧ seen s = seen s0 ∧ seen_msgs s = seen_msgs s0
  ∧ in_hand s = in_hand s0 ∧ case_flags s = case_flags s0.

End RunWords.

(** ** Words for the turn of a case in the second loop *)

Module TurnWords.
Import Py Re MegaHelp RunWords.

(** In the second loop over the table [df0], at the row [k]: the table has
    as many rows as [df0], the rows before [k] are settled, the rows after
    [k] are those of [df0]; [now] says that the row [k] is settled too. *)
Definition turn (df0 : list row) (k : nat) (now : bool) (s : rstate) : Prop :=
  length (cases_df s) = length df0
  ∧ (∀ j r, (j < k)%nat → cases_df s !! j = Some r → settled r)
  ∧ (∀ j, (k < j)%nat → cases_df s !! j = df0 !! j)
  ∧ (now = true → ∀ r, cases_df s !! k = Some r → settled r).


End TurnWords.

(** ** Words for the order of what a run does *)

Module OrderWords.
Import Py Re MegaHelp.

(** In [tr], read after the event [prev], each update that marks a case
    done comes right after the appending of a row of that case to the
    sheet, with the same case in hand. *)
Fixpoint done_after_append (prev : option (option Z * event))
    (tr : list (option Z * event)) : Prop :=
  match tr with
  | [] => True
  | ev :: tr' =>
      (∀ n, ev.2 = EState n TDone →
         ∃ values, prev = Some (ev.1, EAppendRow values)
           ∧ values !! 3%nat = Some (CInt n))
      ∧ done_after_append (Some ev) tr'
  end.

(** So far, each case that was marked done had its row appended just
    before. *)
Definition ordered (s : rstate) : Prop := done_after_append None (trace s).

(** The row of the sheet for a case: the date, two empty cells, the
    number, the description, the amount, five empty cells, the marker *)
Definition sheet_values (date_iso : str) (n : Z) (descr : str)
    (amount : spec_float) : list cell :=
  [CStr date_iso; CStr []; CStr []; CInt n; CStr descr; CFloat amount;
   CStr []; CStr []; CStr []; CStr []; CStr []; CStr MARKER].

Section WithUnicode.
Context `{Unicode}.

(** [values] is the row of a case, made of the fields that the parser
    found in the text of a PDF that was read. *)
Definition from_invoice (e : env) (values : list cell) : Prop :=
  ∃ n path text info date_iso descr amount,
    pdf_text e path = Return text
    ∧ Invoice.parse_invoice text = Return info
    ∧ Invoice.date info = Some date_iso
    ∧ Invoice.case_descr info = Some descr
    ∧ Invoice.amount info = Some amount
    ∧ values = sheet_values date_iso n descr amount.

(** Every row that was appended to the sheet is such a row. *)
Definition rows_from_invoices (e : env) (s : rstate) : Prop :=
  Forall (λ ev, ∀ values, ev.2 = EAppendRow values → from_invoice e values)
    (trace s).

End WithUnicode.

End OrderWords.

(** ** Words for what the parser returns *)

Module FieldShape.
Import Py Re.

(** No line boundary in [l] *)
Definition one_line (l : str) : Prop := Forall (λ c, is_linebreak c = false) l.

Section WithUnicode.
Context `{Unicode}.

(** [l] neither starts nor ends with white space *)
Definition stripped (l : str) : Prop :=
  (∀ c, head l = Some c → isspace c = false)
  ∧ (∀ c, last l = Some c → isspace c = false).

(** A digit or a period: what [_RE_NON_DIGIT_DOT] leaves *)
Definition digit_or_dot (c : Z) : bool := isdigit c || (c =? 46).

End WithUnicode.

End FieldShape.

(** ** [make_case_dir_v2-1.py]: [extract_from_pdf] *)

Module ExtractPdf.
Import Py Re.

(** [int(x)] of a float: towards zero; [OverflowError] on an infinity,
    [ValueError] on a NaN *)
Definition int_of_float (x : spec_float) : result Z :=
  match x with
  | S754_zero _ => Return 0
  | S754_finite s m e =>
      let a := if 0 <=? e then Z.pos m * 2 ^ e else Z.pos m / 2 ^ (- e) in
      Return (if s then - a else a)
  | S754_infinity _ =>
      Raise (OverflowError (lit "cannot convert float infinity to integer"))
  | S754_nan => Raise (ValueError (lit "cannot convert float NaN to integer"))
  end.

(** The digits of [s] in groups of three from the right, with [sep]
    between the groups: the thousands separator of [format] *)
Definition group3 (sep : Z) (s : str) : str :=
  reverse
    (concat
       (imap (λ i c,
                if bool_decide (i ≠ 0%nat ∧ (i mod 3 = 0)%nat)
                then [sep; c] else [c])
          (reverse s))).

(** [f"{x:,.2f}"]: the number rounded to two decimals (to the nearest, ties
    to even, on its exact value), the integer part in groups of three *)
Definition format_comma_2f (x : spec_float) : str :=
  let body (cents : Z) :=
    group3 44 (str_of_int (cents / 100)) ++ [46]
    ++ zfill 2 (str_of_int (cents mod 100)) in
  match x with
  | S754_zero s => (if s then [45] else []) ++ lit "0.00"
  | S754_finite s m e =>
      (if s then [45] else []) ++ body (round_half_even (m * 100) e)
  | S754_infinity s => (if s then [45] else []) ++ lit "inf"
  | S754_nan => lit "nan"
  end.

(** [s.replace(a, b)] for one-character [a] and [b] *)
Definition replace_char (a b : Z) (s : str) : str :=
  (λ c, if c =? a then b else c) <$> s.

(** The messages "Дата (M/D/YYYY) не найдена", "Номер инвойса не найден",
    "USD amount не найдена" *)
Definition NO_DATE : str :=
  [1044; 1072; 1090; 1072; 32] ++ lit "(M/D/YYYY)"
  ++ [32; 1085; 1077; 32; 1085; 1072; 1081; 1076; 1077; 1085; 1072].
Definition NO_NUMBER : str :=
  [1053; 1086; 1084; 1077; 1088; 32; 1080; 1085; 1074; 1086; 1081; 1089;
   1072; 32; 1085; 1077; 32; 1085; 1072; 1081; 1076; 1077; 1085].
Definition NO_AMOUNT : str :=
  lit "USD amount "
  ++ [1085; 1077; 32; 1085; 1072; 1081; 1076; 1077; 1085; 1072].

(** What [extract_from_pdf] returns *)
Record extracted := Extracted {
  invoice_dt : date;
  invoice_num : str;
  amount_full : str;
  amount_int : Z;
}.

Section WithUnicode.
Context `{Unicode}.

(** [extract_from_pdf] from the text of the pages on; the patterns are
    those of [parser_Invoicev2.py], letter for letter. *)
Definition extract_from_pdf (text : str) : result extracted :=
  match search Invoice._RE_DATE text with
  | None => Raise (ValueError NO_DATE)
  | Some m_date =>
      bind (int (group m_date 1)) (λ month,
      bind (int (group m_date 2)) (λ day,
      bind (int (group m_date 3)) (λ year,
      bind (datetime year month day) (λ invoice_dt,
      bind
        (match search Invoice._RE_INVNO text with
         | Some m_num => Return (group m_num 1)
         | None =>
             match search Invoice._RE_INVNO_FBK text with
             | Some m_num =>
                 Return (lstrip_by (in_chars (lit "0")) (m_group0 m_num))
             | None => Raise (ValueError NO_NUMBER)
             end
         end) (λ invoice_num,
      match Invoice.amount_match text with
      | None => Raise (ValueError NO_AMOUNT)
      | Some m_amt =>
          let raw_amt := group m_amt 1 in
          let norm :=
            MakeCaseDir.remove_char 44 (MakeCaseDir.remove_char 32 raw_amt) in
          bind (float norm) (λ amount_float,
          let amount_full :=
            replace_char 46 44
              (replace_char 44 32 (format_comma_2f amount_float)) in
          bind (int_of_float amount_float) (λ amount_int,
          Return (Extracted invoice_dt invoice_num amount_full amount_int)))
      end)))))
  end.

End WithUnicode.

End ExtractPdf.

(** ** [Google_add_string_Hv2-1.py]: [main] *)

Module AddStringMain.
Import Py Re MegaHelp.

(** The messages of [sys.exit]: "❌ Папка-кейс на Drive не найдена.",
    "❌ Invoice*.pdf не найден.", "❌ Ошибка парсинга Invoice: " *)
Definition NO_FOLDER : str :=
  [10060; 32; 1055; 1072; 1087; 1082; 1072; 45; 1082; 1077; 1081; 1089; 32;
   1085; 1072; 32] ++ lit "Drive"
  ++ [32; 1085; 1077; 32; 1085; 1072; 1081; 1076; 1077; 1085; 1072; 46].
Definition NO_INVOICE : str :=
  [10060; 32] ++ lit "Invoice*.pdf"
  ++ [32; 1085; 1077; 32; 1085; 1072; 1081; 1076; 1077; 1085; 46].
Definition PARSE_ERROR : str :=
  [10060; 32; 1054; 1096; 1080; 1073; 1082; 1072; 32; 1087; 1072; 1088; 1089;
   1080; 1085; 1075; 1072; 32] ++ lit "Invoice: ".

(** How [main] ends when no exception escapes it *)
Inductive ending :=
| Finished
| SysExit (msg : str).

(** [sub in s] for strings *)
Fixpoint infixb (sub s : str) : bool :=
  bool_decide (sub `prefix_of` s)
  || match s with
     | [] => false
     | _ :: s' => infixb sub s'
     end.

Section WithUnicode.
Context `{Unicode}.

(** [_clean_filename] and [download_pdf] are those of
    [Mega_Help_Scriptv2.py]; [find_first_pdf] is its [find_latest_pdf]
    without the order of the query; [find_case_folder] is the same. *)
Definition find_first_pdf := find_latest_pdf.

(** The [try] around [parse_invoice]: the text of the pages of the local
    file, then the parser; any exception ends the script. *)
Definition parse_or_exit (e : env) (inv_local : str)
    : M (str + Invoice.invoice) :=
  try_except
    (full_text ← call (EReadPdf inv_local) (pdf_text e inv_local);
     info ← lift (Invoice.parse_invoice full_text);
     mret (inr info))
    (λ ex, mret (inl (PARSE_ERROR ++ exn_msg ex))).

(** The local directory of the case: the first directory of the working
    directory whose name contains the number, or a new one *)
Definition target_dir_of (e : env) (dirs : list str) (invoice_num : Z)
    (info : Invoice.invoice) : M str :=
  match List.find (infixb (str_of_int invoice_num)) dirs with
  | Some p => mret p
  | None =>
      date_iso ← require (Invoice.date info);
      amount ← require (Invoice.amount info);
      name ← lift (AddString.create_case_dir date_iso amount invoice_num);
      call (EMkdir name) (fs_mkdir e name) ;;
      mret name
  end.

(** [main], once the number is read and the services are built; [dirs]
    are the directories of the working directory. *)
Definition main (e : env) (dirs : list str) (invoice_num : Z) : M ending :=
  let invoice_str_padded := format_08d invoice_num in
  folder ← find_case_folder e invoice_str_padded;
  match folder with
  | None | Some [] => mret (SysExit NO_FOLDER)
  | Some folder_id =>
      inv_meta ← find_first_pdf e folder_id (lit "Invoice");
      match inv_meta with
      | None => mret (SysExit NO_INVOICE)
      | Some im =>
          inv_local ← download_pdf e im
            (lit "Invoice " ++ str_of_int invoice_num ++ lit ".pdf");
          ga_meta ← find_first_pdf e folder_id (lit "Grant Agreement");
          ga_local ←
            match ga_meta with
            | Some gm => p ← download_pdf e gm (file_name gm); mret (Some p)
            | None => mret None
            end;
          parsed ← parse_or_exit e inv_local;
          match parsed with
          | inl msg => mret (SysExit msg)
          | inr info =>
              target_dir ← target_dir_of e dirs invoice_num info;
              (let dst := target_dir ++ [47] ++ inv_local in
               call (EMove inv_local dst) (fs_move e inv_local dst)) ;;
              match ga_local with
              | Some g =>
                  let dst := target_dir ++ [47] ++ g in
                  call (EMove g dst) (fs_move e g dst)
              | None => mret ()
              end ;;
              (let row :=
                 [opt_cell CStr (Invoice.date info); CStr []; CStr [];
                  CInt invoice_num;
                  opt_cell CStr (Invoice.case_descr info);
                  opt_cell CFloat (Invoice.amount info);
                  CStr []; CStr []; CStr []; CStr []; CStr [];
                  CStr MARKER] in
               call (EAppendRow row) (sheet_append e row)) ;;
              mret Finished
          end
      end
  end.

End WithUnicode.

Definition is_append (ev : option Z * event) : bool :=
  match ev.2 with
  | EAppendRow _ => true
  | _ => false
  end.

(** Since the trace was [t0], no row was appended. *)
Definition no_row_since (t0 : list (option Z * event)) (s : rstate) : Prop :=
  ∃ evs, trace s = t0 ++ evs ∧ Forall (λ ev, is_append ev = false) evs.

(** Since the trace was [t0], the appending of the row [values] was
    called once, as the last thing done. *)
Definition row_last_since (t0 : list (option Z * event))
    (values : list cell) (s : rstate) : Prop :=
  ∃ evs w, trace s = t0 ++ evs ++ [(w, EAppendRow values)]
    ∧ Forall (λ ev, is_append ev = false) evs.

End AddStringMain.

(** ** The amounts that the scripts read *)

Module AmountShape.

(** A float that is zero, positive or the positive infinity: neither
    negative nor a NaN *)
Definition not_negative (x : spec_float) : Prop :=
  match x with
  | S754_zero false | S754_finite false _ _ | S754_infinity false => True
  | _ => False
  end.

End AmountShape.

(** ** [Google_add_string_Hv2-1.py]: the local directory of the case *)

Module AddStringFolder.
Import Py Re MegaHelp AddStringMain.

(** A directory is made, and a file is moved, under a name that holds
    the number of the case; a moved file keeps its name. *)
Definition into_folder_of (n : Z) (ev : option Z * event) : Prop :=
  match ev.2 with
  | EMkdir name => infixb (str_of_int n) name = true
  | EMove src dst =>
      ∃ dir, dst = dir ++ [47] ++ src ∧ infixb (str_of_int n) dir = true
  | _ => True
  end.

(** Since the trace was [t0], directories and moves were those of [n]. *)
Definition moves_since (n : Z) (t0 : list (option Z * event)) (s : rstate)
    : Prop :=
  ∃ evs, trace s = t0 ++ evs ∧ Forall (into_folder_of n) evs.

End AddStringFolder.

(** ** [Mega_Help_Scriptv2.py]: the two files of the store may fail *)

Module MegaHelpStore.
Import Py Re MegaHelp.

(** What the file system answers where [process] reads and writes its two
    files, and what [int] answers on the number cell of a row. *)
Record store := Store {
  (** [pd.read_excel(CASES_XLSX)] in [ensure_cases_excel] *)
  read_excel : result unit;
  (** [json.load] in [load_seen] *)
  read_seen : result unit;
  (** [df.to_excel(CASES_XLSX)] *)
  write_excel : list row → result unit;
  (** [json.dump] into the file opened for writing *)
  write_seen : seen_data → result unit;
  (** [int(row["invoice_number"])]: the number of the row when its cell
      holds an integer, as in a table that the script wrote; an exception
      for a cell that was emptied or is no number *)
  number_cell : row → result Z;
}.

(** The files are read and written without failure, and the number cells
    hold integers. *)
Definition works (st : store) : Prop :=
  read_excel st = Return () ∧ read_seen st = Return ()
  ∧ (∀ df, write_excel st df = Return ())
  ∧ (∀ sd, write_seen st sd = Return ())
  ∧ (∀ r, number_cell st r = Return (r_invoice_number r)).

Section WithUnicode.
Context `{Unicode}.

(** A write that fails is not recorded: what it leaves of the file is not
    modelled, and no statement speaks of the files after such a run. *)
Definition save_cases_excel (st : store) : M unit :=
  df ← gets cases_df; lift (write_excel st df) ;; emit (ESaveExcel df).

Definition save_seen (st : store) : M unit :=
  sd ← gets seen; lift (write_seen st sd) ;; emit (ESaveSeen sd).

Definition ensure_cases_excel (st : store) (d : disk) : M (list row) :=
  match cases_xlsx d with
  | None => lift (write_excel st []) ;; emit (ESaveExcel []) ;; mret []
  | Some df => lift (read_excel st) ;; mret df
  end.

Definition load_seen (st : store) (d : disk) : M seen_data :=
  match seen_json d with
  | None => mret (SeenData [] ∅)
  | Some sd => lift (read_seen st) ;; mret sd
  end.

(** One turn of the second loop of [process]: the number is read before
    the [try], the files are written in the [finally]. *)
Definition process_row (st : store) (e : env) (ir : nat * row) : M unit :=
  let '(idx, r) := ir in
  if str_eqb (r_status r) READY then mret ()
  else
    invoice_number ← lift (number_cell st r);
    set_in_hand (Some invoice_number) ;;
    sd ← gets seen;
    set_flags (λ _, default new_flags (cases sd !! str_of_int invoice_number)) ;;
    try_finally
      (try_except (acquire_case e idx invoice_number)
         (λ ex,
            set_status idx invoice_number (ERROR_PREFIX ++ exn_msg ex)
              (TError (exn_msg ex)) ;;
            log (LCaseError invoice_number (exn_msg ex)) ;;
            set_flags (λ f, Flags (invoice_downloaded f) (grant_downloaded f)
                              (parsed f) (Some (exn_msg ex)))))
      (cf ← gets case_flags;
       set_seen (λ sd, SeenData (messages sd)
                         (<[str_of_int invoice_number := cf]> (cases sd))) ;;
       save_cases_excel st ;;
       save_seen st ;;
       set_in_hand None).

Definition load_files (st : store) (d : disk) : M unit :=
  df ← ensure_cases_excel st d;
  sd ← load_seen st d;
  set_df (λ _, df) ;;
  set_seen (λ _, sd) ;;
  set_seen_msgs (λ _, list_to_set (messages sd)).

Definition discover (st : store) (e : env) : M unit :=
  seen_ids ← gets seen_msgs;
  new_msgs ← try_except (search_new_messages e seen_ids)
                (λ ex, log (LGmailError (exn_msg ex)) ;; mret []);
  for_each note_message new_msgs ;;
  save_cases_excel st ;;
  sm ← gets seen_msgs;
  set_seen (λ sd, SeenData (elements sm) (cases sd)) ;;
  save_seen st.

Definition process_cases (st : store) (e : env) : M unit :=
  df ← gets cases_df;
  for_each (process_row st e) (imap pair df).

Definition process (st : store) (e : env) (d : disk) : M unit :=
  lift (load_parser e) ;;
  load_files st d ;;
  discover st e ;;
  lift (drive_auth e) ;;
  process_cases st e ;;
  send_telegram.

(** One run of the script: how it ends, what it did, the files it
    leaves *)
Definition run (st : store) (e : env) (d : disk)
    : result unit * list (option Z * event) * disk :=
  let '(r, s) := process st e d init_state in
  (r, trace s, disk_after d (trace s)).

End WithUnicode.

(** Two computations that do the same from every state *)
Definition same {A} (m m' : M A) : Prop := ∀ s, m s = m' s.

(** [m] raises, from every state. *)
Definition raises {A} (m : M A) : Prop := ∀ s, ∃ ex, (m s).1 = Raise ex.

(** A store that works *)
Definition sound_store : store :=
  Store (Return ()) (Return ()) (λ _, Return ()) (λ _, Return ())
    (λ r, Return (r_invoice_number r)).

(** Services that know the folder of the case 12345 only *)
Definition one_folder : env :=
  Env (Return ()) (Return []) (λ _, Raise (ExternalError []))
    (Return ())
    (λ padded, if bool_decide (padded = format_08d 12345)
               then Return [[70; 49]] else Return [])
    (λ _, Return []) (λ _ _, Return ()) (λ _, Raise (ExternalError []))
    (λ _, Return ()) (λ _ _, Return ()) (λ _, Return ()).

End MegaHelpStore.

(** * Properties *)

(** ** The matcher finds what the pattern allows *)

Module ReFacts.
Import Py Re.

Lemma last_of_cons pv c w : last_of pv (c :: w) = last_of (Some c) w.
Proof.
  unfold last_of. destruct w as [|d w]; [reflexivity|].
  rewrite last_cons. destruct (last (d :: w)) eqn:E; [reflexivity|].
  apply last_None in E. discriminate.
Qed.

Lemma last_of_app pv w1 w2 :
  last_of pv (w1 ++ w2) = last_of (last_of pv w1) w2.
Proof.
  revert pv. induction w1 as [|c w1 IH]; intros pv; [reflexivity|].
  simpl. rewrite !last_of_cons. apply IH.
Qed.

Lemma take_app_minus (w nx : str) :
  take (length (w ++ nx) - length nx) (w ++ nx) = w.
Proof.
  rewrite length_app. replace (length w + length nx - length nx)%nat
    with (length w) by lia.
  apply take_app_length.
Qed.

Section WithUnicode.
Context `{Unicode}.

Lemma hi_open_bound hi (w : str) :
  hi_open hi = true →
  (∀ h, pred <$> hi = Some h → (length w ≤ h)%nat) →
  ∀ h, hi = Some h → (S (length w) ≤ h)%nat.
Proof.
  intros Ho Hb h ->. destruct h as [|h]; [discriminate|].
  specialize (Hb h eq_refl). lia.
Qed.

Lemma rep_greedy_sound {A} p s : ∀ lo hi pv (k : option Z → str → option A) a,
  rep_greedy p lo hi pv s k = Some a →
  ∃ w s', s = w ++ s' ∧ Forall (λ c, p c = true) w ∧ (lo ≤ length w)%nat
    ∧ (∀ h, hi = Some h → (length w ≤ h)%nat)
    ∧ k (last_of pv w) s' = Some a.
Proof.
  assert (Hstop : ∀ lo hi pv (k : option Z → str → option A) a s0,
    match lo with O => k pv s0 | S _ => None end = Some a →
    ∃ w s', s0 = w ++ s' ∧ Forall (λ c, p c = true) w ∧ (lo ≤ length w)%nat
      ∧ (∀ h, hi = Some h → (length w ≤ h)%nat)
      ∧ k (last_of pv w) s' = Some a).
  { intros lo hi pv k a s0 Hk. destruct lo; [|discriminate].
    exists [], s0. repeat split; auto; simpl; intros; lia. }
  induction s as [|c s IH]; intros lo hi pv k a Hr; simpl in Hr.
  - eauto.
  - destruct (p c && hi_open hi) eqn:E; [|eauto].
    apply andb_true_iff in E as [Hp Ho].
    destruct (rep_greedy p (pred lo) (pred <$> hi) (Some c) s k) eqn:R;
      [|eauto].
    injection Hr as ->.
    apply IH in R as (w & s' & -> & Hw & Hlo & Hhi & Hk).
    exists (c :: w), s'. rewrite last_of_cons.
    repeat split; auto; simpl; [lia|].
    apply hi_open_bound; assumption.
Qed.

Lemma rep_lazy_sound {A} p s : ∀ lo hi pv (k : option Z → str → option A) a,
  rep_lazy p lo hi pv s k = Some a →
  ∃ w s', s = w ++ s' ∧ Forall (λ c, p c = true) w ∧ (lo ≤ length w)%nat
    ∧ (∀ h, hi = Some h → (length w ≤ h)%nat)
    ∧ k (last_of pv w) s' = Some a.
Proof.
  induction s as [|c s IH]; intros lo hi pv k a Hr.
  - destruct lo; simpl in Hr; [|discriminate].
    destruct (k pv []) eqn:Hk; [|discriminate]. injection Hr as ->.
    exists [], []. repeat split; auto; simpl; intros; lia.
  - assert (Hmore : ∀ lo',
      (lo ≤ S lo')%nat →
      (if p c && hi_open hi then rep_lazy p lo' (pred <$> hi) (Some c) s k
       else None) = Some a →
      ∃ w s', c :: s = w ++ s' ∧ Forall (λ c, p c = true) w
        ∧ (lo ≤ length w)%nat
        ∧ (∀ h, hi = Some h → (length w ≤ h)%nat)
        ∧ k (last_of pv w) s' = Some a).
    { intros lo' Hl Hm.
      destruct (p c && hi_open hi) eqn:E; [|discriminate].
      apply andb_true_iff in E as [Hp Ho].
      apply IH in Hm as (w & s' & -> & Hw & Hlo & Hhi & Hk).
      exists (c :: w), s'. rewrite last_of_cons.
      repeat split; auto; simpl; [lia|].
      apply hi_open_bound; assumption. }
    destruct lo as [|lo]; simpl in Hr.
    + destruct (k pv (c :: s)) eqn:Hk.
      * injection Hr as ->. exists [], (c :: s).
        repeat split; auto; simpl; intros; lia.
      * apply (Hmore O); [lia | exact Hr].
    + apply (Hmore lo); [lia | exact Hr].
Qed.

Lemma rep_sound {A} g p s lo hi pv (k : option Z → str → option A) a :
  rep g p lo hi pv s k = Some a →
  ∃ w s', s = w ++ s' ∧ Forall (λ c, p c = true) w ∧ (lo ≤ length w)%nat
    ∧ (∀ h, hi = Some h → (length w ≤ h)%nat)
    ∧ k (last_of pv w) s' = Some a.
Proof. destruct g; [apply rep_greedy_sound | apply rep_lazy_sound]. Qed.

Lemma exec_sound {A} r : ∀ st (k : mstate → option A) a,
  exec r st k = Some a →
  ∃ w st', rest st = w ++ rest st' ∧ prev st' = last_of (prev st) w
    ∧ matches r (prev st) w (rest st') (caps st) (caps st')
    ∧ k st' = Some a.
Proof.
  induction r as [cs|r1 IH1 r2 IH2|r IH|g cs lo hi|n r IH| |];
    intros st k a He; simpl in He.
  - destruct (rest st) as [|c s'] eqn:Hs; [discriminate|].
    destruct (cset_mem cs c) eqn:Hc; [|discriminate].
    exists [c], (MState (Some c) s' (caps st)); simpl.
    repeat split; auto. by constructor.
  - apply IH1 in He as (w1 & st1 & Hs1 & Hp1 & Hm1 & He).
    apply IH2 in He as (w2 & st2 & Hs2 & Hp2 & Hm2 & He).
    exists (w1 ++ w2), st2. rewrite Hs1, Hs2, last_of_app, <- Hp1, app_assoc.
    repeat split; auto. econstructor; [|rewrite <- Hp1; eassumption].
    rewrite <- Hs2. assumption.
  - destruct (exec r st k) eqn:E.
    + injection He as ->. apply IH in E as (w & st' & ? & ? & ? & ?).
      exists w, st'. repeat split; auto. by constructor.
    + exists [], st. repeat split; auto. apply M_opt_none.
  - apply rep_sound in He as (w & s' & Hs & Hw & Hlo & Hhi & Hk).
    exists w, (MState (last_of (prev st) w) s' (caps st)); simpl.
    repeat split; auto. by constructor.
  - apply IH in He as (w & st' & Hs & Hp & Hm & Hk).
    eexists w, (MState (prev st') (rest st') _); simpl.
    repeat split; eauto.
    unfold consumed. rewrite Hs, take_app_minus. by constructor.
  - destruct (word_boundary (prev st) (rest st)) eqn:Hb; [|discriminate].
    exists [], st. repeat split; auto. by constructor.
  - exists [], st. repeat split; auto. constructor.
Qed.

Lemma rep_greedy_complete {A} p w : ∀ lo hi pv nx
    (k : option Z → str → option A),
  Forall (λ c, p c = true) w → (lo ≤ length w)%nat →
  (∀ h, hi = Some h → (length w ≤ h)%nat) →
  k (last_of pv w) nx ≠ None →
  rep_greedy p lo hi pv (w ++ nx) k ≠ None.
Proof.
  induction w as [|c w IH]; intros lo hi pv nx k Hw Hlo Hhi Hk.
  - simpl in Hlo. assert (lo = O) as -> by lia. simpl.
    destruct nx as [|c nx]; simpl; [exact Hk|].
    destruct (p c && hi_open hi); [|exact Hk].
    destruct (rep_greedy p _ _ _ nx k); [discriminate | exact Hk].
  - apply Forall_cons in Hw as [Hc Hw]. simpl. rewrite Hc. simpl.
    replace (hi_open hi) with true.
    2:{ destruct hi as [[|h]|]; try reflexivity.
        specialize (Hhi O eq_refl). simpl in Hhi. lia. }
    rewrite last_of_cons in Hk.
    specialize (IH (pred lo) (pred <$> hi) (Some c) nx k Hw).
    destruct (rep_greedy p (pred lo) (pred <$> hi) (Some c) (w ++ nx) k);
      [discriminate|].
    exfalso. apply IH; auto.
    + simpl in Hlo. lia.
    + intros h Hh. destruct hi as [h'|]; [|discriminate].
      injection Hh as <-. specialize (Hhi h' eq_refl). simpl in Hhi. lia.
Qed.

Lemma rep_lazy_complete {A} p w : ∀ lo hi pv nx
    (k : option Z → str → option A),
  Forall (λ c, p c = true) w → (lo ≤ length w)%nat →
  (∀ h, hi = Some h → (length w ≤ h)%nat) →
  k (last_of pv w) nx ≠ None →
  rep_lazy p lo hi pv (w ++ nx) k ≠ None.
Proof.
  induction w as [|c w IH]; intros lo hi pv nx k Hw Hlo Hhi Hk.
  - simpl in Hlo. assert (lo = O) as -> by lia. simpl.
    unfold last_of in Hk; simpl in Hk.
    destruct nx; simpl; destruct (k pv _); congruence.
  - apply Forall_cons in Hw as [Hc Hw].
    assert (Ho : hi_open hi = true).
    { destruct hi as [[|h]|]; try reflexivity.
      specialize (Hhi O eq_refl). simpl in Hhi. lia. }
    rewrite last_of_cons in Hk.
    assert (Hrec : ∀ lo', (lo' ≤ length w)%nat →
      rep_lazy p lo' (pred <$> hi) (Some c) (w ++ nx) k ≠ None).
    { intros lo' Hl. apply IH; auto.
      intros h Hh. destruct hi as [h'|]; [|discriminate].
      injection Hh as <-. specialize (Hhi h' eq_refl). simpl in Hhi. lia. }
    destruct lo as [|lo]; simpl; rewrite Hc, Ho; simpl.
    + destruct (k pv (c :: w ++ nx)); [discriminate|]. apply Hrec. lia.
    + apply Hrec. simpl in Hlo. lia.
Qed.

Lemma exec_complete {A} r pv w nx c c' :
  matches r pv w nx c c' →
  ∀ k : mstate → option A,
  k (MState (last_of pv w) nx c') ≠ None →
  exec r (MState pv (w ++ nx) c) k ≠ None.
Proof.
  induction 1 as [cs pv ch nx c Hc|r1 r2 pv w1 w2 nx c c1 c2 _ IH1 _ IH2
    |r pv w nx c c1 _ IH|r pv nx c|g cs lo hi pv w nx c Hw Hlo Hhi
    |n r pv w nx c c1 _ IH|pv nx c Hb|pv nx c]; intros k Hk; simpl.
  - rewrite Hc. exact Hk.
  - rewrite <- app_assoc. apply IH1. apply IH2.
    rewrite <- last_of_app. exact Hk.
  - specialize (IH k Hk). destruct (exec r _ k); congruence.
  - destruct (exec r _ k); [discriminate | exact Hk].
  - destruct g; [apply rep_greedy_complete | apply rep_lazy_complete]; auto.
  - apply IH. unfold consumed; simpl. rewrite take_app_minus. exact Hk.
  - rewrite Hb. exact Hk.
  - exact Hk.
Qed.

(** [match_at] answers exactly when the pattern matches a prefix. *)
Lemma match_at_sound r pv s st :
  match_at r pv s = Some st →
  ∃ w, s = w ++ rest st ∧ matches r pv w (rest st) ∅ (caps st).
Proof.
  intros (w & st' & Hs & _ & Hm & [= ->])%exec_sound. eauto.
Qed.

Lemma match_at_complete r pv w nx c :
  matches r pv w nx ∅ c → match_at r pv (w ++ nx) ≠ None.
Proof. intros Hm. eapply exec_complete; [exact Hm | discriminate]. Qed.

Lemma search_from_eq r pv s pos :
  search_from r pv s pos =
  match match_at r pv s with
  | Some st =>
      Some (MatchObj pos (take (length s - length (rest st)) s) (caps st))
  | None =>
      match s with
      | [] => None
      | c :: s' => search_from r (Some c) s' (S pos)
      end
  end.
Proof. destruct s; reflexivity. Qed.

Lemma search_from_here r pv s st :
  match_at r pv s = Some st →
  ∃ nx, s = take (length s - length (rest st)) s ++ nx
    ∧ matches r pv (take (length s - length (rest st)) s) nx ∅ (caps st).
Proof.
  intros (w & -> & Hm)%match_at_sound. rewrite take_app_minus. eauto.
Qed.

Lemma search_from_some r : ∀ s pv pos m,
  search_from r pv s pos = Some m →
  ∃ pre nx, s = pre ++ m_group0 m ++ nx
    ∧ m_start m = (pos + length pre)%nat
    ∧ matches r (last_of pv pre) (m_group0 m) nx ∅ (m_groups m)
    ∧ ∀ pre' s', s = pre' ++ s' → (length pre' < length pre)%nat →
        match_at r (last_of pv pre') s' = None.
Proof.
  induction s as [|ch s IH]; intros pv pos m Hs;
    rewrite search_from_eq in Hs;
    destruct (match_at r pv _) as [st|] eqn:E; try discriminate.
  1,2: injection Hs as <-; cbn [m_group0 m_start m_groups];
    apply search_from_here in E as (nx & Hw & Hm);
    exists [], nx; (split; [exact Hw|]); (split; [simpl; lia|]);
    (split; [exact Hm|]); simpl; intros; lia.
  apply IH in Hs as (pre & nx & Hs & Hst & Hm & Hleft).
  exists (ch :: pre), nx. rewrite last_of_cons.
  repeat split; auto; [simpl; congruence | simpl; lia|].
  intros pre' s' Hsp Hl. destruct pre' as [|ch' pre'].
  - simpl in Hsp. subst s'. exact E.
  - simpl in Hsp. injection Hsp as <- ->. rewrite last_of_cons.
    apply Hleft; [reflexivity | simpl in Hl; lia].
Qed.

Lemma search_from_none r : ∀ s pv pos,
  search_from r pv s pos = None →
  ∀ pre s', s = pre ++ s' → match_at r (last_of pv pre) s' = None.
Proof.
  induction s as [|ch s IH]; intros pv pos Hs pre s' Hsp; simpl in Hs.
  - destruct (match_at r pv []) eqn:E; [discriminate|].
    symmetry in Hsp. apply app_eq_nil in Hsp as [-> ->]. exact E.
  - destruct (match_at r pv (ch :: s)) eqn:E; [discriminate|].
    destruct pre as [|ch' pre]; simpl in Hsp.
    + subst s'. exact E.
    + injection Hsp as <- ->. rewrite last_of_cons. eapply IH; eauto.
Qed.

Lemma search_from_find r : ∀ pre pv pos s',
  match_at r (last_of pv pre) s' ≠ None →
  ∃ m, search_from r pv (pre ++ s') pos = Some m
       ∧ (m_start m ≤ pos + length pre)%nat.
Proof.
  induction pre as [|ch pre IH]; intros pv pos s' Hm.
  - simpl. unfold last_of in Hm; simpl in Hm.
    destruct s'; simpl; destruct (match_at r pv _); try congruence;
      eexists; split; eauto; simpl; lia.
  - simpl. destruct (match_at r pv (ch :: pre ++ s')).
    + eexists; split; eauto; simpl; lia.
    + rewrite last_of_cons in Hm.
      destruct (IH (Some ch) (S pos) s' Hm) as (m & -> & Hl).
      eexists; split; eauto. lia.
Qed.

(** [search] returns the match at the first position that has one. *)
Lemma search_some r text m :
  search r text = Some m →
  ∃ pre nx, text = pre ++ m_group0 m ++ nx
    ∧ m_start m = length pre
    ∧ matches r (last_of None pre) (m_group0 m) nx ∅ (m_groups m)
    ∧ ∀ pre', (length pre' < length pre)%nat → ¬ matches_at r text pre'.
Proof.
  intros (pre & nx & Ht & Hst & Hm & Hleft)%search_from_some.
  exists pre, nx. repeat split; auto.
  intros pre' Hl (w & nx' & c & Ht' & Hm').
  apply match_at_complete in Hm'. apply Hm'. apply Hleft; auto.
Qed.

Lemma search_none r text :
  search r text = None ↔ ∀ pre, ¬ matches_at r text pre.
Proof.
  split.
  - intros Hs pre (w & nx & c & Ht & Hm).
    apply match_at_complete in Hm. apply Hm.
    eapply search_from_none; eauto.
  - intros Hno. destruct (search r text) as [m|] eqn:E; [|reflexivity].
    apply search_some in E as (pre & nx & Ht & _ & Hm & _).
    exfalso. apply (Hno pre). exists (m_group0 m), nx, (m_groups m). auto.
Qed.

Lemma search_complete r text pre :
  matches_at r text pre →
  ∃ m, search r text = Some m ∧ (m_start m ≤ length pre)%nat.
Proof.
  intros (w & nx & c & -> & Hm). apply match_at_complete in Hm.
  destruct (search_from_find r pre None 0 (w ++ nx) Hm) as (m & Hs & Hl).
  exists m. split; [exact Hs | exact Hl].
Qed.

(** *** The order of the attempts *)

Lemma rep_greedy_first {A} p (w : str) : ∀ lo pv s'
    (k : option Z → str → option A) a,
  Forall (λ c, p c = true) w →
  (∀ c, head s' = Some c → p c = false) →
  (lo ≤ length w)%nat →
  k (last_of pv w) s' = Some a →
  rep_greedy p lo None pv (w ++ s') k = Some a.
Proof.
  induction w as [|c w IH]; intros lo pv s' k a Hw Hs Hlo Hk.
  - simpl in Hlo. assert (lo = O) as -> by lia.
    destruct s' as [|c s']; simpl; [exact Hk|].
    rewrite (Hs c eq_refl). simpl. exact Hk.
  - apply Forall_cons in Hw as [Hc Hw]. simpl. rewrite Hc. simpl.
    rewrite last_of_cons in Hk.
    rewrite (IH (pred lo) (Some c) s' k a); auto. simpl in Hlo. lia.
Qed.

Lemma rep_lazy_first {A} p (w : str) : ∀ lo pv s'
    (k : option Z → str → option A) a,
  Forall (λ c, p c = true) w →
  (lo ≤ length w)%nat →
  (∀ w1 w2, w = w1 ++ w2 → w2 ≠ [] → (lo ≤ length w1)%nat →
     k (last_of pv w1) (w2 ++ s') = None) →
  k (last_of pv w) s' = Some a →
  rep_lazy p lo None pv (w ++ s') k = Some a.
Proof.
  induction w as [|c w IH]; intros lo pv s' k a Hw Hlo Hno Hk.
  - simpl in Hlo. assert (lo = O) as -> by lia.
    unfold last_of in Hk; simpl in Hk.
    destruct s'; simpl; by rewrite Hk.
  - apply Forall_cons in Hw as [Hc Hw]. rewrite last_of_cons in Hk.
    assert (Hrec : ∀ lo', (lo' ≤ length w)%nat → (lo ≤ S lo')%nat →
      rep_lazy p lo' None (Some c) (w ++ s') k = Some a).
    { intros lo' Hl Hl'. apply IH; auto.
      intros w1 w2 -> Hw2 Hl1. rewrite <- (last_of_cons pv).
      apply (Hno (c :: w1) w2); auto. simpl. lia. }
    destruct lo as [|lo]; simpl; rewrite Hc; simpl.
    + assert (Hnone : k pv (c :: w ++ s') = None)
        by (apply (Hno [] (c :: w)); [reflexivity | discriminate | simpl; lia]).
      rewrite Hnone. apply Hrec; lia.
    + apply Hrec; simpl in Hlo; lia.
Qed.

Lemma exec_seq_of_cons {A} r rs st (k : mstate → option A) :
  exec (seq_of (r :: rs)) st k = exec r st (λ st1, exec (seq_of rs) st1 k).
Proof. destruct rs; reflexivity. Qed.

Lemma exec_chars_i {A} (l w : str) : ∀ pv s c (k : mstate → option A),
  Forall2 (λ pc ch, casefold_eq pc ch = true) l w →
  exec (seq_of ((λ ch, RSet (CCharI ch)) <$> l)) (MState pv (w ++ s) c) k
  = k (MState (last_of pv w) s c).
Proof.
  intros pv s c k Hf. revert pv.
  induction Hf as [|x ch l w Hc _ IH]; intros pv; [reflexivity|].
  rewrite fmap_cons, exec_seq_of_cons. simpl. rewrite Hc.
  rewrite IH, last_of_cons. reflexivity.
Qed.

Lemma search_from_first r : ∀ pre pv pos s st,
  match_at r (last_of pv pre) s = Some st →
  (∀ pre1 s1, pre ++ s = pre1 ++ s1 → (length pre1 < length pre)%nat →
     match_at r (last_of pv pre1) s1 = None) →
  search_from r pv (pre ++ s) pos
  = Some (MatchObj (pos + length pre)
            (take (length s - length (rest st)) s) (caps st)).
Proof.
  induction pre as [|ch pre IH]; intros pv pos s st Hm Hno.
  - rewrite search_from_eq. simpl. unfold last_of in Hm; simpl in Hm.
    rewrite Hm. do 2 f_equal; simpl; lia.
  - rewrite search_from_eq.
    assert (Hnone : match_at r pv (ch :: pre ++ s) = None)
      by (apply (Hno [] (ch :: pre ++ s)); [reflexivity | simpl; lia]).
    simpl. rewrite Hnone. rewrite last_of_cons in Hm.
    rewrite (IH (Some ch) (S pos) s st Hm).
    + do 2 f_equal; simpl; lia.
    + intros pre1 s1 He Hl. rewrite <- (last_of_cons pv).
      apply Hno; [simpl; by rewrite He | simpl; lia].
Qed.

(** When no earlier position has a match, [search] returns what the matcher
    finds at this one. *)
Lemma search_first_match r text pre s st :
  text = pre ++ s →
  match_at r (last_of None pre) s = Some st →
  (∀ pre', (length pre' < length pre)%nat → ¬ matches_at r text pre') →
  search r text
  = Some (MatchObj (length pre) (take (length s - length (rest st)) s)
            (caps st)).
Proof.
  intros -> Hm Hno. unfold search.
  rewrite (search_from_first r pre None 0 s st Hm); [reflexivity|].
  intros pre1 s1 He Hl.
  destruct (match_at r (last_of None pre1) s1) as [st1|] eqn:E;
    [|reflexivity].
  exfalso. apply (Hno pre1 Hl).
  apply match_at_sound in E as (w & -> & Hw).
  exists w, (rest st1), (caps st1). split; [exact He | exact Hw].
Qed.

End WithUnicode.

End ReFacts.

(** ** The patterns of [parser_Invoicev2.py] *)

Module InvoiceFacts.
Import Py Re ReFacts Invoice Shape.

Ltac inv_matches :=
  repeat match goal with
  | H : matches (RSeq _ _) _ _ _ _ _ |- _ => inversion H; subst; clear H
  | H : matches (RSet _) _ _ _ _ _ |- _ => inversion H; subst; clear H
  | H : matches (RGroup _ _) _ _ _ _ _ |- _ => inversion H; subst; clear H
  | H : matches (RRep _ _ _ _) _ _ _ _ _ |- _ => inversion H; subst; clear H
  | H : matches RWordB _ _ _ _ _ |- _ => inversion H; subst; clear H
  | H : matches REps _ _ _ _ _ |- _ => inversion H; subst; clear H
  | H : matches (ROpt _) _ _ _ _ _ |- _ => inversion H; subst; clear H
  end.

(** Evaluation on an ASCII text, whatever the tables say elsewhere *)
Ltac lits :=
  repeat match goal with
  | |- context [lit ?s] =>
      let v := eval vm_compute in (lit s) in change (lit s) with v
  end.

Ltac tables :=
  repeat first
    [ rewrite isdigit_ascii by lia
    | rewrite isspace_ascii by lia
    | rewrite isword_ascii by lia
    | rewrite digit_value_ascii by lia
    | rewrite casefold_eq_ascii by lia ].

Ltac arith :=
  cbv [Z.add Z.sub Z.mul Z.opp Z.eqb Z.leb Z.ltb Z.compare Z.pos_sub
       Z.double Z.succ_double Z.pred_double Pos.add Pos.add_carry Pos.succ
       Pos.mul Pos.compare Pos.compare_cont Pos.pred_double Pos.eqb
       andb orb negb xorb word_boundary opt_word head].

Ltac py_eval := lits; repeat (progress (cbn; arith; tables)).

Section WithUnicode.
Context `{Unicode}.

Lemma cset_mem_char p c : cset_mem (CChar p) c = true → c = p.
Proof. unfold cset_mem. lia. Qed.

Lemma date_matches_inv pv w nx c :
  matches _RE_DATE pv w nx ∅ c →
  ∃ mm dd yyyy, w = mm ++ [47] ++ dd ++ [47] ++ yyyy
    ∧ digits mm ∧ (1 ≤ length mm ≤ 2)%nat
    ∧ digits dd ∧ (1 ≤ length dd ≤ 2)%nat
    ∧ digits yyyy ∧ length yyyy = 4%nat
    ∧ c !! 1%nat = Some mm ∧ c !! 2%nat = Some dd ∧ c !! 3%nat = Some yyyy.
Proof.
  unfold _RE_DATE, seq_of. intros Hm. inv_matches.
  repeat match goal with
  | H : cset_mem (CChar _) _ = true |- _ =>
      apply cset_mem_char in H; subst
  | H : ∀ h, Some _ = Some h → _ |- _ => specialize (H _ eq_refl)
  end.
  do 3 eexists. split; [reflexivity|].
  repeat split; try assumption; try lia.
  all: by simplify_map_eq.
Qed.

Lemma date_matches_intro pv mm dd yyyy nx :
  digits mm → (1 ≤ length mm ≤ 2)%nat →
  digits dd → (1 ≤ length dd ≤ 2)%nat →
  digits yyyy → length yyyy = 4%nat →
  matches _RE_DATE pv (mm ++ [47] ++ dd ++ [47] ++ yyyy) nx ∅
    (<[3%nat := yyyy]> (<[2%nat := dd]> (<[1%nat := mm]> ∅))).
Proof.
  intros Hm Hlm Hd Hld Hy Hly. unfold _RE_DATE, seq_of.
  repeat first
    [ eapply M_seq | eapply M_group | eapply M_set; reflexivity
    | eapply M_rep; [assumption | lia | intros ? [= <-]; lia] ].
Qed.

Lemma date_at_matches text pre mm dd yyyy :
  date_at text pre mm dd yyyy → matches_at _RE_DATE text pre.
Proof.
  intros (post & -> & Hm & Hlm & Hd & Hld & Hy & Hly).
  exists (mm ++ [47] ++ dd ++ [47] ++ yyyy), post. eexists. split.
  - by rewrite <- !app_assoc.
  - by apply date_matches_intro.
Qed.

Lemma digits_then_unique (w w' : str) c r r' :
  digits w → digits w' → isdigit c = false →
  w ++ c :: r = w' ++ c :: r' → w = w' ∧ r = r'.
Proof.
  intros Hw. revert w'. induction Hw as [|d w Hd Hw IH]; intros w' Hw' Hc He.
  - destruct Hw' as [|d' w' Hd' _]; simpl in He.
    + injection He as ->. auto.
    + injection He as <- _. congruence.
  - destruct Hw' as [|d' w' Hd' Hw']; simpl in He.
    + injection He as -> _. congruence.
    + injection He as -> He. destruct (IH w' Hw' Hc He) as [-> ->]. auto.
Qed.

Lemma slash_not_digit : isdigit 47 = false.
Proof. rewrite isdigit_ascii by lia. reflexivity. Qed.

(** At one position the date is read in one way only. *)
Lemma date_at_unique text pre mm dd yyyy pre' mm' dd' yyyy' :
  date_at text pre mm dd yyyy → date_at text pre' mm' dd' yyyy' →
  length pre = length pre' →
  mm = mm' ∧ dd = dd' ∧ yyyy = yyyy'.
Proof.
  intros (post & -> & Hm & _ & Hd & _ & _ & Hly)
         (post' & He & Hm' & _ & Hd' & _ & _ & Hly') Hl.
  apply app_inj_1 in He as [_ He]; [|exact Hl].
  apply digits_then_unique in He as [-> He];
    auto using slash_not_digit.
  apply digits_then_unique in He as [-> He];
    auto using slash_not_digit.
  apply app_inj_1 in He as [-> _]; [auto | congruence].
Qed.

Lemma int_digits (s : str) :
  digits s → s ≠ [] → int s = Return (int_of_digits s).
Proof.
  intros Hd Hn. unfold int.
  rewrite bool_decide_eq_false_2 by exact Hn. simpl.
  replace (forallb isdigit s) with true; [reflexivity|].
  symmetry. apply forallb_forall. intros c Hc.
  unfold digits in Hd. rewrite Forall_forall in Hd.
  apply Hd. by apply list_elem_of_In.
Qed.

Lemma nonempty_of_length (s : str) n : (S n ≤ length s)%nat → s ≠ [].
Proof. intros Hl ->. simpl in Hl. lia. Qed.

(** What [search] finds for the date pattern is the first date. *)
Lemma search_date text m :
  search _RE_DATE text = Some m →
  first_date text (group m 1) (group m 2) (group m 3).
Proof.
  intros (pre & nx & Ht & Hst & Hm & Hleft)%search_some.
  apply date_matches_inv in Hm
    as (mm & dd & yyyy & Hw & Hdm & Hlm & Hdd & Hld & Hdy & Hly & H1 & H2 & H3).
  unfold group. rewrite H1, H2, H3. simpl.
  exists pre. split.
  - exists nx. rewrite Ht, Hw, <- !app_assoc. auto 10.
  - intros pre' mm' dd' yyyy' Hat.
    destruct (decide (length pre' < length pre)%nat) as [Hlt|]; [|lia].
    exfalso. eapply Hleft; [exact Hlt|]. eapply date_at_matches; eauto.
Qed.

Lemma first_date_unique text mm dd yyyy mm' dd' yyyy' :
  first_date text mm dd yyyy → first_date text mm' dd' yyyy' →
  mm = mm' ∧ dd = dd' ∧ yyyy = yyyy'.
Proof.
  intros (pre & Hat & Hmin) (pre' & Hat' & Hmin').
  eapply date_at_unique; eauto.
  specialize (Hmin _ _ _ _ Hat'). specialize (Hmin' _ _ _ _ Hat). lia.
Qed.

Lemma find_date_first text mm dd yyyy :
  first_date text mm dd yyyy →
  find_date text = Return (date_of_triple mm dd yyyy).
Proof.
  intros Hf. unfold find_date.
  destruct (search _RE_DATE text) as [m|] eqn:Hs.
  - apply search_date in Hs.
    destruct (first_date_unique _ _ _ _ _ _ _ Hs Hf) as (-> & -> & ->).
    destruct Hf as (pre & (post & _ & Hm & Hlm & Hd & Hld & Hy & Hly) & _).
    rewrite !int_digits; try assumption;
      try (apply (nonempty_of_length _ O); lia).
    simpl. unfold datetime, date_of_triple.
    destruct (valid_date _ _ _); reflexivity.
  - exfalso. destruct Hf as (pre & Hat & _).
    rewrite search_none in Hs. eapply Hs, date_at_matches, Hat.
Qed.

Lemma find_date_none text :
  (∀ pre mm dd yyyy, ¬ date_at text pre mm dd yyyy) →
  find_date text = Return None.
Proof.
  intros Hno. unfold find_date.
  destruct (search _RE_DATE text) as [m|] eqn:Hs; [|reflexivity].
  apply search_date in Hs as (pre & Hat & _). exfalso. eapply Hno, Hat.
Qed.

Lemma find_date_returns text : ∃ d, find_date text = Return d.
Proof.
  destruct (search _RE_DATE text) as [m|] eqn:Hs.
  - apply search_date in Hs. eexists. apply find_date_first, Hs.
  - exists None. unfold find_date. by rewrite Hs.
Qed.

Lemma float_returns_or_value_error (s : str) :
  (∃ x, float s = Return x) ∨ (∃ msg, float s = Raise (ValueError msg)).
Proof.
  unfold float. destruct (drop _ _) as [|c fp].
  - destruct (bool_decide _); eauto.
  - destruct (_ && _); eauto.
Qed.

Lemma normalize_amount_returns g : ∃ a, normalize_amount g = Return a.
Proof.
  unfold normalize_amount.
  destruct (float_returns_or_value_error (sub_set _RE_NON_DIGIT_DOT [] g))
    as [[x ->]|[msg ->]]; eauto.
Qed.

Lemma find_amount_returns text : ∃ a, find_amount text = Return a.
Proof.
  unfold find_amount. destruct (amount_match text); eauto.
  apply normalize_amount_returns.
Qed.

Lemma parse_invoice_eq text d a :
  find_date text = Return d → find_amount text = Return a →
  parse_invoice text =
  let r := Invoice (find_invoice_number text) d a (_find_case_descr text) in
  match missing_fields r with
  | [] => Return r
  | _ :: _ => Raise (ValueError (missing_message (missing_fields r)))
  end.
Proof.
  intros Hd Ha. unfold parse_invoice. rewrite Hd, Ha. simpl.
  destruct (missing_fields _); reflexivity.
Qed.

Lemma str_missing_located v : str_missing v = false ↔ located v.
Proof.
  unfold located. destruct v as [[|c s]|]; simpl; split;
    try discriminate; try (intros (s' & [= <-] & Hs); congruence);
    try (intros (s' & [=] & _)); eauto.
Qed.

Lemma str_missing_not_located v : str_missing v = true ↔ ¬ located v.
Proof.
  rewrite <- str_missing_located. destruct (str_missing v); split; congruence.
Qed.

Lemma elem_of_if_singleton (b : bool) (n x : str) :
  x ∈ (if b then [n] else []) ↔ x = n ∧ b = true.
Proof.
  destruct b.
  - rewrite list_elem_of_singleton. tauto.
  - rewrite elem_of_nil. split; [tauto | intros [_ [=]]].
Qed.

Lemma elem_of_missing_fields r x :
  x ∈ missing_fields r ↔
    (x = lit "invoice_number" ∧ ¬ located (invoice_number r))
    ∨ (x = lit "date" ∧ ¬ located (date r))
    ∨ (x = lit "amount" ∧ amount r = None)
    ∨ (x = lit "case_descr" ∧ ¬ located (case_descr r)).
Proof.
  unfold missing_fields.
  rewrite !elem_of_app, !elem_of_if_singleton, !str_missing_not_located.
  assert (float_missing (amount r) = true ↔ amount r = None) as ->
    by (destruct (amount r); simpl; split; congruence).
  tauto.
Qed.

Lemma float_missing_is_Some v : float_missing v = false ↔ is_Some v.
Proof.
  destruct v; simpl; split; try discriminate; eauto.
  intros [? [=]].
Qed.

Lemma missing_fields_nil r :
  missing_fields r = [] ↔
    located (invoice_number r) ∧ located (date r) ∧ is_Some (amount r)
    ∧ located (case_descr r).
Proof.
  rewrite <- !str_missing_located, <- float_missing_is_Some.
  unfold missing_fields.
  destruct (str_missing (invoice_number r)), (str_missing (date r)),
    (float_missing (amount r)), (str_missing (case_descr r)); simpl;
    (split; [intros Hn; try discriminate Hn; auto
            | intros (? & ? & ? & ?); congruence]).
Qed.

(** C1.  For every text, [parse_invoice] returns a record exactly when the
    four fields were located and not empty, and the record holds the four
    located values; otherwise it raises one [ValueError] whose message is
    the fixed prefix followed by the names of the missing fields, and a name
    is in that list exactly when its field is missing. *)
Theorem parse_invoice_all_or_nothing (text : str) :
  ∃ d a,
    find_date text = Return d ∧ find_amount text = Return a ∧
    let r := Invoice (find_invoice_number text) d a (_find_case_descr text) in
    let names := missing_fields r in
    (∀ r', parse_invoice text = Return r' ↔
       r' = r ∧ located (invoice_number r) ∧ located (date r)
       ∧ is_Some (amount r) ∧ located (case_descr r))
    ∧ (∀ e, parse_invoice text = Raise e ↔
         names ≠ [] ∧ e = ValueError (missing_message names))
    ∧ (∀ x, x ∈ names ↔
         (x = lit "invoice_number" ∧ ¬ located (invoice_number r))
         ∨ (x = lit "date" ∧ ¬ located (date r))
         ∨ (x = lit "amount" ∧ amount r = None)
         ∨ (x = lit "case_descr" ∧ ¬ located (case_descr r))).
Proof.
  destruct (find_date_returns text) as [d Hd].
  destruct (find_amount_returns text) as [a Ha].
  exists d, a. split; [exact Hd|]. split; [exact Ha|].
  intros r names. pose proof (parse_invoice_eq text d a Hd Ha) as Hp.
  fold r in Hp. simpl in Hp. split; [|split].
  - intros r'. rewrite Hp, <- missing_fields_nil.
    destruct (missing_fields r) eqn:E; split.
    + intros [= <-]. auto.
    + intros [-> _]. reflexivity.
    + discriminate.
    + intros [_ [=]].
  - intros e. rewrite Hp. subst names.
    destruct (missing_fields r) eqn:E; split.
    + discriminate.
    + intros [Hn _]. congruence.
    + intros [= <-]. split; [discriminate | reflexivity].
    + intros [_ ->]. reflexivity.
  - intros x. apply elem_of_missing_fields.
Qed.

Lemma parse_fails_when_missing text d a x :
  find_date text = Return d → find_amount text = Return a →
  x ∈ missing_fields
        (Invoice (find_invoice_number text) d a (_find_case_descr text)) →
  ∃ names, parse_invoice text = Raise (ValueError (missing_message names))
           ∧ x ∈ names.
Proof.
  intros Hd Ha Hx. rewrite (parse_invoice_eq _ _ _ Hd Ha). simpl.
  destruct (missing_fields _) eqn:E; [by apply elem_of_nil in Hx|].
  eexists. split; [reflexivity | exact Hx].
Qed.

(** C6.  The date is read from the first substring M/D/YYYY of the text,
    as month, day, year; when that triple is no date of the calendar the
    date is missing and the extraction fails, whatever dates follow; a month
    above 12 is such a case; a text without such a substring has no date. *)
Theorem date_is_first_match (text : str) :
  (∀ mm dd yyyy, first_date text mm dd yyyy →
     find_date text = Return (date_of_triple mm dd yyyy)
     ∧ (∀ r, parse_invoice text = Return r →
          date r = date_of_triple mm dd yyyy)
     ∧ (date_of_triple mm dd yyyy = None →
        ∃ names,
          parse_invoice text = Raise (ValueError (missing_message names))
          ∧ lit "date" ∈ names))
  ∧ (∀ mm dd yyyy, 12 < int_of_digits mm → date_of_triple mm dd yyyy = None)
  ∧ ((∀ pre mm dd yyyy, ¬ date_at text pre mm dd yyyy) →
     find_date text = Return None).
Proof.
  split; [|split].
  - intros mm dd yyyy Hf. pose proof (find_date_first _ _ _ _ Hf) as Hd.
    destruct (find_amount_returns text) as [a Ha].
    split; [exact Hd|]. split.
    + intros r. rewrite (parse_invoice_eq _ _ _ Hd Ha). simpl.
      destruct (missing_fields _); [|discriminate]. by intros [= <-].
    + intros Hn. eapply parse_fails_when_missing; eauto.
      apply elem_of_missing_fields. right; left. split; [reflexivity|].
      simpl. rewrite Hn. intros (s & [=] & _).
  - intros mm dd yyyy Hm. unfold date_of_triple, valid_date.
    replace (int_of_digits mm <=? 12) with false by lia.
    by rewrite !andb_false_r.
  - apply find_date_none.
Qed.

(** C9.  When the primary pattern finds nothing and the token that the
    fallback pattern finds is all zeros, the invoice number is the empty
    string and [parse_invoice] fails, naming [invoice_number] among the
    missing fields. *)
Theorem all_zero_token_is_missing (text : str) (m : match_obj) :
  search _RE_INVNO text = None →
  search _RE_INVNO_FBK text = Some m →
  m_group0 m = lit "00000000" →
  find_invoice_number text = Some []
  ∧ ∃ names,
      parse_invoice text = Raise (ValueError (missing_message names))
      ∧ lit "invoice_number" ∈ names.
Proof.
  intros Hp Hf Hz.
  assert (Hinv : find_invoice_number text = Some []).
  { unfold find_invoice_number. rewrite Hp, Hf, Hz. reflexivity. }
  split; [exact Hinv|].
  destruct (find_date_returns text) as [d Hd].
  destruct (find_amount_returns text) as [a Ha].
  eapply parse_fails_when_missing; eauto.
  apply elem_of_missing_fields. left. split; [reflexivity|].
  simpl. rewrite Hinv. intros (s & [= <-] & Hs). congruence.
Qed.

Lemma fbk_matches_inv pv w nx c :
  matches _RE_INVNO_FBK pv w nx ∅ c →
  ∃ d5, w = lit "000" ++ d5 ∧ digits d5 ∧ length d5 = 5%nat.
Proof.
  intros Hm.
  let r := eval vm_compute in _RE_INVNO_FBK in
    change _RE_INVNO_FBK with r in Hm.
  inv_matches.
  repeat match goal with
  | H : cset_mem (CChar _) _ = true |- _ => apply cset_mem_char in H; subst
  | H : ∀ h, Some _ = Some h → _ |- _ => specialize (H _ eq_refl)
  end.
  eexists. split; [|split; [eassumption | lia]].
  rewrite !app_nil_r. reflexivity.
Qed.

Lemma lstrip_by_spec p (s : str) :
  ∃ pre, s = pre ++ lstrip_by p s ∧ Forall (λ c, p c = true) pre
         ∧ ∀ c, head (lstrip_by p s) = Some c → p c = false.
Proof.
  induction s as [|c s (pre & Hs & Hp & Hh)]; simpl.
  - exists []. repeat split; auto. discriminate.
  - destruct (p c) eqn:Hc.
    + exists (c :: pre). simpl. rewrite <- Hs. repeat split; auto.
    + exists []. repeat split; auto. simpl. congruence.
Qed.

Lemma zero_is_digit : isdigit 48 = true.
Proof. rewrite isdigit_ascii by lia. reflexivity. Qed.

(** C3.  The invoice number is the group of the primary pattern whenever
    that pattern matches, whatever the fallback pattern would find; only
    when the primary pattern finds nothing is the token of the fallback
    pattern used, which is 000 and five digits, and the number is that
    token less its leading zeros; the bare token 00012345 gives 12345. *)
Theorem fallback_only_without_primary (text : str) :
  (∀ m, search _RE_INVNO text = Some m →
        find_invoice_number text = Some (group m 1))
  ∧ (search _RE_INVNO text = None →
     ∀ m, search _RE_INVNO_FBK text = Some m →
     ∃ zeros number d5,
       find_invoice_number text = Some number
       ∧ m_group0 m = zeros ++ number
       ∧ Forall (λ c, c = 48) zeros
       ∧ head number ≠ Some 48
       ∧ m_group0 m = lit "000" ++ d5 ∧ digits d5 ∧ length d5 = 5%nat)
  ∧ (search _RE_INVNO text = None → search _RE_INVNO_FBK text = None →
     find_invoice_number text = None)
  ∧ find_invoice_number Samples.bare_token_text = Some (lit "12345").
Proof.
  unfold find_invoice_number. repeat split.
  - intros m ->. reflexivity.
  - intros -> m Hs. rewrite Hs.
    destruct (lstrip_by_spec (in_chars (lit "0")) (m_group0 m))
      as (zeros & Hz & Hall & Hhead).
    apply search_some in Hs as (pre & nx & _ & _ & Hm & _).
    apply fbk_matches_inv in Hm as (d5 & Hw & Hd & Hl).
    exists zeros, (lstrip_by (in_chars (lit "0")) (m_group0 m)), d5.
    repeat split; auto.
    + eapply Forall_impl; [exact Hall|]. intros c Hc. simpl in Hc.
      unfold in_chars in Hc. apply bool_decide_eq_true in Hc.
      apply list_elem_of_singleton in Hc. exact Hc.
    + intros Hh. apply Hhead in Hh. discriminate.
  - intros -> ->. reflexivity.
  - unfold Samples.bare_token_text, search, _RE_INVNO, _RE_INVNO_FBK,
      word_i, word, sp_star.
    py_eval. reflexivity.
Qed.

(** *** The amount *)






Lemma sub_set_delete cs (s : str) :
  sub_set cs [] s = List.filter (λ c, negb (cset_mem cs c)) s.
Proof.
  unfold sub_set. induction s as [|c s IH]; [reflexivity|].
  cbn. destruct (cset_mem cs c); simpl; by rewrite <- IH.
Qed.







(** *** The description *)

Lemma seq_of_cons r rs pv w nx c c' :
  matches (seq_of (r :: rs)) pv w nx c c' ↔
  matches (RSeq r (seq_of rs)) pv w nx c c'.
Proof.
  destruct rs as [|r' rs]; [|reflexivity]. simpl. split.
  - intros Hm. rewrite <- (app_nil_r w). econstructor; [|constructor].
    simpl. exact Hm.
  - intros Hm. inversion Hm; subst.
    match goal with
    | He : matches REps _ _ _ _ _ |- _ => inversion He; subst
    end.
    rewrite app_nil_r. simpl in *. assumption.
Qed.

Lemma chars_i_matches (l : str) pv w nx c c' :
  matches (seq_of ((λ ch, RSet (CCharI ch)) <$> l)) pv w nx c c' ↔
  Forall2 (λ pc ch, casefold_eq pc ch = true) l w ∧ c' = c.
Proof.
  revert pv w nx c c'. induction l as [|x l IH]; intros pv w nx c c'.
  - simpl. split.
    + intros Hm. inversion Hm; subst. split; [constructor | reflexivity].
    + intros [Hf ->]. inversion Hf; subst. constructor.
  - rewrite fmap_cons, seq_of_cons. split.
    + intros Hm. inversion Hm; subst.
      match goal with
      | Hs : matches (RSet _) _ _ _ _ _ |- _ => inversion Hs; subst
      end.
      match goal with
      | Hr : matches (seq_of _) _ _ _ _ _ |- _ =>
          apply IH in Hr as [Hf ->]
      end.
      split; [|reflexivity]. simpl. constructor; assumption.
    + intros [Hf ->]. inversion Hf as [|? ch ? w' Hc Hf']; subst.
      change (ch :: w') with ([ch] ++ w'). econstructor.
      * constructor. exact Hc.
      * apply IH. split; [exact Hf' | reflexivity].
Qed.

Lemma word_i_matches p pv w nx c c' :
  matches (word_i p) pv w nx c c' ↔ word_i_is p w ∧ c' = c.
Proof. apply chars_i_matches. Qed.

Lemma rep_space_matches g lo pv w nx c c' :
  matches (RRep g CSpace lo None) pv w nx c c' ↔
  blanks w ∧ (lo ≤ length w)%nat ∧ c' = c.
Proof.
  split.
  - intros Hm. inversion Hm; subst. auto.
  - intros (Hb & Hl & ->). constructor; auto. discriminate.
Qed.

Lemma nonempty_length (w : str) : (1 ≤ length w)%nat ↔ w ≠ [].
Proof. destruct w; simpl; split; try congruence; lia. Qed.

Lemma anchor_matches pv w nx c c' :
  matches anchor_re pv w nx c c' ↔ anchor w ∧ c' = c.
Proof.
  unfold anchor_re, sp_plus, sp_star. cbn [seq_of]. split.
  - intros Hm. inv_matches.
    repeat match goal with
    | Hw : matches (word_i _) _ _ _ _ _ |- _ =>
        apply word_i_matches in Hw as [Hw ->]
    end.
    split; [|reflexivity].
    eexists _, _, _, _. split; [reflexivity|].
    repeat split; try assumption. by apply nonempty_length.
  - intros ((ws & u & ws' & d & -> & Hb & Hn & Hu & Hb' & Hd) & ->).
    econstructor; [apply rep_space_matches; repeat split; auto;
                   by apply nonempty_length|].
    econstructor; [apply word_i_matches; split; [exact Hu | reflexivity]|].
    econstructor; [apply rep_space_matches; repeat split; auto; lia|].
    constructor. exact Hd.
Qed.

Lemma casedescr_unfold :
  _RE_CASEDESCR =
  RSeq (word_i "Description")
    (RSeq sp_plus
       (RSeq (word_i "Amount")
          (RSeq sp_plus (RSeq (RGroup 1 (RRep Lazy CAny 1 None)) anchor_re)))).
Proof. reflexivity. Qed.

Lemma casedescr_matches pv w nx c :
  matches _RE_CASEDESCR pv w nx ∅ c ↔
  ∃ h body a, w = h ++ body ++ a ∧ header h ∧ body ≠ [] ∧ anchor a
              ∧ c = <[1%nat := body]> ∅.
Proof.
  rewrite casedescr_unfold. unfold sp_plus. split.
  - intros Hm.
    repeat match goal with
    | H : matches (RSeq _ _) _ _ _ _ _ |- _ => inversion H; subst; clear H
    | H : matches (RGroup _ _) _ _ _ _ _ |- _ => inversion H; subst; clear H
    | H : matches (word_i _) _ _ _ _ _ |- _ =>
        apply word_i_matches in H as [H ->]
    | H : matches (RRep _ CSpace _ _) _ _ _ _ _ |- _ =>
        apply rep_space_matches in H as (H & ? & ->)
    | H : matches (RRep _ CAny _ _) _ _ _ _ _ |- _ =>
        inversion H; subst; clear H
    | H : matches anchor_re _ _ _ _ _ |- _ =>
        apply anchor_matches in H as [H ->]
    end.
    match goal with
    | |- ∃ _ _ _, ?d ++ ?ws1 ++ ?am ++ ?ws2 ++ ?b ++ ?anc = _ ∧ _ =>
        exists (d ++ ws1 ++ am ++ ws2), b, anc
    end.
    split; [by rewrite <- !app_assoc|].
    split.
    { eexists _, _, _, _. split; [reflexivity|].
      repeat split; try assumption; by apply nonempty_length. }
    split; [by apply nonempty_length|].
    split; [assumption | reflexivity].
  - intros (h & body & a & -> & (d & ws1 & am & ws2 & -> & Hd & Hb1 & Hn1
             & Ha & Hb2 & Hn2) & Hbody & Hanc & ->).
    rewrite <- !app_assoc.
    econstructor; [apply word_i_matches; split; [exact Hd|reflexivity]|].
    econstructor; [apply rep_space_matches; repeat split; auto;
                   by apply nonempty_length|].
    econstructor; [apply word_i_matches; split; [exact Ha|reflexivity]|].
    econstructor; [apply rep_space_matches; repeat split; auto;
                   by apply nonempty_length|].
    econstructor.
    + constructor. constructor.
      * apply Forall_forall. reflexivity.
      * by apply nonempty_length.
      * discriminate.
    + apply anchor_matches. split; [exact Hanc | reflexivity].
Qed.

Lemma descr_at_matches text pre body :
  descr_at text pre body → matches_at _RE_CASEDESCR text pre.
Proof.
  intros (h & a & post & -> & Hh & Hb & Ha).
  exists (h ++ body ++ a), post, (<[1%nat := body]> ∅). split.
  - by rewrite <- !app_assoc.
  - apply casedescr_matches. eauto 10.
Qed.

(** What [search] finds for the description pattern: a header, the text
    of the group, an anchor. *)
Lemma search_casedescr text m :
  search _RE_CASEDESCR text = Some m →
  ∃ pre, descr_at text pre (group m 1) ∧ m_start m = length pre.
Proof.
  intros (pre & nx & Ht & Hst & Hm & _)%search_some.
  apply casedescr_matches in Hm as (h & body & a & Hw & Hh & Hb & Ha & Hc).
  exists pre. split; [|exact Hst].
  unfold group. rewrite Hc, lookup_insert_eq. simpl.
  exists h, a, nx. rewrite Ht, Hw, <- !app_assoc. auto.
Qed.

Lemma exec_seq {A} r1 r2 st (k : mstate → option A) :
  exec (RSeq r1 r2) st k = exec r1 st (λ st1, exec r2 st1 k).
Proof. reflexivity. Qed.

Lemma exec_word_i {A} p w pv s c (k : mstate → option A) :
  word_i_is p w →
  exec (word_i p) (MState pv (w ++ s) c) k = k (MState (last_of pv w) s c).
Proof. apply exec_chars_i. Qed.

Lemma exec_space_greedy {A} lo (ws : str) pv s c (k : mstate → option A) :
  blanks ws → (lo ≤ length ws)%nat →
  (∀ ch, head s = Some ch → isspace ch = false) →
  k (MState (last_of pv ws) s c) ≠ None →
  exec (RRep Greedy CSpace lo None) (MState pv (ws ++ s) c) k
  = k (MState (last_of pv ws) s c).
Proof.
  intros Hb Hl Hh Hk. simpl.
  destruct (k (MState (last_of pv ws) s c)) as [a|] eqn:E; [|congruence].
  apply rep_greedy_first; auto.
Qed.

Lemma word_i_head_not_space p (w s : str) ch0 :
  word_i_is p w → head (lit p) = Some ch0 → ascii_letter ch0 = true →
  ∀ ch, head (w ++ s) = Some ch → isspace ch = false.
Proof.
  unfold word_i_is. intros Hw Hp Hl ch Hh.
  destruct Hw as [|x y l w' Hc _]; [discriminate|].
  simpl in Hp, Hh. injection Hp as ->. injection Hh as ->.
  eapply casefold_letter_not_space; eauto.
Qed.

(** At the header of such a layout the matcher takes [body] for the
    group. *)
Lemma casedescr_match_at pv h body a post :
  header h → anchor a →
  (∃ b body', body = b :: body' ∧ isspace b = false) →
  (∀ b1 b2, body = b1 ++ b2 → b1 ≠ [] → b2 ≠ [] →
     ¬ anchor_at (b2 ++ a ++ post) []) →
  ∃ st, match_at _RE_CASEDESCR pv (h ++ body ++ a ++ post) = Some st
        ∧ caps st = <[1%nat := body]> ∅
        ∧ rest st = post.
Proof.
  intros (d & ws1 & am & ws2 & -> & Hd & Hb1 & Hn1 & Ha & Hb2 & Hn2)
         Hanc (b & body' & Hbody & Hb) Hfirst.
  assert (Hbn : body ≠ []) by (subst body; discriminate).
  (* the anchor is read, from whatever state *)
  assert (Hread : ∀ pv' c',
    ∃ st, exec anchor_re (MState pv' (a ++ post) c') Some = Some st
          ∧ caps st = c' ∧ rest st = post).
  { intros pv' c'.
    destruct (exec anchor_re (MState pv' (a ++ post) c') Some) as [st|] eqn:E.
    - exists st. split; [reflexivity|].
      apply exec_sound in E as (w & st' & Hs & _ & Hm & [= ->]).
      apply anchor_matches in Hm as [Hm Hc]. simpl in *.
      split; [exact Hc|].
      (* the anchor ends at its digit: the two readings are the same *)
      destruct Hanc as (ws & u & ws' & dg & -> & Hws & Hwn & Hu & Hws' & Hdg).
      destruct Hm as (xs & u' & xs' & dg' & -> & Hxs & Hxn & Hu' & Hxs' & Hdg').
      rewrite <- !app_assoc in Hs.
      assert (Hlast : ∀ (l1 l2 r1 r2 : str) x1 x2,
        blanks l1 → blanks l2 → isspace x1 = false → isspace x2 = false →
        l1 ++ x1 :: r1 = l2 ++ x2 :: r2 → l1 = l2 ∧ x1 :: r1 = x2 :: r2).
      { clear. intros l1. induction l1 as [|y l1 IH];
          intros l2 r1 r2 x1 x2 H1 H2 Hx1 Hx2 He.
        - destruct l2 as [|z l2]; [auto|]. simpl in He. injection He as -> _.
          apply Forall_cons in H2 as [H2 _]. congruence.
        - destruct l2 as [|z l2]; simpl in He.
          + injection He as -> _. apply Forall_cons in H1 as [H1 _].
            congruence.
          + injection He as -> He. apply Forall_cons in H1 as [_ H1].
            apply Forall_cons in H2 as [_ H2].
            destruct (IH _ _ _ _ _ H1 H2 Hx1 Hx2 He) as [-> ?]. auto. }
      unfold word_i_is in Hu, Hu'.
      let v := eval vm_compute in (lit "USD") in
        change (lit "USD") with v in Hu, Hu'.
      repeat match goal with
      | Hf : Forall2 _ (_ :: _) _ |- _ =>
          inversion Hf; subst; clear Hf
      | Hf : Forall2 _ [] _ |- _ => inversion Hf; subst; clear Hf
      end.
      simpl in Hs.
      apply Hlast in Hs as [_ Hs]; auto;
        try (eapply casefold_letter_not_space; [|eassumption]; reflexivity).
      injection Hs as _ _ _ Hs.
      apply Hlast in Hs as [_ Hs]; auto;
        try (by apply isdigit_not_space).
      by injection Hs.
    - exfalso. eapply (exec_complete anchor_re pv' a post c' c');
        [by apply anchor_matches | | exact E]. discriminate. }
  rewrite casedescr_unfold. unfold match_at.
  rewrite <- !app_assoc.
  assert (Hlazy : ∀ pv' c',
    ∃ st, exec (RSeq (RGroup 1 (RRep Lazy CAny 1 None)) anchor_re)
            (MState pv' (body ++ a ++ post) c') Some = Some st
          ∧ caps st = <[1%nat := body]> c' ∧ rest st = post).
  { intros pv' c'. cbn [exec rep rest prev caps].
    destruct (Hread (last_of pv' body) (<[1%nat := body]> c'))
      as (st & Hst & Hc & Hr).
    exists st. split; [|auto].
    apply rep_lazy_first.
    - apply Forall_forall. reflexivity.
    - destruct body; [congruence | simpl; lia].
    - intros w1 w2 -> Hw2 Hl1. unfold consumed. cbn [rest prev caps].
      match goal with
      | |- ?x = None => destruct x as [st1|] eqn:E; [|reflexivity]
      end.
      exfalso. apply (Hfirst w1 w2 eq_refl); auto.
      { intros ->. simpl in Hl1. lia. }
      apply exec_sound in E as (w & st' & Hs & _ & Hm & _).
      apply anchor_matches in Hm as [Hm _]. simpl in Hs.
      exists w, (rest st'). split; [exact Hs | exact Hm].
    - unfold consumed. cbn [rest prev caps].
      rewrite take_app_minus. exact Hst. }
  destruct (Hlazy (last_of (last_of (last_of (last_of pv d) ws1) am) ws2) ∅)
    as (st & Hst & Hc & Hr).
  exists st. split; [|auto].
  assert (Hbody_head :
    ∀ ch, head (body ++ a ++ post) = Some ch → isspace ch = false).
  { subst body. simpl. by intros ch [= <-]. }
  assert (Hlen : ∀ ws : str, ws ≠ [] → (1 ≤ length ws)%nat)
    by (intros ws Hn; by apply nonempty_length).
  assert (Hstep2 :
    exec (RSeq (word_i "Amount")
            (RSeq sp_plus
               (RSeq (RGroup 1 (RRep Lazy CAny 1 None)) anchor_re)))
      (MState (last_of (last_of pv d) ws1)
         (am ++ ws2 ++ body ++ a ++ post) ∅) Some = Some st).
  { rewrite exec_seq, exec_word_i by exact Ha.
    rewrite exec_seq. unfold sp_plus.
    rewrite exec_space_greedy; auto. congruence. }
  rewrite exec_seq, exec_word_i by exact Hd.
  rewrite exec_seq. unfold sp_plus at 1.
  rewrite exec_space_greedy; auto.
  - eapply word_i_head_not_space; [exact Ha | reflexivity | reflexivity].
  - congruence.
Qed.

Lemma find_first (f : str → bool) (l : list str) x :
  List.find f l = Some x ↔
  ∃ before after, l = before ++ x :: after
    ∧ Forall (λ y, f y = false) before ∧ f x = true.
Proof.
  induction l as [|y l IH]; simpl.
  - split; [discriminate|]. intros (b & a & He & _). by destruct b.
  - destruct (f y) eqn:Hy; split.
    + intros [= ->]. exists [], l. auto.
    + intros ([|z b] & a & He & Hb & Hx); simpl in He.
      * by injection He as ->.
      * injection He as -> _. apply Forall_cons in Hb as [Hb _]. congruence.
    + intros (b & a & -> & Hb & Hx)%IH. exists (y :: b), a. auto.
    + intros ([|z b] & a & He & Hb & Hx); simpl in He.
      * injection He as ->. congruence.
      * injection He as -> ->. apply Forall_cons in Hb as [_ Hb].
        apply IH. eauto.
Qed.

(** [first_nonblank] is the first line that is not empty once stripped. *)
Lemma first_nonblank_spec raw line :
  first_nonblank raw = Some line ↔
  ∃ before after, strip <$> splitlines raw = before ++ line :: after
    ∧ Forall (λ l, l = []) before ∧ line ≠ [].
Proof.
  unfold first_nonblank. rewrite find_first.
  split; intros (b & a & He & Hb & Hx); exists b, a;
    (split; [exact He|]); split.
  - eapply Forall_impl; [exact Hb|]. intros l Hl. simpl in Hl.
    apply negb_false_iff, bool_decide_eq_true in Hl. exact Hl.
  - apply negb_true_iff, bool_decide_eq_false in Hx. exact Hx.
  - eapply Forall_impl; [exact Hb|]. intros l ->. reflexivity.
  - apply negb_true_iff, bool_decide_eq_false. exact Hx.
Qed.

(** C7, amended.  The description, when there is one, is the first line,
    not blank once stripped, of a text that stands between a header
    (Description, white space, Amount, white space) and an anchor (white
    space, USD, possibly white space, a digit); without such a header and
    anchor the description is absent; with one, the pattern matches and the
    description is read from the text of its group, which also stands
    between a header and an anchor; in the layout of the sample invoice, at
    the first header that has an anchor, that text is the one between the
    white space after the header and the first anchor. *)
Theorem description_between_anchors (text : str) :
  (∀ line, _find_case_descr text = Some line →
     ∃ pre body, descr_at text pre body ∧ first_nonblank body = Some line)
  ∧ ((∀ pre body, ¬ descr_at text pre body) → _find_case_descr text = None)
  ∧ (∀ pre body, descr_at text pre body →
       ∃ m pre', search _RE_CASEDESCR text = Some m
         ∧ descr_at text pre' (group m 1)
         ∧ (length pre' ≤ length pre)%nat
         ∧ _find_case_descr text = first_nonblank (group m 1))
  ∧ (∀ pre body, descr_layout text pre body →
       (∀ pre' body', descr_at text pre' body' →
          (length pre ≤ length pre')%nat) →
       _find_case_descr text = first_nonblank body)
  ∧ (∀ raw line, first_nonblank raw = Some line ↔
       ∃ before after, strip <$> splitlines raw = before ++ line :: after
         ∧ Forall (λ l, l = []) before ∧ line ≠ []).
Proof.
  assert (Hsound : ∀ line, _find_case_descr text = Some line →
    ∃ pre body, descr_at text pre body ∧ first_nonblank body = Some line).
  { intros line. unfold _find_case_descr.
    destruct (search _RE_CASEDESCR text) as [m|] eqn:Hs; [|discriminate].
    intros Hl. apply search_casedescr in Hs as (pre & Hat & _). eauto. }
  split; [exact Hsound|]. split; [|split; [|split]].
  - intros Hno. destruct (_find_case_descr text) as [line|] eqn:E;
      [|reflexivity].
    destruct (Hsound line eq_refl) as (pre & body & Hat & _).
    exfalso. eapply Hno, Hat.
  - intros pre body Hat.
    destruct (search_complete _ _ _ (descr_at_matches _ _ _ Hat))
      as (m & Hs & Hle).
    destruct (search_casedescr _ _ Hs) as (pre' & Hat' & Hst).
    exists m, pre'. unfold _find_case_descr. rewrite Hs.
    repeat split; auto. lia.
  - intros pre body (h & a & post & Ht & Hh & Ha & Hb & Hfirst) Hmin.
    destruct (casedescr_match_at (last_of None pre) h body a post
                Hh Ha Hb Hfirst) as (st & Hm & Hc & _).
    unfold _find_case_descr.
    rewrite (search_first_match _ _ _ _ _ Ht Hm).
    + unfold group. cbn [m_groups]. rewrite Hc, lookup_insert_eq.
      reflexivity.
    + intros pre' Hl (w & nx & c & Ht' & Hm').
      apply casedescr_matches in Hm' as (h' & body' & a' & -> & ? & ? & ? & _).
      assert (descr_at text pre' body') as Hat'.
      { exists h', a', nx. rewrite Ht', <- !app_assoc. auto. }
      apply Hmin in Hat'. lia.
  - apply first_nonblank_spec.
Qed.

End WithUnicode.

Import Tables Samples.

Lemma parse_invoice_all_or_nothing_witness :
  ∃ r, parse_invoice (H := ascii_tables) invoice_text = Return r
       ∧ invoice_number r = Some (lit "12345")
       ∧ date r = Some (lit "2025-03-10")
       ∧ amount r = Some (float_of_int 4000)
       ∧ case_descr r = Some (lit "repellents").
Proof.
  destruct (parse_invoice_all_or_nothing (H := ascii_tables) invoice_text)
    as (d & a & Hd & Ha & Hret & _).
  vm_compute in Hd. injection Hd as <-.
  vm_compute in Ha. injection Ha as <-.
  eexists. split.
  - apply Hret. split; [reflexivity|].
    repeat split; vm_compute; eauto; eexists; (split; [reflexivity|]);
      discriminate.
  - vm_compute. auto.
Defined.

Lemma date_is_first_match_witness :
  find_date (H := ascii_tables) month13_text = Return None.
Proof.
  destruct (date_is_first_match (H := ascii_tables) month13_text)
    as (Hfirst & _ & _).
  destruct (Hfirst (lit "13") (lit "01") (lit "2025")) as (Hd & _).
  - assert (Hs : search (H := ascii_tables) _RE_DATE month13_text
               = Some (MatchObj 0 (lit "13/01/2025")
                   (<[3%nat := lit "2025"]>
                      (<[2%nat := lit "01"]> (<[1%nat := lit "13"]> ∅)))))
      by (vm_compute; reflexivity).
    apply search_date in Hs. exact Hs.
  - exact Hd.
Defined.

Lemma all_zero_token_is_missing_witness :
  find_invoice_number (H := ascii_tables) zero_token_text = Some [].
Proof.
  eapply (all_zero_token_is_missing (H := ascii_tables));
    vm_compute; reflexivity.
Defined.

Lemma fallback_only_without_primary_witness :
  find_invoice_number (H := ascii_tables) (lit "Invoice No. 00012345 00098765")
  = Some (lit "12345").
Proof.
  destruct (fallback_only_without_primary (H := ascii_tables)
              (lit "Invoice No. 00012345 00098765")) as (Hprim & _).
  eapply eq_trans; [apply Hprim; vm_compute; reflexivity|].
  vm_compute. reflexivity.
Defined.


Lemma description_between_anchors_witness :
  ∃ pre body,
    descr_at (H := ascii_tables) invoice_text pre body
    ∧ first_nonblank (H := ascii_tables) body = Some (lit "repellents").
Proof.
  destruct (description_between_anchors (H := ascii_tables) invoice_text)
    as (Hsound & _).
  apply Hsound. vm_compute. reflexivity.
Defined.

(** The header is there, USD and a digit follow, the text between them has
    the line [repellents], and the description is absent: no white space
    stands before USD. *)
Lemma glued_usd_counterexample :
  glued_usd_text
  = lit "Description Amount" ++ ([10] ++ lit "repellents") ++ lit "USD4"
  ∧ first_nonblank (H := ascii_tables) ([10] ++ lit "repellents")
    = Some (lit "repellents")
  ∧ _find_case_descr (H := ascii_tables) glued_usd_text = None.
Proof. vm_compute. auto. Qed.

End InvoiceFacts.

(** ** The name of the folder of a case *)

Module NamingFacts.
Import Py Re NameShape.

Lemma uint_chars_digits d : Forall (λ c, 48 ≤ c ≤ 57) (uint_chars d).
Proof. induction d; simpl; constructor; auto; lia. Qed.

Lemma str_of_int_chars n : Forall (λ c, 48 ≤ c ≤ 57 ∨ c = 45) (str_of_int n).
Proof.
  unfold str_of_int. destruct (Z.to_int n) as [d|d].
  - eapply Forall_impl; [apply uint_chars_digits|]. simpl. auto.
  - constructor; [auto|].
    eapply Forall_impl; [apply uint_chars_digits|]. simpl. auto.
Qed.

Lemma zfill_chars k (s : str) :
  Forall (λ c, 48 ≤ c ≤ 57 ∨ c = 45) s →
  Forall (λ c, 48 ≤ c ≤ 57 ∨ c = 45) (zfill k s).
Proof.
  intros Hs. unfold zfill. apply Forall_app. split; [|exact Hs].
  apply Forall_forall. intros c Hc%elem_of_replicate_inv. lia.
Qed.

Lemma strftime_chars d :
  Forall (λ c, 48 ≤ c ≤ 57 ∨ c = 45) (strftime_yy_mm d).
Proof.
  unfold strftime_yy_mm.
  apply Forall_app; split; [apply zfill_chars, str_of_int_chars|].
  apply Forall_app; split; [|apply zfill_chars, str_of_int_chars].
  constructor; [auto | constructor].
Qed.

(** The digits that [isoformat] writes are read back by
    [fromisoformat]: checked for each year, month and day. *)
Lemma year_roundtrip y :
  1 ≤ y ≤ 9999 →
  ∃ a b c d, zfill 4 (str_of_int y) = [a; b; c; d]
    ∧ forallb ascii_digit [a; b; c; d] = true ∧ ascii_int [a; b; c; d] = y.
Proof.
  intros Hy.
  assert (Hall : forallb (λ y,
            match zfill 4 (str_of_int y) with
            | [a; b; c; d] =>
                forallb ascii_digit [a; b; c; d]
                && (ascii_int [a; b; c; d] =? y)
            | _ => false
            end) (seqZ 1 9999) = true) by (vm_compute; reflexivity).
  rewrite forallb_forall in Hall.
  specialize (Hall y). rewrite <- list_elem_of_In, elem_of_seqZ in Hall.
  specialize (Hall ltac:(lia)).
  destruct (zfill 4 (str_of_int y)) as [|a [|b [|c [|d [|? ?]]]]];
    try discriminate.
  apply andb_true_iff in Hall as [Hd He]. exists a, b, c, d.
  split; [reflexivity|]. split; [exact Hd | lia].
Qed.

Lemma two_digit_roundtrip m :
  1 ≤ m ≤ 31 →
  ∃ a b, zfill 2 (str_of_int m) = [a; b]
    ∧ forallb ascii_digit [a; b] = true ∧ ascii_int [a; b] = m.
Proof.
  intros Hm.
  assert (Hall : forallb (λ m,
            match zfill 2 (str_of_int m) with
            | [a; b] => forallb ascii_digit [a; b] && (ascii_int [a; b] =? m)
            | _ => false
            end) (seqZ 1 31) = true) by (vm_compute; reflexivity).
  rewrite forallb_forall in Hall.
  specialize (Hall m). rewrite <- list_elem_of_In, elem_of_seqZ in Hall.
  specialize (Hall ltac:(lia)).
  destruct (zfill 2 (str_of_int m)) as [|a [|b [|? ?]]]; try discriminate.
  apply andb_true_iff in Hall as [Hd He]. exists a, b.
  split; [reflexivity|]. split; [exact Hd | lia].
Qed.

Lemma days_in_month_le y m : days_in_month y m ≤ 31.
Proof.
  unfold days_in_month.
  destruct (m =? 2); [destruct (is_leap y); lia|].
  destruct ((m =? 4) || (m =? 6) || (m =? 9) || (m =? 11)); lia.
Qed.

Lemma fromisoformat_isoformat d :
  valid_date (year d) (month d) (day d) = true →
  fromisoformat (isoformat d) = Return d.
Proof.
  destruct d as [y m dd]. simpl. intros Hv.
  assert (Hr : 1 ≤ y ≤ 9999 ∧ 1 ≤ m ≤ 12 ∧ 1 ≤ dd ≤ 31).
  { unfold valid_date in Hv. pose proof (days_in_month_le y m). lia. }
  destruct Hr as (Hy & Hm & Hd).
  destruct (year_roundtrip y Hy) as (y1 & y2 & y3 & y4 & Ey & Dy & Iy).
  destruct (two_digit_roundtrip m ltac:(lia)) as (m1 & m2 & Em & Dm & Im).
  destruct (two_digit_roundtrip dd Hd) as (d1 & d2 & Ed & Dd & Id).
  unfold isoformat. simpl. rewrite Ey, Em, Ed. cbn [app].
  unfold fromisoformat.
  change [y1; y2; y3; y4; m1; m2; d1; d2]
    with ([y1; y2; y3; y4] ++ [m1; m2] ++ [d1; d2]).
  rewrite !forallb_app, Dy, Dm, Dd, Iy, Im, Id. simpl.
  unfold datetime. by rewrite Hv.
Qed.

Section WithUnicode.
Context `{Unicode}.

Lemma sub_set_cons cs repl c (s : str) :
  sub_set cs repl (c :: s)
  = (if cset_mem cs c then repl else [c]) ++ sub_set cs repl s.
Proof. reflexivity. Qed.

Lemma sub_set_legal repl (s : str) :
  Forall (λ c, c ∉ AddString.FORBIDDEN) s →
  sub_set (CIn AddString.FORBIDDEN) repl s = s.
Proof.
  induction 1 as [|c s Hc _ IH]; [reflexivity|].
  rewrite sub_set_cons, IH. cbn [cset_mem]. unfold in_chars.
  by rewrite bool_decide_eq_false_2 by exact Hc.
Qed.

Lemma sub_set_result_legal repl (s : str) :
  legal repl → legal (sub_set (CIn AddString.FORBIDDEN) repl s).
Proof.
  intros Hr. unfold legal. induction s as [|c s IH]; [constructor|].
  rewrite sub_set_cons. apply Forall_app. split; [|exact IH].
  cbn [cset_mem]. unfold in_chars.
  destruct (bool_decide (c ∈ AddString.FORBIDDEN)) eqn:E.
  - exact Hr.
  - apply bool_decide_eq_false in E. constructor; [exact E | constructor].
Qed.

End WithUnicode.

Lemma lstrip_by_suffix p (s : str) :
  ∃ pre, s = pre ++ lstrip_by p s ∧ Forall (λ c, p c = true) pre.
Proof.
  induction s as [|c s (pre & Hs & Hp)]; simpl.
  - exists []. auto.
  - destruct (p c) eqn:Hc.
    + exists (c :: pre). simpl. rewrite <- Hs. auto.
    + exists []. auto.
Qed.

Lemma lstrip_by_head p (s : str) c :
  head (lstrip_by p s) = Some c → p c = false.
Proof.
  induction s as [|x s IH]; simpl; [discriminate|].
  destruct (p x) eqn:Hx; [exact IH|]. simpl. congruence.
Qed.

Lemma rstrip_by_prefix p (s : str) :
  ∃ suf, s = rstrip_by p s ++ suf ∧ Forall (λ c, p c = true) suf.
Proof.
  unfold rstrip_by.
  destruct (lstrip_by_suffix p (reverse s)) as (pre & Hs & Hp).
  exists (reverse pre). split.
  - rewrite <- reverse_app, <- Hs. by rewrite reverse_involutive.
  - by apply Forall_reverse.
Qed.

Lemma rstrip_by_last p (s : str) c :
  last (rstrip_by p s) = Some c → p c = false.
Proof. unfold rstrip_by. rewrite last_reverse. apply lstrip_by_head. Qed.

Lemma rstrip_by_head p (s : str) c :
  head (rstrip_by p s) = Some c → head s = Some c.
Proof.
  destruct (rstrip_by_prefix p s) as (suf & Hs & _).
  destruct (rstrip_by p s) as [|x r]; [discriminate|].
  intros [= ->]. rewrite Hs. reflexivity.
Qed.

Lemma strip_by_trimmed (s : str) :
  trimmed (strip_by (in_chars (lit " .")) s).
Proof.
  assert (Hp : ∀ c, in_chars (lit " .") c = false → c ≠ 32 ∧ c ≠ 46).
  { intros c Hc. unfold in_chars in Hc. apply bool_decide_eq_false in Hc.
    split; intros ->; apply Hc; vm_compute; set_solver. }
  unfold strip_by. split; intros c Hc; apply Hp.
  - apply rstrip_by_head in Hc. eapply lstrip_by_head, Hc.
  - eapply rstrip_by_last, Hc.
Qed.

Lemma strip_by_id p (s : str) :
  (∀ c, head s = Some c → p c = false) →
  (∀ c, last s = Some c → p c = false) →
  strip_by p s = s.
Proof.
  intros Hh Hl. unfold strip_by.
  assert (Hls : lstrip_by p s = s).
  { destruct s as [|c s]; [reflexivity|]. simpl.
    by rewrite (Hh c eq_refl). }
  rewrite Hls. unfold rstrip_by.
  assert (Hrs : lstrip_by p (reverse s) = reverse s).
  { destruct (reverse s) as [|c r] eqn:E; [reflexivity|]. simpl.
    rewrite (Hl c); [reflexivity|].
    rewrite <- head_reverse, E. reflexivity. }
  rewrite Hrs. apply reverse_involutive.
Qed.

Lemma strip_by_legal p (s : str) : legal s → legal (strip_by p s).
Proof.
  unfold legal, strip_by. intros Hs.
  destruct (lstrip_by_suffix p s) as (pre & Hl & _).
  destruct (rstrip_by_prefix p (lstrip_by p s)) as (suf & Hr & _).
  rewrite Hl, Hr in Hs.
  apply Forall_app in Hs as [_ Hs]. apply Forall_app in Hs as [Hs _].
  exact Hs.
Qed.

Lemma digit_or_minus_legal (s : str) :
  Forall (λ c, 48 ≤ c ≤ 57 ∨ c = 45) s → legal s.
Proof.
  unfold legal. intros Hs. eapply Forall_impl; [exact Hs|].
  intros c Hc. simpl in Hc.
  unfold AddString.FORBIDDEN. rewrite !elem_of_cons, elem_of_nil. lia.
Qed.

Lemma constant_legal (s : str) :
  forallb (λ c, negb (in_chars AddString.FORBIDDEN c)) s = true → legal s.
Proof.
  unfold legal. rewrite forallb_forall, Forall_forall.
  intros Hs c Hc. apply list_elem_of_In, Hs in Hc.
  apply negb_true_iff, bool_decide_eq_false in Hc. exact Hc.
Qed.

Lemma template_legal d amount_int n : legal (template d amount_int n).
Proof.
  unfold template.
  apply Forall_app; split; [by apply constant_legal|].
  apply Forall_app; split;
    [apply digit_or_minus_legal, strftime_chars|].
  apply Forall_app; split; [by apply constant_legal|].
  apply Forall_app; split;
    [apply digit_or_minus_legal, str_of_int_chars|].
  apply Forall_app; split; [by apply constant_legal|].
  apply Forall_app; split;
    [apply digit_or_minus_legal, str_of_int_chars|].
  by apply constant_legal.
Qed.

Lemma template_trimmed d amount_int n : trimmed (template d amount_int n).
Proof.
  unfold template. split; intros c.
  - simpl. intros [= <-]. lia.
  - rewrite !app_assoc, last_app. simpl. intros [= <-]. lia.
Qed.

Section Naming.
Context `{Unicode}.

Lemma strip_by_parts p (s : str) :
  ∃ pre suf, s = pre ++ strip_by p s ++ suf
    ∧ Forall (λ c, p c = true) pre ∧ Forall (λ c, p c = true) suf.
Proof.
  unfold strip_by.
  destruct (lstrip_by_suffix p s) as (pre & Hs & Hpre).
  destruct (rstrip_by_prefix p (lstrip_by p s)) as (suf & Hl & Hsuf).
  exists pre, suf. split; [|by split]. rewrite <- Hl. exact Hs.
Qed.





End Naming.



End NamingFacts.

(** ** The run of [Mega_Help_Scriptv2.py] *)

Module RunFacts.
Import Py Re MegaHelp.

Lemma hoare_bind {A B} P Q R (m : M A) (f : A → M B) :
  hoare P m Q → (∀ a, hoare Q (f a) R) → (∀ s, Q s → R s) →
  hoare P (m ≫= f) R.
Proof.
  intros Hm Hf Hw s Hs. specialize (Hm s Hs).
  unfold mbind, M_bind. destruct (m s) as [[a|e] s']; simpl in *.
  - apply Hf, Hm.
  - apply Hw, Hm.
Qed.

Lemma hoare_weaken {A} (P P' Q Q' : rstate → Prop) (m : M A) :
  hoare P m Q → (∀ s, P' s → P s) → (∀ s, Q s → Q' s) → hoare P' m Q'.
Proof. intros Hm Hp Hq s Hs. apply Hq, Hm, Hp, Hs. Qed.

Section Keeps.
Context (I : rstate → Prop).

Lemma keeps_ret {A} (a : A) : keeps I (mret a).
Proof. intros s Hs. exact Hs. Qed.

Lemma keeps_lift {A} (r : result A) : keeps I (lift r).
Proof. intros s Hs. exact Hs. Qed.

Lemma keeps_raise {A} (e : exn) : keeps I (raise (A := A) e).
Proof. intros s Hs. exact Hs. Qed.

Lemma keeps_gets {A} (f : rstate → A) : keeps I (gets f).
Proof. intros s Hs. exact Hs. Qed.

Lemma keeps_require {A} (o : option A) : keeps I (require o).
Proof. destruct o; intros s Hs; exact Hs. Qed.

Lemma keeps_bind {A B} (m : M A) (f : A → M B) :
  keeps I m → (∀ a, keeps I (f a)) → keeps I (m ≫= f).
Proof. intros Hm Hf. eapply hoare_bind; eauto. Qed.

Lemma keeps_try_except {A} (m : M A) (h : exn → M A) :
  keeps I m → (∀ e, keeps I (h e)) → keeps I (try_except m h).
Proof.
  intros Hm Hh s Hs. specialize (Hm s Hs).
  unfold try_except. destruct (m s) as [[a|e] s']; simpl in *.
  - exact Hm.
  - apply Hh, Hm.
Qed.

Lemma keeps_try_finally {A} (m : M A) (f : M unit) :
  keeps I m → keeps I f → keeps I (try_finally m f).
Proof.
  intros Hm Hf s Hs. specialize (Hm s Hs).
  unfold try_finally. destruct (m s) as [r s']; simpl in *.
  specialize (Hf s' Hm). destruct (f s') as [[[]|e] s'']; exact Hf.
Qed.

Lemma keeps_for_each {A} (f : A → M unit) (l : list A) :
  (∀ a, a ∈ l → keeps I (f a)) → keeps I (for_each f l).
Proof.
  induction l as [|a l IH]; intros Hf; simpl.
  - apply keeps_ret.
  - apply keeps_bind.
    + apply Hf. left.
    + intros _. apply IH. intros b Hb. apply Hf. by right.
Qed.

End Keeps.

(** The structure of a computation, down to its updates of the variables,
    which [atom] handles *)
Ltac keeps_with atom :=
  repeat first
    [ atom
    | apply keeps_ret | apply keeps_lift | apply keeps_raise
    | apply keeps_gets | apply keeps_require
    | apply keeps_bind; [|intros ?]
    | apply keeps_try_except; [|intros ?]
    | apply keeps_try_finally
    | match goal with
      | |- keeps _ (match ?x with _ => _ end) => destruct x
      end ].

(** *** A case that is done is left alone *)

Section Skipping.
Context (n : Z) (L : list Z).

Lemma skip_set_flags f : keeps (skipping_at n L) (set_flags f).
Proof. intros s Hs. exact Hs. Qed.

Lemma skip_log l : keeps (skipping_at n L) (log l).
Proof. intros s Hs. exact Hs. Qed.

Lemma skip_set_seen f : keeps (skipping_at n L) (set_seen f).
Proof. intros s Hs. exact Hs. Qed.

Lemma skip_set_seen_msgs f : keeps (skipping_at n L) (set_seen_msgs f).
Proof. intros s Hs. exact Hs. Qed.

Lemma skip_set_in_hand o : o ≠ Some n → keeps (skipping_at n L) (set_in_hand o).
Proof.
  intros Ho s (((Hq & Hh) & Hd) & Hn). repeat split; auto; apply Hd.
Qed.

Lemma skip_emit_innocent ev :
  (∀ s, skipping_at n L s → innocent n (in_hand s, ev)) →
  keeps (skipping_at n L) (emit ev).
Proof.
  intros Hev s Hs. pose proof (Hev s Hs) as Hi.
  destruct Hs as (((Hq & Hh) & Hd) & Hn).
  split; [split; [split|]|]; simpl; auto.
  apply Forall_app. split; [exact Hq|]. constructor; [exact Hi|constructor].
Qed.

Lemma skip_emit ev :
  (∀ t, ev ≠ EState n t) → (∀ df, ev ≠ ESaveExcel df) →
  (∀ values, ev = EAppendRow values → values !! 3%nat ≠ Some (CInt n)) →
  keeps (skipping_at n L) (emit ev).
Proof.
  intros Hst Hsv Hap. apply skip_emit_innocent.
  intros s (((Hq & Hh) & Hd) & Hn). split; [|split]; simpl.
  - intros [Hf|[t Ht]]; simpl in *; [congruence | by apply (Hst t)].
  - intros df Hdf. by apply Hsv in Hdf.
  - exact Hap.
Qed.

Lemma skip_call {A} ev (r : result A) :
  (∀ t, ev ≠ EState n t) → (∀ df, ev ≠ ESaveExcel df) →
  (∀ values, ev = EAppendRow values → values !! 3%nat ≠ Some (CInt n)) →
  keeps (skipping_at n L) (call ev r).
Proof.
  intros. unfold call. apply keeps_bind; [by apply skip_emit|].
  intros _. apply keeps_lift.
Qed.

Lemma skip_save_cases_excel : keeps (skipping_at n L) save_cases_excel.
Proof.
  intros s Hs. pose proof Hs as (((Hq & Hh) & Hd) & Hn).
  apply (skip_emit_innocent (ESaveExcel (cases_df s))); [|exact Hs].
  intros s' (((Hq' & Hh') & Hd') & Hn'). split; [|split]; simpl.
  - intros [Hf|[t Ht]]; simpl in *; congruence.
  - intros df [= <-]. exact Hd.
  - intros values [=].
Qed.

Lemma skip_save_seen : keeps (skipping_at n L) save_seen.
Proof.
  intros s Hs. apply (skip_emit (ESaveSeen (seen s))); auto;
    intros ? [=].
Qed.

Lemma numbers_alter (f : row → row) idx df :
  (∀ r, r_invoice_number (f r) = r_invoice_number r) →
  numbers (alter f idx df) = numbers df.
Proof.
  intros Hf. unfold numbers. revert idx.
  induction df as [|r df IH]; intros [|idx]; simpl; auto.
  - by rewrite Hf.
  - f_equal. apply IH.
Qed.

Lemma done_in_alter (f : row → row) idx df n' :
  (∀ r, r_invoice_number (f r) = r_invoice_number r) →
  numbers df !! idx = Some n' → n' ≠ n →
  done_in n df → done_in n (alter f idx df).
Proof.
  intros Hf Hi Hne [Hin Hall]. split.
  - by rewrite numbers_alter.
  - intros r Hr Hrn.
    apply list_elem_of_lookup in Hr as [j Hj].
    destruct (decide (j = idx)) as [->|Hji].
    + rewrite list_lookup_alter_eq in Hj.
      destruct (df !! idx) as [r0|] eqn:E; [|discriminate].
      simpl in Hj. injection Hj as <-. exfalso. apply Hne.
      unfold numbers in Hi. rewrite list_lookup_fmap, E in Hi.
      simpl in Hi. injection Hi as <-. rewrite <- Hrn. symmetry. apply Hf.
    + rewrite list_lookup_alter_ne in Hj by auto.
      apply Hall; [|exact Hrn]. eapply list_elem_of_lookup_2, Hj.
Qed.

Lemma skip_set_df_alter (f : row → row) idx n' :
  (∀ r, r_invoice_number (f r) = r_invoice_number r) →
  L !! idx = Some n' → n' ≠ n →
  keeps (skipping_at n L) (set_df (alter f idx)).
Proof.
  intros Hf Hi Hne s ((Hu & Hd) & Hn).
  split; [split; [exact Hu|]|]; simpl.
  - eapply done_in_alter; eauto. by rewrite Hn.
  - by rewrite numbers_alter.
Qed.

End Skipping.

Ltac skip_atom :=
  first
    [ apply skip_set_flags | apply skip_log | apply skip_set_seen
    | apply skip_set_seen_msgs | apply skip_save_cases_excel
    | apply skip_save_seen
    | apply skip_set_in_hand; solve [congruence]
    | apply skip_call;
        [ solve [intros ? [=]; congruence] | solve [intros ? [=]]
        | solve [intros ? [=]; subst; simpl; congruence] ]
    | apply skip_emit;
        [ solve [intros ? [=]; congruence] | solve [intros ? [=]]
        | solve [intros ? [=]; subst; simpl; congruence] ]
    | eapply skip_set_df_alter;
        [solve [reflexivity] | eassumption | assumption] ].

Section WithUnicode.
Context `{Unicode}.

Lemma str_eqb_false (a b : str) : str_eqb a b = false → a ≠ b.
Proof. unfold str_eqb. apply bool_decide_eq_false. Qed.

Lemma process_row_skips e n L idx r :
  L !! idx = Some (r_invoice_number r) →
  (r_invoice_number r = n → r_status r = READY) →
  keeps (skipping_at n L) (process_row e (idx, r)).
Proof.
  intros Hi Hr. unfold process_row.
  destruct (str_eqb (r_status r) READY) eqn:E; [apply keeps_ret|].
  apply str_eqb_false in E.
  assert (Hne : r_invoice_number r ≠ n) by (intros Hn; auto).
  set (n' := r_invoice_number r) in *.
  unfold acquire_case, file_case, find_case_folder, find_latest_pdf,
    download_pdf, set_status.
  keeps_with skip_atom.
Qed.

Lemma imap_pair_lookup {A} (l : list A) idx (a : A) :
  (idx, a) ∈ imap pair l → l !! idx = Some a.
Proof.
  intros Hin. apply list_elem_of_lookup in Hin as [j Hj].
  rewrite list_lookup_imap in Hj.
  destruct (l !! j) as [b|] eqn:E; [|discriminate].
  simpl in Hj. by injection Hj as <- <-.
Qed.

Lemma process_cases_skips e n : keeps (skipping n) (process_cases e).
Proof.
  intros s Hs. unfold process_cases, mbind, M_bind, gets.
  assert (Hat : skipping_at n (numbers (cases_df s)) s) by (by split).
  eapply (keeps_for_each (skipping_at n (numbers (cases_df s)))) in Hat.
  - destruct Hat as [Hat _]. exact Hat.
  - intros [idx r] Hin. apply imap_pair_lookup in Hin.
    apply process_row_skips.
    + unfold numbers. by rewrite list_lookup_fmap, Hin.
    + intros Hn. destruct Hs as [_ [_ Hall]]. apply Hall; [|exact Hn].
      eapply list_elem_of_lookup_2, Hin.
Qed.

Lemma skipping_of_at {A} n (m : M A) :
  (∀ L, keeps (skipping_at n L) m) → keeps (skipping n) m.
Proof.
  intros Hm s Hs.
  destruct (Hm (numbers (cases_df s)) s) as [Hs' _]; [by split|exact Hs'].
Qed.

Lemma scan_messages_skips e n L seen_ids ids : ∀ results,
  keeps (skipping_at n L) (scan_messages e seen_ids ids results).
Proof.
  induction ids as [|msg_id ids IH]; intros results; simpl.
  - apply keeps_ret.
  - destruct (bool_decide (msg_id ∈ seen_ids)); [apply IH|].
    apply keeps_bind; [skip_atom|]. intros full.
    destruct (search RE_APPROVED (message_text full)); [|apply IH].
    apply keeps_bind; [apply keeps_lift|]. intros k. apply IH.
Qed.

Lemma note_message_skips n m : keeps (skipping n) (note_message m).
Proof.
  destruct m as [msg_id inv_no]. intros s Hs.
  unfold note_message, mbind, M_bind, gets. simpl.
  destruct (bool_decide (inv_no ∈ r_invoice_number <$> cases_df s)) eqn:E;
    simpl; [exact Hs|].
  apply bool_decide_eq_false in E.
  destruct Hs as ((Hq & Hh) & (Hin & Hall)).
  assert (Hne : inv_no ≠ n) by (intros ->; auto).
  split; [split|split]; simpl; auto.
  - apply Forall_app. split; [exact Hq|]. constructor; [|constructor].
    split; [|split]; simpl.
    + intros [Hf|[t [= ? ?]]]; simpl in *; congruence.
    + intros df [=].
    + intros values [=].
  - unfold numbers. rewrite fmap_app. apply elem_of_app. by left.
  - intros r [Hr|Hr]%elem_of_app Hn; [by apply Hall|].
    apply list_elem_of_singleton in Hr. subst r. simpl in Hn. congruence.
Qed.

Lemma send_telegram_skips n : keeps (skipping n) send_telegram.
Proof.
  apply skipping_of_at. intros L. unfold send_telegram.
  keeps_with skip_atom.
Qed.

Lemma discover_skips e n : keeps (skipping n) (discover e).
Proof.
  unfold discover, search_new_messages.
  apply keeps_bind; [apply keeps_gets|]. intros seen_ids.
  apply keeps_bind.
  { apply skipping_of_at. intros L.
    apply keeps_try_except.
    - apply keeps_bind; [skip_atom|]. intros ids.
      apply scan_messages_skips.
    - intros ex. keeps_with skip_atom. }
  intros new_msgs. apply keeps_bind.
  { apply keeps_for_each. intros m _. apply note_message_skips. }
  intros _. apply skipping_of_at. intros L. keeps_with skip_atom.
Qed.

Lemma load_files_skips d df n :
  cases_xlsx d = Some df → done_in n df →
  hoare (untouched n) (load_files d) (skipping n).
Proof.
  intros Hd Hdone s [Hq Hh]. unfold load_files, ensure_cases_excel.
  rewrite Hd. split; [split|]; assumption.
Qed.

Lemma skipping_untouched n s : skipping n s → untouched n s.
Proof. by intros [Hu _]. Qed.

Lemma process_untouched e d df n :
  cases_xlsx d = Some df → done_in n df →
  keeps (untouched n) (process e d).
Proof.
  intros Hd Hdone. unfold process.
  apply keeps_bind; [apply keeps_lift|]. intros _.
  eapply hoare_bind; [by eapply load_files_skips| |apply skipping_untouched].
  intros _.
  eapply hoare_weaken; [|intros s Hs; exact Hs|apply skipping_untouched].
  apply keeps_bind; [apply discover_skips|]. intros _.
  apply keeps_bind; [apply keeps_lift|]. intros _.
  apply keeps_bind; [apply process_cases_skips|]. intros _.
  apply send_telegram_skips.
Qed.

(** The table in the files after the writes of innocent events *)
Lemma disk_after_done n tr : ∀ d df,
  cases_xlsx d = Some df → done_in n df → Forall (innocent n) tr →
  ∃ df', cases_xlsx (disk_after d tr) = Some df' ∧ done_in n df'.
Proof.
  unfold disk_after.
  induction tr as [|ev tr IH]; intros d df Hd Hdone Htr; simpl.
  - eauto.
  - apply Forall_cons in Htr as [(_ & Hsave & _) Htr].
    destruct ev as [w ev]. unfold stored at 2. simpl in *.
    destruct ev; by eapply IH; eauto.
Qed.

Lemma run_untouched e d df n :
  cases_xlsx d = Some df → done_in n df →
  Forall (innocent n) (run e d).1.2
  ∧ ∃ df', cases_xlsx (run e d).2 = Some df' ∧ done_in n df'.
Proof.
  intros Hd Hdone. unfold run.
  pose proof (process_untouched e d df n Hd Hdone init_state) as Hp.
  destruct (process e d init_state) as [r s]. simpl in *.
  destruct Hp as [Hq _].
  - split; [constructor | discriminate].
  - split; [exact Hq|]. by eapply disk_after_done.
Qed.

Lemma innocent_quiet n tr : Forall (innocent n) tr → quiet n tr.
Proof. intros Hi. eapply Forall_impl; [exact Hi|]. by intros ev [Hq _]. Qed.

(** C4.  When the case [n] is done in the table of the files, then in
    every run and in every run after it, whatever the services answer,
    nothing is done for [n]: no service is called while [n] is in hand, so
    no document of [n] is fetched, no row of [n] is appended to the sheet,
    no state of [n] is updated, and [n] stays done in the table. *)
Theorem done_case_is_skipped (es : list env) (d : disk) (df : list row)
    (n : Z) :
  cases_xlsx d = Some df → done_in n df →
  Forall (λ tr,
    quiet n tr
    ∧ (∀ w id name, (w, EDownload id name) ∈ tr → w ≠ Some n)
    ∧ (∀ w values, (w, EAppendRow values) ∈ tr →
         w ≠ Some n ∧ values !! 3%nat ≠ Some (CInt n))
    ∧ (∀ df', (None, ESaveExcel df') ∈ tr → done_in n df'))
    (run_all es d).
Proof.
  revert d df. induction es as [|e es IH]; intros d df Hd Hdone; simpl.
  - constructor.
  - destruct (run_untouched e d df n Hd Hdone) as (Hi & df' & Hd' & Hdone').
    destruct (run e d) as [[r tr] d']. simpl in *.
    constructor; [|by eapply IH].
    rewrite Forall_forall in Hi.
    split; [apply innocent_quiet; by apply Forall_forall|].
    split; [|split].
    + intros w id name Hin ->. apply Hi in Hin as [Hq _].
      apply Hq. by left.
    + intros w values Hin. apply Hi in Hin as (Hq & _ & Hap). split.
      * intros ->. apply Hq. by left.
      * by apply Hap.
    + intros df0 Hin. apply Hi in Hin as (_ & Hs & _). by apply Hs.
Qed.

End WithUnicode.

Lemma done_case_is_skipped_witness :
  Forall (quiet 12345)
    (run_all (H := Tables.ascii_tables) [Samples.services; Samples.services]
       Samples.done_disk).
Proof.
  eapply Forall_impl;
    [eapply (done_case_is_skipped (H := Tables.ascii_tables)
               [Samples.services; Samples.services] Samples.done_disk _ 12345)
    |].
  - reflexivity.
  - split.
    + vm_compute. left.
    + intros r Hr _. apply list_elem_of_singleton in Hr. by subst r.
  - by intros tr [Hq _].
Defined.

(** *** When the files are written *)

Lemma bind_eq {A B} (m : M A) (f : A → M B) s a s' :
  m s = (Return a, s') → (m ≫= f) s = f a s'.
Proof. intros Hm. unfold mbind, M_bind. by rewrite Hm. Qed.

Lemma total_ret {A} (a : A) : total (mret a).
Proof. intros s. by exists a. Qed.

Lemma total_gets {A} (f : rstate → A) : total (gets f).
Proof. intros s. by exists (f s). Qed.

Lemma total_modify f : total (modify f).
Proof. intros s. by exists (). Qed.

Lemma total_bind {A B} (m : M A) (f : A → M B) :
  total m → (∀ a, total (f a)) → total (m ≫= f).
Proof.
  intros Hm Hf s. destruct (Hm s) as [a Ha].
  destruct (m s) as [r s'] eqn:E. simpl in Ha. subst r.
  rewrite (bind_eq _ _ _ _ _ E). apply Hf.
Qed.

Lemma total_try_except {A} (m : M A) (h : exn → M A) :
  (∀ e, total (h e)) → total (try_except m h).
Proof.
  intros Hh s. unfold try_except. destruct (m s) as [[a|e] s'].
  - by exists a.
  - apply Hh.
Qed.

Lemma total_for_each {A} (f : A → M unit) (l : list A) :
  (∀ a, total (f a)) → total (for_each f l).
Proof.
  intros Hf. induction l as [|a l IH]; simpl.
  - apply total_ret.
  - apply total_bind; [apply Hf | intros _; apply IH].
Qed.

Lemma total_eq (m : M unit) s : total m → ∃ s', m s = (Return (), s').
Proof.
  intros Hm. destruct (Hm s) as [[] Ha]. destruct (m s) as [r s'].
  simpl in Ha. subst r. by exists s'.
Qed.

Ltac total_with :=
  repeat first
    [ apply total_ret | apply total_gets | apply total_modify
    | apply total_bind; [|intros ?]
    | apply total_try_except; intros ?
    | apply total_for_each; intros ?
    | match goal with
      | |- total (match ?x with _ => _ end) => destruct x
      end ].

Section Within.
Context (n : Z) (t0 : list (option Z * event)).

Lemma within_set_df f : keeps (within_case n t0) (set_df f).
Proof. intros s Hs. exact Hs. Qed.

Lemma within_set_flags f : keeps (within_case n t0) (set_flags f).
Proof. intros s Hs. exact Hs. Qed.

Lemma within_log l : keeps (within_case n t0) (log l).
Proof. intros s Hs. exact Hs. Qed.

Lemma within_emit ev :
  (∀ w, is_save (w, ev) = false) → keeps (within_case n t0) (emit ev).
Proof.
  intros Hev s [Hh (evs & Ht & Hall)]. split; [exact Hh|].
  exists (evs ++ [(in_hand s, ev)]). simpl. split.
  - by rewrite Ht, app_assoc.
  - apply Forall_app. split; [exact Hall|].
    constructor; [apply Hev|constructor].
Qed.

Lemma within_call {A} ev (r : result A) :
  (∀ w, is_save (w, ev) = false) → keeps (within_case n t0) (call ev r).
Proof.
  intros. unfold call. apply keeps_bind; [by apply within_emit|].
  intros _. apply keeps_lift.
Qed.

End Within.

Ltac within_atom :=
  first
    [ apply within_set_df | apply within_set_flags | apply within_log
    | apply within_call; solve [intros ?; reflexivity]
    | apply within_emit; solve [intros ?; reflexivity] ].

Lemma disk_after_snoc d tr ev :
  disk_after d (tr ++ [ev]) = stored (disk_after d tr) ev.
Proof. unfold disk_after. by rewrite foldl_app. Qed.

Lemma synced_after_saves d s t w1 w2 :
  trace s = t ++ [(w1, ESaveExcel (cases_df s)); (w2, ESaveSeen (seen s))] →
  synced d s.
Proof.
  intros Ht. unfold synced, disk_after. rewrite Ht, foldl_app. reflexivity.
Qed.

Lemma synced_emit d ev :
  (∀ w, is_save (w, ev) = false) → keeps (synced d) (emit ev).
Proof.
  intros Hev s Hs. unfold synced in *. simpl.
  rewrite disk_after_snoc, Hs. specialize (Hev (in_hand s)).
  unfold is_save in Hev. unfold stored. simpl in *. by destruct ev.
Qed.

Lemma bind_gets {A B} (g : rstate → A) (f : A → M B) s :
  (gets g ≫= f) s = f (g s) s.
Proof. reflexivity. Qed.

Lemma bind_modify {B} g (f : unit → M B) s :
  (modify g ≫= f) s = f () (g s).
Proof. reflexivity. Qed.

Lemma bind_call {A B} ev (r : result A) (f : A → M B) s :
  (call ev r ≫= f) s =
  match r with
  | Return a => f a (emit ev s).2
  | Raise ex => (Raise ex, (emit ev s).2)
  end.
Proof. by destruct r. Qed.

Lemma bind_lift {A B} (r : result A) (f : A → M B) s :
  (lift r ≫= f) s =
  match r with Return a => f a s | Raise ex => (Raise ex, s) end.
Proof. by destruct r. Qed.

Section Saving.
Context `{Unicode}.

Lemma case_body_within e idx n t0 h :
  (∀ ex, keeps (within_case n t0) (h ex)) →
  keeps (within_case n t0) (try_except (acquire_case e idx n) h).
Proof.
  intros Hh. apply keeps_try_except; [|exact Hh].
  unfold acquire_case, file_case, find_case_folder, find_latest_pdf,
    download_pdf, set_status.
  keeps_with within_atom.
Qed.

Lemma load_files_total d : total (load_files d).
Proof. unfold load_files, ensure_cases_excel. total_with. Qed.

Lemma note_message_total m : total (note_message m).
Proof. destruct m as [msg_id inv_no]. unfold note_message. total_with. Qed.

Lemma discover_synced e d s :
  ∃ s', discover e s = (Return (), s') ∧ synced d s'.
Proof.
  unfold discover. rewrite bind_gets.
  set (find := try_except _ _).
  assert (Hfind : total find) by (unfold find; total_with).
  destruct (Hfind s) as [new_msgs Hn].
  destruct (find s) as [r1 s1] eqn:E1. simpl in Hn. subst r1.
  rewrite (bind_eq _ _ _ _ _ E1).
  destruct (total_eq (for_each note_message new_msgs) s1) as [s2 E2].
  { apply total_for_each, note_message_total. }
  rewrite (bind_eq _ _ _ _ _ E2).
  eexists. split; [reflexivity|].
  eapply synced_after_saves. simpl. rewrite <- app_assoc. reflexivity.
Qed.

Lemma process_row_saves e idx r s :
  ∃ s', process_row e (idx, r) s = (Return (), s')
    ∧ (r_status r = READY → s' = s)
    ∧ (r_status r ≠ READY → ∃ evs,
         trace s' = trace s ++ evs ++
           [(Some (r_invoice_number r), ESaveExcel (cases_df s'));
            (Some (r_invoice_number r), ESaveSeen (seen s'))]
         ∧ Forall (λ ev, is_save ev = false) evs).
Proof.
  unfold process_row.
  destruct (str_eqb (r_status r) READY) eqn:E.
  { exists s. split; [reflexivity|]. split; [done|].
    intros Hne. apply bool_decide_eq_true in E. done. }
  apply str_eqb_false in E.
  set (n := r_invoice_number r).
  match goal with
  | |- context [try_finally ?m ?f] => set (body := m); set (fin := f)
  end.
  unfold set_in_hand, set_flags. rewrite bind_modify, bind_gets, bind_modify.
  match goal with
  | |- context [try_finally body fin ?x] => set (s1 := x)
  end.
  assert (Hin : within_case n (trace s) s1).
  { split; [reflexivity|]. exists []. split; [by rewrite app_nil_r|constructor]. }
  assert (Hbody : keeps (within_case n (trace s)) body).
  { apply case_body_within. intros ex. unfold set_status.
    keeps_with within_atom. }
  assert (Htot : total body) by (unfold body, set_status; total_with).
  apply Hbody in Hin. destruct (total_eq body s1 Htot) as [s2 E2].
  rewrite E2 in Hin. simpl in Hin. destruct Hin as (Hh & evs & Ht & Hall).
  unfold try_finally. rewrite E2. unfold fin.
  eexists. split; [simpl; reflexivity|]. split; [done|].
  intros _. exists evs. simpl. rewrite Hh, Ht. split; [|exact Hall].
  by rewrite <- !app_assoc.
Qed.

Lemma process_row_synced e d ir : keeps (synced d) (process_row e ir).
Proof.
  destruct ir as [idx r]. intros s Hs.
  destruct (process_row_saves e idx r s) as (s' & -> & Hdone & Hsave).
  simpl. destruct (decide (r_status r = READY)) as [Hr|Hr].
  - by rewrite (Hdone Hr).
  - destruct (Hsave Hr) as (evs & Ht & _).
    eapply synced_after_saves. rewrite app_assoc in Ht. exact Ht.
Qed.

Lemma send_telegram_synced d : keeps (synced d) send_telegram.
Proof.
  unfold send_telegram. apply keeps_bind; [apply keeps_gets|].
  intros [|l lg]; [apply keeps_ret|]. by apply synced_emit.
Qed.

Lemma process_synced e d :
  load_parser e = Return () → synced d (process e d init_state).2.
Proof.
  intros Hp. unfold process.
  assert (E0 : lift (load_parser e) init_state = (Return (), init_state))
    by (unfold lift; by rewrite Hp).
  rewrite (bind_eq _ _ _ _ _ E0).
  destruct (total_eq _ init_state (load_files_total d)) as [s1 E1].
  rewrite (bind_eq _ _ _ _ _ E1).
  destruct (discover_synced e d s1) as (s2 & E2 & Hs).
  rewrite (bind_eq _ _ _ _ _ E2).
  clear E2. revert s2 Hs.
  change (keeps (synced d)
    (lift (drive_auth e) ;; process_cases e ;; send_telegram)).
  apply keeps_bind; [apply keeps_lift|]. intros _.
  apply keeps_bind; [|intros _; apply send_telegram_synced].
  unfold process_cases. apply keeps_bind; [apply keeps_gets|]. intros df.
  apply keeps_for_each. intros ir _. apply process_row_synced.
Qed.

(** C8, as the script does it.  The two files are written at the end of
    the search of the messages, whatever it found, and at the end of the
    turn of each case that is not done, whether the turn succeeded or
    failed, and not in between: the search always ends with the files
    holding what is in memory; a turn always ends normally, does nothing
    for a case that is done, and otherwise writes the two files once, as
    its last step, with what is in memory then; and a run that has its
    parser ends with the files holding what is in memory. *)
Theorem saved_after_search_and_each_case (e : env) (d : disk) :
  (∀ s, ∃ s', (load_files d ;; discover e) s = (Return (), s') ∧ synced d s')
  ∧ (∀ idx r s, ∃ s',
       process_row e (idx, r) s = (Return (), s')
       ∧ (r_status r = READY → s' = s)
       ∧ (r_status r ≠ READY → ∃ evs,
            trace s' = trace s ++ evs ++
              [(Some (r_invoice_number r), ESaveExcel (cases_df s'));
               (Some (r_invoice_number r), ESaveSeen (seen s'))]
            ∧ Forall (λ ev, is_save ev = false) evs)
       ∧ (synced d s → synced d s'))
  ∧ (load_parser e = Return () → synced d (process e d init_state).2).
Proof.
  split; [|split].
  - intros s. destruct (total_eq _ s (load_files_total d)) as [s1 E1].
    rewrite (bind_eq _ _ _ _ _ E1). apply discover_synced.
  - intros idx r s.
    pose proof (process_row_synced e d (idx, r) s) as Hk.
    destruct (process_row_saves e idx r s) as (s' & E & Hdone & Hsave).
    rewrite E in Hk. exists s'. split_and!; auto.
  - apply process_synced.
Qed.

End Saving.

Import Tables Samples.

Lemma saved_after_search_and_each_case_witness :
  synced first_run_disk
    (process (H := ascii_tables) services first_run_disk init_state).2.
Proof.
  apply (saved_after_search_and_each_case (H := ascii_tables) services
           first_run_disk).
  reflexivity.
Defined.

Lemma transitions_without_save_counterexample :
  unsaved_transitions false
    (run (H := ascii_tables) services first_run_disk).1.2 = true.
Proof. vm_compute. reflexivity. Qed.

(** *** The messages that are seen *)

Section Seen.
Context (P : str → Prop).

Lemma seen_set_df f : keeps (seen_within P) (set_df f).
Proof. intros s Hs. exact Hs. Qed.

Lemma seen_set_flags f : keeps (seen_within P) (set_flags f).
Proof. intros s Hs. exact Hs. Qed.

Lemma seen_log l : keeps (seen_within P) (log l).
Proof. intros s Hs. exact Hs. Qed.

Lemma seen_set_in_hand o : keeps (seen_within P) (set_in_hand o).
Proof. intros s Hs. exact Hs. Qed.

Lemma seen_emit ev :
  (∀ sd, ev = ESaveSeen sd → ∀ id, id ∈ messages sd → P id) →
  keeps (seen_within P) (emit ev).
Proof.
  intros Hev s (Hm & Hs & Ht). split_and!; simpl; auto.
  apply Forall_app. split; [exact Ht|]. constructor; [exact Hev|constructor].
Qed.

Lemma seen_call {A} ev (r : result A) :
  (∀ sd, ev ≠ ESaveSeen sd) → keeps (seen_within P) (call ev r).
Proof.
  intros Hev. unfold call. apply keeps_bind; [|intros _; apply keeps_lift].
  apply seen_emit. intros sd Hsd. by apply Hev in Hsd.
Qed.

Lemma seen_save_cases_excel : keeps (seen_within P) save_cases_excel.
Proof. intros s Hs. by apply (seen_emit (ESaveExcel (cases_df s))). Qed.

Lemma seen_save_seen : keeps (seen_within P) save_seen.
Proof.
  intros s Hs. apply (seen_emit (ESaveSeen (seen s))); [|exact Hs].
  intros sd [= <-]. apply Hs.
Qed.

Lemma seen_set_seen f :
  (∀ sd, messages (f sd) = messages sd) → keeps (seen_within P) (set_seen f).
Proof.
  intros Hf s (Hm & Hs & Ht). split_and!; simpl; auto.
  intros id. rewrite Hf. apply Hs.
Qed.

Lemma seen_add id :
  P id → keeps (seen_within P) (set_seen_msgs (λ sm, sm ∪ {[ id ]})).
Proof.
  intros Hid s (Hm & Hs & Ht). split_and!; simpl; auto.
  intros id' [Hin| ->%elem_of_singleton]%elem_of_union; auto.
Qed.

Lemma seen_list_messages :
  keeps (seen_within P)
    (sm ← gets seen_msgs;
     set_seen (λ sd, SeenData (elements sm) (cases sd)) ;;
     save_seen).
Proof.
  intros s (Hm & Hs & Ht).
  assert (Hel : ∀ id, id ∈ elements (seen_msgs s) → P id)
    by (intros id Hin; apply Hm; by apply elem_of_elements).
  split_and!; simpl; auto.
  apply Forall_app. split; [exact Ht|].
  constructor; [|constructor]. by intros sd [= <-].
Qed.

Lemma seen_on_within d tr :
  (∀ id, id ∈ seen_on d → P id) →
  Forall (λ ev, ∀ sd, ev.2 = ESaveSeen sd → ∀ id, id ∈ messages sd → P id)
    tr →
  ∀ id, id ∈ seen_on (disk_after d tr) → P id.
Proof.
  unfold disk_after. revert d.
  induction tr as [|ev tr IH]; intros d Hd Htr; simpl; [exact Hd|].
  apply Forall_cons in Htr as [Hev Htr]. apply IH; [|exact Htr].
  destruct ev as [w ev]. unfold stored, seen_on. simpl in *.
  destruct ev; try exact Hd. simpl. by apply Hev.
Qed.

End Seen.

Ltac seen_atom :=
  first
    [ apply seen_set_df | apply seen_set_flags | apply seen_log
    | apply seen_set_in_hand | apply seen_save_cases_excel
    | apply seen_save_seen
    | apply seen_set_seen; solve [intros ?; reflexivity]
    | apply seen_call; solve [intros ? [=]]
    | apply seen_emit; solve [intros ? [=]] ].

Section Fetched.
Context (id : str).

Lemma fetched_modify f :
  (∀ s, trace (f s) = trace s) → keeps (fetched id) (modify f).
Proof. intros Hf s [w Hw]. exists w. simpl. by rewrite Hf. Qed.

Lemma fetched_emit ev : keeps (fetched id) (emit ev).
Proof. intros s [w Hw]. exists w. simpl. apply elem_of_app. by left. Qed.

Lemma fetched_call {A} ev (r : result A) : keeps (fetched id) (call ev r).
Proof.
  unfold call. apply keeps_bind; [apply fetched_emit|].
  intros _. apply keeps_lift.
Qed.

Lemma fetched_save_cases_excel : keeps (fetched id) save_cases_excel.
Proof. intros s Hs. by apply (fetched_emit (ESaveExcel (cases_df s))). Qed.

Lemma fetched_save_seen : keeps (fetched id) save_seen.
Proof. intros s Hs. by apply (fetched_emit (ESaveSeen (seen s))). Qed.

End Fetched.

Ltac fetched_atom :=
  first
    [ apply fetched_save_cases_excel | apply fetched_save_seen
    | apply fetched_call | apply fetched_emit
    | apply fetched_modify; solve [intros ?; reflexivity] ].

Section Discovery.
Context `{Unicode}.

(** The group of the pattern is eight digits, which [int] reads. *)
Lemma approved_int text m :
  search RE_APPROVED text = Some m → ∃ k, int (group m 1) = Return k.
Proof.
  intros (pre & nx & _ & _ & Hm & _)%ReFacts.search_some.
  unfold RE_APPROVED in Hm. simpl seq_of in Hm.
  InvoiceFacts.inv_matches.
  match goal with
  | Hg : <[1%nat:=?w]> _ = m_groups m,
    Hall : Forall _ ?w, Hlo : (8 <= length ?w)%nat |- _ =>
      revert Hg Hall Hlo; generalize w
  end.
  intros dg Hg Hall Hlo.
  unfold group. rewrite <- Hg, lookup_insert_eq. simpl.
  exists (int_of_digits dg). unfold int.
  assert (Hne : dg ≠ []) by (intros ->; simpl in Hlo; lia).
  rewrite bool_decide_eq_false_2 by exact Hne. simpl.
  assert (Hd : forallb isdigit dg = true).
  { apply forallb_forall. intros c Hc. apply list_elem_of_In in Hc.
    rewrite Forall_forall in Hall. by apply Hall. }
  by rewrite Hd.
Qed.

Lemma scan_messages_seen P e seen_ids ids : ∀ results,
  keeps (seen_within P) (scan_messages e seen_ids ids results).
Proof.
  induction ids as [|msg_id ids IH]; intros results; simpl.
  - apply keeps_ret.
  - destruct (bool_decide (msg_id ∈ seen_ids)); [apply IH|].
    apply keeps_bind; [seen_atom|]. intros full.
    destruct (search RE_APPROVED (message_text full)); [|apply IH].
    apply keeps_bind; [apply keeps_lift|]. intros k. apply IH.
Qed.

Lemma scan_messages_fetched id e seen_ids ids : ∀ results,
  keeps (fetched id) (scan_messages e seen_ids ids results).
Proof.
  induction ids as [|msg_id ids IH]; intros results; simpl.
  - apply keeps_ret.
  - destruct (bool_decide (msg_id ∈ seen_ids)); [apply IH|].
    apply keeps_bind; [fetched_atom|]. intros full.
    destruct (search RE_APPROVED (message_text full)); [|apply IH].
    apply keeps_bind; [apply keeps_lift|]. intros k. apply IH.
Qed.

(** What the loop adds to its results is a fetched message that carries
    the pattern. *)
Lemma scan_messages_approved e seen_ids ids : ∀ results s l s',
  scan_messages e seen_ids ids results s = (Return l, s') →
  ∀ x, x ∈ l →
    x ∈ results
    ∨ (x.1 ∈ ids ∧ ∃ full m, gmail_get e x.1 = Return full
         ∧ search RE_APPROVED (message_text full) = Some m).
Proof.
  induction ids as [|msg_id ids IH]; intros results s l s' Hrun x Hx;
    simpl in Hrun.
  - injection Hrun as <- <-. by left.
  - destruct (bool_decide (msg_id ∈ seen_ids)).
    { destruct (IH _ _ _ _ Hrun x Hx) as [Hr|[Hin Hap]]; [by left|].
      right. split; [by right|exact Hap]. }
    rewrite bind_call in Hrun.
    destruct (gmail_get e msg_id) as [full|ex] eqn:Eg; [|discriminate].
    destruct (search RE_APPROVED (message_text full)) as [m|] eqn:Em.
    + rewrite bind_lift in Hrun.
      destruct (int (group m 1)) as [k|ex]; [|discriminate].
      destruct (IH _ _ _ _ Hrun x Hx) as [Hr|[Hin Hap]].
      * apply elem_of_app in Hr as [Hr| ->%list_elem_of_singleton];
          [by left|].
        right. simpl. split; [by left|eauto].
      * right. split; [by right|exact Hap].
    + destruct (IH _ _ _ _ Hrun x Hx) as [Hr|[Hin Hap]]; [by left|].
      right. split; [by right|exact Hap].
Qed.

(** A listed message that is not seen is fetched, when the fetches
    succeed. *)
Lemma scan_messages_fetches id e seen_ids ids : ∀ results s,
  id ∈ ids → id ∉ seen_ids →
  (∀ id', id' ∈ ids → ∃ full, gmail_get e id' = Return full) →
  fetched id (scan_messages e seen_ids ids results s).2.
Proof.
  induction ids as [|msg_id ids IH]; intros results s Hin Hns Hget.
  { by apply elem_of_nil in Hin. }
  destruct (decide (msg_id = id)) as [->|Hne].
  - simpl. rewrite bool_decide_eq_false_2 by exact Hns.
    rewrite bind_call. destruct (Hget id Hin) as [full ->].
    match goal with
    | |- fetched id (?m ?s1).2 =>
        assert (Hk : keeps (fetched id) m); [|apply Hk]
    end.
    + destruct (search RE_APPROVED (message_text full)).
      * apply keeps_bind; [apply keeps_lift|]. intros k.
        apply scan_messages_fetched.
      * apply scan_messages_fetched.
    + exists (in_hand s). simpl. apply elem_of_app. right. left.
  - apply elem_of_cons in Hin as [Heq|Hin]; [congruence|].
    assert (Hget' : ∀ id', id' ∈ ids → ∃ full, gmail_get e id' = Return full)
      by (intros id' Hid; apply Hget; by right).
    simpl. destruct (bool_decide (msg_id ∈ seen_ids)); [by apply IH|].
    rewrite bind_call. destruct (Hget msg_id) as [full ->]; [left|].
    destruct (search RE_APPROVED (message_text full)) as [m|] eqn:Em;
      [|by apply IH].
    destruct (approved_int _ _ Em) as [k Hk].
    rewrite bind_lift, Hk. by apply IH.
Qed.

Lemma note_message_seen P m : P m.1 → keeps (seen_within P) (note_message m).
Proof.
  destruct m as [msg_id inv_no]. intros Hm. unfold note_message.
  keeps_with ltac:(first [seen_atom | by apply seen_add]).
Qed.

Lemma find_messages_seen P e seen_ids h :
  (∀ ex, keeps (seen_within P) (h ex)) →
  keeps (seen_within P) (try_except (search_new_messages e seen_ids) h).
Proof.
  intros Hh. apply keeps_try_except; [|exact Hh].
  unfold search_new_messages. apply keeps_bind; [seen_atom|].
  intros ids. apply scan_messages_seen.
Qed.

(** The messages that the search answers carry the pattern. *)
Lemma find_messages_approved e seen_ids ex_log s l s' :
  try_except (search_new_messages e seen_ids)
    (λ ex, log (ex_log ex) ;; mret []) s = (Return l, s') →
  ∀ x, x ∈ l → approved e x.1.
Proof.
  unfold try_except, search_new_messages. rewrite bind_call.
  destruct (gmail_list e) as [ids|ex] eqn:El.
  - destruct (scan_messages _ _ _ _ _) as [[l'|ex] s1] eqn:E.
    + intros [= <- <-] x Hx.
      destruct (scan_messages_approved _ _ _ _ _ _ _ E x Hx)
        as [Hr|(Hin & full & m & Hg & Hm)].
      * by apply elem_of_nil in Hr.
      * by exists ids, full, m.
    + intros [= <- <-] x Hx. by apply elem_of_nil in Hx.
  - intros [= <- <-] x Hx. by apply elem_of_nil in Hx.
Qed.

Lemma discover_seen (P : str → Prop) e :
  (∀ id, approved e id → P id) → keeps (seen_within P) (discover e).
Proof.
  intros HP s Hs. unfold discover. rewrite bind_gets.
  set (find := try_except _ _).
  assert (Hk : keeps (seen_within P) find).
  { apply find_messages_seen. intros ex. keeps_with seen_atom. }
  specialize (Hk s Hs).
  destruct (find s) as [[l|ex] s1] eqn:E1; simpl in Hk.
  - rewrite (bind_eq _ _ _ _ _ E1).
    pose proof (find_messages_approved _ _ _ _ _ _ E1) as Hl.
    revert Hk. generalize s1.
    change (keeps (seen_within P)
      (for_each note_message l ;; save_cases_excel ;;
       sm ← gets seen_msgs;
       set_seen (λ sd, SeenData (elements sm) (cases sd)) ;;
       save_seen)).
    apply keeps_bind.
    { apply keeps_for_each. intros m Hm. apply note_message_seen, HP, Hl, Hm. }
    intros _. apply keeps_bind; [seen_atom|]. intros _.
    apply seen_list_messages.
  - unfold mbind, M_bind. by rewrite E1.
Qed.

Lemma process_cases_seen P e : keeps (seen_within P) (process_cases e).
Proof.
  unfold process_cases. apply keeps_bind; [apply keeps_gets|]. intros df.
  apply keeps_for_each. intros [idx r] _.
  unfold process_row, acquire_case, file_case, find_case_folder,
    find_latest_pdf, download_pdf, set_status.
  keeps_with seen_atom.
Qed.

Lemma messages_load_seen d : messages (load_seen d) = seen_on d.
Proof. unfold load_seen, seen_on. by destruct (seen_json d). Qed.

Lemma load_files_seen (P : str → Prop) d :
  (∀ id, id ∈ seen_on d → P id) → keeps (seen_within P) (load_files d).
Proof.
  intros Hd s (Hm & Hs & Ht). unfold load_files, ensure_cases_excel.
  assert (Hl : ∀ id, id ∈ messages (load_seen d) → P id)
    by (intros id; rewrite messages_load_seen; apply Hd).
  assert (Hl' : ∀ id,
    id ∈ (list_to_set (messages (load_seen d)) : gset str) → P id)
    by (intros id Hin; apply Hl; by apply elem_of_list_to_set in Hin).
  destruct (cases_xlsx d); simpl; split_and!; auto.
  apply Forall_app. split; [exact Ht|].
  constructor; [|constructor]. intros sd [=].
Qed.

Lemma process_seen (P : str → Prop) e d :
  (∀ id, id ∈ seen_on d → P id) → (∀ id, approved e id → P id) →
  keeps (seen_within P) (process e d).
Proof.
  intros Hd HP. unfold process.
  apply keeps_bind; [apply keeps_lift|]. intros _.
  apply keeps_bind; [by apply load_files_seen|]. intros _.
  apply keeps_bind; [by apply discover_seen|]. intros _.
  apply keeps_bind; [apply keeps_lift|]. intros _.
  apply keeps_bind; [apply process_cases_seen|]. intros _.
  unfold send_telegram. keeps_with seen_atom.
Qed.

(** After a run, a message that is seen in the files was seen before, or
    carries the pattern. *)
Lemma run_seen e d id :
  id ∈ seen_on (run e d).2 → id ∈ seen_on d ∨ approved e id.
Proof.
  unfold run.
  assert (Hp : keeps (seen_within (λ id, id ∈ seen_on d ∨ approved e id))
                 (process e d))
    by (apply process_seen; auto).
  specialize (Hp init_state).
  destruct (process e d init_state) as [r s]. simpl in *.
  destruct Hp as (_ & _ & Ht).
  { split_and!; simpl; [set_solver | set_solver | constructor]. }
  intros Hin.
  by apply (seen_on_within (λ id, id ∈ seen_on d ∨ approved e id) d
              (trace s)); auto.
Qed.

Lemma load_files_seen_ids d s :
  ∃ s', load_files d s = (Return (), s')
    ∧ seen_msgs s' = list_to_set (seen_on d)
    ∧ ∀ id, fetched id s → fetched id s'.
Proof.
  unfold load_files, ensure_cases_excel.
  destruct (cases_xlsx d); eexists; (split; [reflexivity|]); simpl;
    rewrite messages_load_seen; (split; [reflexivity|]); auto.
  intros id [w Hw]. exists w. simpl. apply elem_of_app. by left.
Qed.

Lemma process_cases_fetched id e : keeps (fetched id) (process_cases e).
Proof.
  unfold process_cases. apply keeps_bind; [apply keeps_gets|]. intros df.
  apply keeps_for_each. intros [idx r] _.
  unfold process_row, acquire_case, file_case, find_case_folder,
    find_latest_pdf, download_pdf, set_status.
  keeps_with fetched_atom.
Qed.

Lemma note_message_fetched id m : keeps (fetched id) (note_message m).
Proof.
  destruct m as [msg_id inv_no]. unfold note_message.
  keeps_with fetched_atom.
Qed.

(** A listed message without the pattern, not seen in the files, is
    fetched by the run. *)
Lemma run_fetches e d id :
  listed_unapproved e id → id ∉ seen_on d →
  ∃ w, (w, EGmailGet id) ∈ (run e d).1.2.
Proof.
  intros (Hp & ids & Hl & Hin & Hget & _) Hns. unfold run.
  change (fetched id (process e d init_state).2) with
    (∃ w, (w, EGmailGet id) ∈ trace (process e d init_state).2).
  destruct (process e d init_state) as [r s] eqn:E.
  change (fetched id (r, s).2). rewrite <- E. clear E r s.
  unfold process. rewrite bind_lift, Hp.
  destruct (load_files_seen_ids d init_state) as (s1 & E1 & Hs1 & _).
  rewrite (bind_eq _ _ _ _ _ E1).
  refine (hoare_bind (eq s1) (fetched id) (fetched id) _ _ _ _ _ s1 eq_refl).
  - intros s <-. unfold discover. rewrite bind_gets.
    refine (hoare_bind (eq s1) (fetched id) (fetched id) _ _ _ _ _ s1
              eq_refl).
    + intros s <-. unfold try_except, search_new_messages.
      rewrite bind_call, Hl.
      pose proof (scan_messages_fetches id e (seen_msgs s1) ids []
                    (emit EGmailList s1).2 Hin) as Hf.
      destruct (scan_messages _ _ _ _ _) as [[l|ex] s2]; apply Hf; auto;
        rewrite Hs1; by rewrite elem_of_list_to_set.
    + intros l. apply keeps_bind.
      { apply keeps_for_each. intros m _. apply note_message_fetched. }
      intros _. keeps_with fetched_atom.
    + auto.
  - intros _. apply keeps_bind; [apply keeps_lift|]. intros _.
    apply keeps_bind; [apply process_cases_fetched|]. intros _.
    unfold send_telegram. keeps_with fetched_atom.
  - auto.
Qed.

(** C10.  [seen.json] only receives messages that carry the pattern: a
    message that is seen in the files after runs was seen before them or
    was listed and fetched in one of them, and its subject and body carried
    [Approved case] and eight digits.  A listed message whose text does not
    carry the pattern is therefore never seen: each run in which it is
    listed fetches it again (as long as the script starts and the listed
    messages can be fetched). *)
Theorem seen_messages_carry_the_pattern (es : list env) (d : disk)
    (id : str) :
  (∀ id', id' ∈ seen_on (files_after es d) →
     id' ∈ seen_on d ∨ ∃ e, e ∈ es ∧ approved e id')
  ∧ (id ∉ seen_on d → Forall (λ e, listed_unapproved e id) es →
       Forall (λ tr, ∃ w, (w, EGmailGet id) ∈ tr) (run_all es d)
       ∧ id ∉ seen_on (files_after es d)).
Proof.
  split.
  - revert d. induction es as [|e es IH]; intros d id' Hin; simpl in *.
    { by left. }
    destruct (IH _ _ Hin) as [Hd|(e' & He' & Ha)].
    + destruct (run_seen _ _ _ Hd) as [Hd'|Ha]; [by left|].
      right. exists e. split; [left|exact Ha].
    + right. exists e'. split; [by right|exact Ha].
  - revert d. induction es as [|e es IH]; intros d Hns Hes; simpl.
    { split; [constructor|exact Hns]. }
    apply Forall_cons in Hes as [He Hes].
    pose proof (run_fetches e d id He Hns) as Hf.
    assert (Hns' : id ∉ seen_on (run e d).2).
    { intros [Hd|(ids & full & m & _ & _ & Hg & Hm)]%run_seen; [done|].
      destruct He as (_ & ids' & _ & _ & _ & full' & Hg' & Hm').
      congruence. }
    destruct (IH _ Hns' Hes) as [Hall Hlast].
    destruct (run e d) as [[r tr] d']. simpl in *.
    split; [by constructor|exact Hlast].
Qed.

End Discovery.

Lemma seen_messages_carry_the_pattern_witness :
  Forall (λ tr, ∃ w, (w, EGmailGet (lit "m2")) ∈ tr)
    (run_all (H := ascii_tables) [services; services] first_run_disk).
Proof.
  apply (seen_messages_carry_the_pattern (H := ascii_tables)
           [services; services] first_run_disk (lit "m2")).
  - intros Hin. by apply elem_of_nil in Hin.
  - assert (Hl : listed_unapproved (H := ascii_tables) services (lit "m2")).
    { split; [reflexivity|]. exists [lit "m1"; lit "m2"].
      split_and!; [reflexivity | right; left | by eexists |].
      eexists. split; [reflexivity|]. vm_compute. reflexivity. }
    constructor; [exact Hl|]. constructor; [exact Hl|constructor].
Defined.

End RunFacts.

Module RunFacts2.
Import Py Re MegaHelp RunWords RunFacts.

Lemma hoare_try_except {A} P Q (m : M A) (h : exn → M A) :
  hoare P m Q → (∀ ex, keeps Q (h ex)) → hoare P (try_except m h) Q.
Proof.
  intros Hm Hh s Hs. specialize (Hm s Hs). unfold try_except.
  destruct (m s) as [[a|ex] s']; simpl in *; [exact Hm|]. by apply Hh.
Qed.

Lemma hoare_try_finally {A} P Q (m : M A) (f : M unit) :
  hoare P m Q → keeps Q f → hoare P (try_finally m f) Q.
Proof.
  intros Hm Hf s Hs. specialize (Hm s Hs). unfold try_finally.
  destruct (m s) as [r s']. simpl in Hm. specialize (Hf s' Hm).
  by destruct (f s') as [[[]|ex] s''].
Qed.

Lemma hoare_then {A B} P Q (m : M A) (f : A → M B) :
  hoare P m Q → (∀ a, keeps Q (f a)) → hoare P (m ≫= f) Q.
Proof. intros Hm Hf. eapply hoare_bind; eauto. Qed.

Lemma hoare_after {A B} P Q (m : M A) (f : A → M B) :
  total m → keeps P m → (∀ a, hoare P (f a) Q) → hoare P (m ≫= f) Q.
Proof.
  intros Ht Hk Hf s Hs. destruct (Ht s) as [a Ha].
  specialize (Hk s Hs). destruct (m s) as [r s'] eqn:E. simpl in *.
  subst r. rewrite (bind_eq _ _ _ _ _ E). by apply Hf.
Qed.

(** *** Events that stay *)

Section Happened.
Context (ev : option Z * event).

Lemma happened_modify f :
  (∀ s, trace (f s) = trace s) → keeps (happened ev) (modify f).
Proof. intros Hf s Hs. unfold happened in *. simpl. by rewrite Hf. Qed.

Lemma happened_emit ev' : keeps (happened ev) (emit ev').
Proof. intros s Hs. unfold happened in *. simpl. apply elem_of_app. by left. Qed.

Lemma happened_call {A} ev' (r : result A) : keeps (happened ev) (call ev' r).
Proof.
  unfold call. apply keeps_bind; [apply happened_emit|].
  intros _. apply keeps_lift.
Qed.

Lemma happened_save_cases_excel : keeps (happened ev) save_cases_excel.
Proof. intros s Hs. by apply (happened_emit (ESaveExcel (cases_df s))). Qed.

Lemma happened_save_seen : keeps (happened ev) save_seen.
Proof. intros s Hs. by apply (happened_emit (ESaveSeen (seen s))). Qed.

Lemma happened_now w e' s : ev = (w, e') → in_hand s = w →
  happened ev (emit e' s).2.
Proof.
  intros -> <-. unfold happened. simpl. apply elem_of_app. right. left.
Qed.

End Happened.

Ltac happened_atom :=
  first
    [ apply happened_save_cases_excel | apply happened_save_seen
    | apply happened_call | apply happened_emit
    | apply happened_modify; solve [intros ?; reflexivity] ].

Lemma for_each_happens {A} ev (f : A → M unit) (l : list A) (a : A) :
  a ∈ l → (∀ b, total (f b)) → (∀ b, keeps (happened ev) (f b)) →
  (∀ s, happened ev (f a s).2) →
  ∀ s, happened ev (for_each f l s).2.
Proof.
  intros Hin Ht Hk Ha. induction l as [|b l IH]; intros s.
  { by apply elem_of_nil in Hin. }
  simpl. destruct (total_eq _ s (Ht b)) as [s' E].
  rewrite (bind_eq _ _ _ _ _ E).
  apply elem_of_cons in Hin as [->|Hin].
  - apply (keeps_for_each _ f l (λ b _, Hk b)).
    specialize (Ha s). by rewrite E in Ha.
  - by apply IH.
Qed.


Lemma fresh_NoDup known found :
  NoDup known → NoDup (known ++ fresh known found).
Proof.
  revert known. induction found as [|x found IH]; intros known Hn; simpl.
  { by rewrite app_nil_r. }
  destruct (bool_decide (x ∈ known)) eqn:E; [by apply IH|].
  apply bool_decide_eq_false in E.
  specialize (IH (known ++ [x])). rewrite <- app_assoc in IH. apply IH.
  apply NoDup_app. split_and!; [exact Hn| |apply NoDup_singleton].
  intros y Hy ->%list_elem_of_singleton. done.
Qed.

Lemma fresh_found known found : fresh known found ⊆ found.
Proof.
  revert known. induction found as [|x found IH]; intros known; simpl.
  { done. }
  destruct (bool_decide (x ∈ known)).
  - intros k Hk. right. by eapply IH.
  - intros k [->|Hk]%elem_of_cons; [left|right]. by eapply IH.
Qed.

Section WithUnicode.
Context `{Unicode}.

Lemma note_message_effect msg_id k s :
  ∃ s', note_message (msg_id, k) s = (Return (), s')
    ∧ cases_df s' =
        cases_df s ++ (waiting_row <$> fresh (numbers (cases_df s)) [k])
    ∧ seen_msgs s' = seen_msgs s ∪ {[ msg_id ]}
    ∧ messages (seen s') = messages (seen s)
    ∧ in_hand s' = in_hand s
    ∧ trace s' =
        trace s ++ ((λ k, (in_hand s, EState k TDiscovered))
                      <$> fresh (numbers (cases_df s)) [k])
    ∧ telegram_log s' = telegram_log s ++ [LFound k].
Proof.
  unfold note_message. rewrite bind_gets. simpl fresh.
  change (r_invoice_number <$> cases_df s) with (numbers (cases_df s)).
  destruct (bool_decide (k ∈ numbers (cases_df s))) eqn:E;
    eexists; (split; [reflexivity|]); simpl; rewrite ?app_nil_r;
    split_and!; reflexivity.
Qed.

Lemma fresh_app known found1 found2 :
  fresh known (found1 ++ found2) =
  fresh known found1 ++ fresh (known ++ fresh known found1) found2.
Proof.
  revert known. induction found1 as [|x found1 IH]; intros known; simpl.
  { by rewrite app_nil_r. }
  destruct (bool_decide (x ∈ known)); [apply IH|].
  rewrite IH. simpl. by rewrite <- app_assoc.
Qed.

(** What the first loop leaves: the rows of the new cases at the end of
    the table, the messages among the seen ones. *)
Lemma note_messages_effect (l : list (str * Z)) : ∀ s,
  ∃ s', for_each note_message l s = (Return (), s')
    ∧ cases_df s' =
        cases_df s ++ (waiting_row <$> fresh (numbers (cases_df s)) l.*2)
    ∧ seen_msgs s' = seen_msgs s ∪ list_to_set l.*1
    ∧ messages (seen s') = messages (seen s)
    ∧ in_hand s' = in_hand s
    ∧ trace s' =
        trace s ++ ((λ k, (in_hand s, EState k TDiscovered))
                      <$> fresh (numbers (cases_df s)) l.*2)
    ∧ telegram_log s' = telegram_log s ++ (LFound <$> l.*2).
Proof.
  induction l as [|[msg_id k] l IH]; intros s.
  { exists s. simpl. rewrite !app_nil_r. split_and!; auto.
    by rewrite (right_id_L ∅ (∪)). }
  simpl for_each.
  destruct (note_message_effect msg_id k s)
    as (s1 & E1 & Hdf1 & Hm1 & Hs1 & Hh1 & Ht1 & Hl1).
  rewrite (bind_eq _ _ _ _ _ E1).
  destruct (IH s1) as (s' & -> & Hdf & Hm & Hs & Hh & Ht & Hl).
  exists s'. split; [reflexivity|].
  change ((msg_id, k) :: l) with ([(msg_id, k)] ++ l).
  rewrite !fmap_app, fresh_app, fmap_app.
  change ([(msg_id, k)].*2) with [k]. change ([(msg_id, k)].*1) with [msg_id].
  assert (Hn : numbers (cases_df s1) =
               numbers (cases_df s) ++ fresh (numbers (cases_df s)) [k]).
  { rewrite Hdf1. unfold numbers. rewrite fmap_app, <- list_fmap_compose.
    f_equal. by rewrite list_fmap_id. }
  rewrite <- Hn.
  split_and!.
  - by rewrite Hdf, Hdf1, <- app_assoc.
  - rewrite Hm, Hm1, list_to_set_app_L, (assoc_L (∪)). simpl.
    by rewrite (right_id_L ∅ (∪)).
  - congruence.
  - congruence.
  - rewrite Ht, Ht1, Hh1, fmap_app, <- app_assoc. done.
  - rewrite Hl, Hl1, <- app_assoc. done.
Qed.

Lemma scan_messages_same_vars s0 e seen_ids ids : ∀ results,
  keeps (same_vars s0) (scan_messages e seen_ids ids results).
Proof.
  induction ids as [|msg_id ids IH]; intros results; simpl.
  - apply keeps_ret.
  - destruct (bool_decide (msg_id ∈ seen_ids)); [apply IH|].
    apply keeps_bind.
    { unfold call. apply keeps_bind; [|intros _; apply keeps_lift].
      intros s Hs. exact Hs. }
    intros full.
    destruct (search RE_APPROVED (message_text full)); [|apply IH].
    apply keeps_bind; [apply keeps_lift|]. intros k. apply IH.
Qed.

(** The search of the messages never fails; what it answers carries the
    pattern. *)
Lemma find_messages_effect e s :
  ∃ l s1,
    try_except (search_new_messages e (seen_msgs s))
      (λ ex, log (LGmailError (exn_msg ex)) ;; mret []) s = (Return l, s1)
    ∧ same_vars s s1 ∧ ∀ x, x ∈ l → approved e x.1.
Proof.
  set (find := try_except _ _).
  assert (Ht : total find) by (unfold find; total_with).
  assert (Hk : keeps (same_vars s) find).
  { unfold find, search_new_messages. apply keeps_try_except.
    - apply keeps_bind; [|intros ids; apply scan_messages_same_vars].
      unfold call. apply keeps_bind; [|intros _; apply keeps_lift].
      intros s' Hs'. exact Hs'.
    - intros ex. apply keeps_bind; [|intros _; apply keeps_ret].
      intros s' Hs'. exact Hs'. }
  destruct (Ht s) as [l Hl]. specialize (Hk s).
  destruct (find s) as [r s1] eqn:E. simpl in Hl. subst r.
  exists l, s1. split; [reflexivity|]. split.
  - apply Hk. by split_and!.
  - unfold find in E.
    exact (find_messages_approved e _ (λ ex, LGmailError (exn_msg ex))
             _ _ _ E).
Qed.

(** What the first part of a run leaves *)
Lemma discover_effect e s :
  ∃ l s', discover e s = (Return (), s')
    ∧ (∀ x, x ∈ l → approved e x.1)
    ∧ cases_df s' =
        cases_df s ++ (waiting_row <$> fresh (numbers (cases_df s)) l.*2)
    ∧ seen_msgs s' = seen_msgs s ∪ list_to_set l.*1
    ∧ messages (seen s') = elements (seen_msgs s')
    ∧ in_hand s' = in_hand s.
Proof.
  unfold discover. rewrite bind_gets.
  destruct (find_messages_effect e s)
    as (l & s1 & E1 & (Hdf1 & Hs1 & Hm1 & Hh1 & _) & Hl).
  rewrite (bind_eq _ _ _ _ _ E1).
  destruct (note_messages_effect l s1)
    as (s2 & E2 & Hdf2 & Hm2 & Hs2 & Hh2 & _).
  rewrite (bind_eq _ _ _ _ _ E2).
  exists l. eexists. split; [reflexivity|]. simpl.
  split_and!; [exact Hl|congruence|congruence|reflexivity|congruence].
Qed.

Lemma load_files_effect d s :
  ∃ s1, load_files d s = (Return (), s1)
    ∧ cases_df s1 = table_on d
    ∧ seen_msgs s1 = list_to_set (seen_on d)
    ∧ messages (seen s1) = seen_on d
    ∧ in_hand s1 = in_hand s
    ∧ telegram_log s1 = telegram_log s.
Proof.
  unfold load_files, ensure_cases_excel, table_on.
  destruct (cases_xlsx d); eexists; (split; [reflexivity|]); simpl;
    rewrite messages_load_seen; by split_and!.
Qed.

Lemma process_row_happened ev e ir : keeps (happened ev) (process_row e ir).
Proof.
  destruct ir as [idx r].
  unfold process_row, acquire_case, file_case, find_case_folder,
    find_latest_pdf, download_pdf, set_status.
  keeps_with happened_atom.
Qed.

(** The turn of a case that is not done starts with the search of its
    folder. *)
Lemma process_row_tries e idx r s :
  r_status r ≠ READY →
  happened (Some (r_invoice_number r),
            EFindFolder (format_08d (r_invoice_number r)))
    (process_row e (idx, r) s).2.
Proof.
  intros Hr. unfold process_row, str_eqb.
  rewrite bool_decide_eq_false_2 by exact Hr.
  set (n := r_invoice_number r).
  match goal with
  | |- context [try_finally ?m ?f] => set (body := m); set (fin := f)
  end.
  unfold set_in_hand, set_flags.
  rewrite bind_modify, bind_gets, bind_modify.
  match goal with
  | |- happened ?ev (try_finally body fin ?x).2 =>
      refine (hoare_try_finally (λ s, in_hand s = Some n) (happened ev)
                body fin _ _ x eq_refl)
  end; unfold body, fin.
  - apply hoare_try_except.
    + unfold acquire_case, find_case_folder.
      apply hoare_then.
      * apply hoare_then; [|intros files; apply keeps_ret].
        unfold call. apply hoare_then; [|intros _; apply keeps_lift].
        intros s' Hs'. by eapply happened_now.
      * intros folder.
        unfold file_case, find_latest_pdf, download_pdf, set_status.
        keeps_with happened_atom.
    + intros ex. unfold set_status. keeps_with happened_atom.
  - unfold save_cases_excel, save_seen. keeps_with happened_atom.
Qed.

Lemma discover_total e : total (discover e).
Proof.
  intros s. destruct (discover_synced e (Disk None None) s) as (s' & -> & _).
  by exists ().
Qed.

Lemma process_row_total e ir : total (process_row e ir).
Proof.
  destruct ir as [idx r]. intros s.
  destruct (process_row_saves e idx r s) as (s' & -> & _). by exists ().
Qed.

Lemma process_cases_total e : total (process_cases e).
Proof.
  unfold process_cases. apply total_bind; [apply total_gets|]. intros df.
  apply total_for_each. intros ir. apply process_row_total.
Qed.

Lemma send_telegram_total : total send_telegram.
Proof. unfold send_telegram, emit. total_with. Qed.

(** How a run ends, the two files being read and written without
    failure: as the loading of the parser and the building of the Drive
    service end. *)
Lemma run_outcome (e : env) (d : disk) :
  (run e d).1.1 = bind (load_parser e) (λ _, drive_auth e).
Proof.
  unfold run.
  destruct (process e d init_state) as [r s] eqn:E. simpl.
  revert E. unfold process. rewrite bind_lift.
  destruct (load_parser e) as [[]|ex]; simpl; [|by intros [= <- _]].
  destruct (total_eq _ init_state (load_files_total d)) as [s1 E1].
  rewrite (bind_eq _ _ _ _ _ E1).
  destruct (total_eq _ s1 (discover_total e)) as [s2 E2].
  rewrite (bind_eq _ _ _ _ _ E2), bind_lift.
  destruct (drive_auth e) as [[]|ex]; [|by intros [= <- _]].
  destruct (total_eq _ s2 (process_cases_total e)) as [s3 E3].
  rewrite (bind_eq _ _ _ _ _ E3).
  destruct (total_eq _ s3 send_telegram_total) as [s4 E4].
  rewrite E4. by intros [= <- _].
Qed.

Lemma discover_happened ev e : keeps (happened ev) (discover e).
Proof.
  unfold discover. apply keeps_bind; [apply keeps_gets|]. intros seen_ids.
  apply keeps_bind.
  { apply keeps_try_except; [|intros ex; keeps_with happened_atom].
    unfold search_new_messages. apply keeps_bind; [happened_atom|].
    intros ids. generalize (@nil (str * Z)).
    induction ids as [|msg_id ids IH]; intros results; simpl.
    - apply keeps_ret.
    - destruct (bool_decide (msg_id ∈ seen_ids)); [apply IH|].
      apply keeps_bind; [happened_atom|]. intros full.
      destruct (search RE_APPROVED (message_text full)); [|apply IH].
      apply keeps_bind; [apply keeps_lift|]. intros k. apply IH. }
  intros l. apply keeps_bind.
  { apply keeps_for_each. intros [msg_id k] _. unfold note_message.
    keeps_with happened_atom. }
  intros _. keeps_with happened_atom.
Qed.

(** The two files being read and written without failure, the folder of
    every case of the table that is not done is searched by a run that got
    its parser and its Drive service. *)
Lemma open_case_is_tried (e : env) (d : disk) (r : row) :
  load_parser e = Return () → drive_auth e = Return () →
  r ∈ table_on d → r_status r ≠ READY →
  (Some (r_invoice_number r), EFindFolder (format_08d (r_invoice_number r)))
    ∈ (run e d).1.2.
Proof.
  intros Hp Ha Hr Hst. unfold run.
  set (ev := (Some (r_invoice_number r), _)).
  change (happened ev (process e d init_state).2) with
    (ev ∈ trace (process e d init_state).2).
  destruct (process e d init_state) as [res s] eqn:E.
  change (happened ev (res, s).2). rewrite <- E. clear E res s.
  unfold process. rewrite bind_lift, Hp.
  destruct (load_files_effect d init_state) as (s1 & E1 & Hdf1 & _).
  rewrite (bind_eq _ _ _ _ _ E1).
  destruct (discover_effect e s1) as (l & s2 & E2 & _ & Hdf2 & _).
  rewrite (bind_eq _ _ _ _ _ E2), bind_lift, Ha.
  refine (hoare_then (eq s2) (happened ev) _ _ _ _ s2 eq_refl).
  - intros s <-. unfold process_cases. rewrite bind_gets.
    assert (Hin : r ∈ cases_df s2).
    { rewrite Hdf2, Hdf1. apply elem_of_app. by left. }
    apply list_elem_of_lookup in Hin as [idx Hidx].
    apply (for_each_happens ev _ _ (idx, r)).
    + apply list_elem_of_lookup. exists idx.
      by rewrite list_lookup_imap, Hidx.
    + intros ir. apply process_row_total.
    + intros ir. apply process_row_happened.
    + intros s. by apply process_row_tries.
  - intros _. unfold send_telegram. keeps_with happened_atom.
Qed.

(** *** The digest *)

Lemma silent_emit ev : (∀ w, is_telegram (w, ev) = false) →
  keeps silent (emit ev).
Proof.
  intros Hev s Hs. unfold silent in *. simpl.
  apply Forall_app. split; [exact Hs|]. constructor; [apply Hev|constructor].
Qed.

Lemma silent_modify f :
  (∀ s, trace (f s) = trace s) → keeps silent (modify f).
Proof. intros Hf s Hs. unfold silent in *. simpl. by rewrite Hf. Qed.

Lemma silent_call {A} ev (r : result A) :
  (∀ w, is_telegram (w, ev) = false) → keeps silent (call ev r).
Proof.
  intros Hev. unfold call. apply keeps_bind; [by apply silent_emit|].
  intros _. apply keeps_lift.
Qed.

Lemma silent_save_cases_excel : keeps silent save_cases_excel.
Proof. intros s Hs. by apply (silent_emit (ESaveExcel (cases_df s))). Qed.

Lemma silent_save_seen : keeps silent save_seen.
Proof. intros s Hs. by apply (silent_emit (ESaveSeen (seen s))). Qed.

Ltac silent_atom :=
  first
    [ apply silent_save_cases_excel | apply silent_save_seen
    | apply silent_call; solve [intros ?; reflexivity]
    | apply silent_emit; solve [intros ?; reflexivity]
    | apply silent_modify; solve [intros ?; reflexivity] ].

Lemma scan_messages_keeps (I : rstate → Prop) e seen_ids ids :
  (∀ id, id ∉ seen_ids → keeps I (emit (EGmailGet id))) →
  ∀ results, keeps I (scan_messages e seen_ids ids results).
Proof.
  intros Hget. induction ids as [|msg_id ids IH]; intros results; simpl.
  - apply keeps_ret.
  - destruct (bool_decide (msg_id ∈ seen_ids)) eqn:E; [apply IH|].
    apply bool_decide_eq_false in E.
    apply keeps_bind.
    { unfold call. apply keeps_bind; [by apply Hget|].
      intros _. apply keeps_lift. }
    intros full.
    destruct (search RE_APPROVED (message_text full)); [|apply IH].
    apply keeps_bind; [apply keeps_lift|]. intros k. apply IH.
Qed.

(** A run sends at most one Telegram message, as the last thing it does,
    and never an empty one. *)
Theorem at_most_one_digest (e : env) (d : disk) : one_digest (run e d).1.2.
Proof.
  unfold run.
  change (one_digest (trace (process e d init_state).2)) with
    ((λ s, one_digest (trace s)) (process e d init_state).2).
  destruct (process e d init_state) as [res s] eqn:E.
  change ((λ s, one_digest (trace s)) (res, s).2).
  rewrite <- E. clear E res s.
  assert (Hinit : silent init_state) by constructor.
  revert Hinit. generalize init_state.
  change (hoare silent (process e d) (λ s, one_digest (trace s))).
  assert (Hw : ∀ s, silent s → one_digest (trace s)) by (by left).
  unfold process.
  eapply hoare_bind; [apply keeps_lift| |exact Hw]. intros _.
  eapply hoare_bind.
  { unfold load_files, ensure_cases_excel. keeps_with silent_atom. }
  2: exact Hw. intros _.
  eapply hoare_bind.
  { unfold discover. apply keeps_bind; [apply keeps_gets|]. intros seen_ids.
    apply keeps_bind.
    { apply keeps_try_except; [|intros ex; keeps_with silent_atom].
      unfold search_new_messages. apply keeps_bind; [silent_atom|].
      intros ids. apply scan_messages_keeps. intros id _. silent_atom. }
    intros l. apply keeps_bind.
    { apply keeps_for_each. intros [msg_id k] _. unfold note_message.
      keeps_with silent_atom. }
    intros _. keeps_with silent_atom. }
  2: exact Hw. intros _.
  eapply hoare_bind; [apply keeps_lift| |exact Hw]. intros _.
  eapply hoare_bind.
  { unfold process_cases. apply keeps_bind; [apply keeps_gets|]. intros df.
    apply keeps_for_each. intros [idx r] _.
    unfold process_row, acquire_case, file_case, find_case_folder,
      find_latest_pdf, download_pdf, set_status.
    keeps_with silent_atom. }
  2: exact Hw. intros _.
  intros s Hs. unfold send_telegram. rewrite bind_gets.
  destruct (telegram_log s) as [|l lg] eqn:El; [by left|].
  right. exists (trace s), (in_hand s), (l :: lg). by split_and!.
Qed.

(** *** The messages that were seen stay seen *)

Section KeptSeen.
Context (id : str).

Lemma kept_modify f :
  (∀ s, trace (f s) = trace s ∧ seen_msgs (f s) = seen_msgs s
        ∧ messages (seen (f s)) = messages (seen s)) →
  keeps (kept_seen id) (modify f).
Proof.
  intros Hf s (Hm & Hs & Ht). destruct (Hf s) as (Ht' & Hm' & Hs').
  unfold kept_seen. simpl. rewrite Ht', Hm', Hs'. by split_and!.
Qed.

Lemma kept_emit ev :
  (∀ sd, ev ≠ ESaveSeen sd) → ev ≠ EGmailGet id →
  keeps (kept_seen id) (emit ev).
Proof.
  intros Hsv Hget s (Hm & Hs & Ht). split_and!; simpl; auto.
  apply Forall_app. split; [exact Ht|]. constructor; [|constructor].
  split; [|exact Hget]. intros sd Hsd. by apply Hsv in Hsd.
Qed.

Lemma kept_call {A} ev (r : result A) :
  (∀ sd, ev ≠ ESaveSeen sd) → ev ≠ EGmailGet id →
  keeps (kept_seen id) (call ev r).
Proof.
  intros Hsv Hget. unfold call. apply keeps_bind; [by apply kept_emit|].
  intros _. apply keeps_lift.
Qed.

Lemma kept_save_cases_excel : keeps (kept_seen id) save_cases_excel.
Proof. intros s Hs. by apply (kept_emit (ESaveExcel (cases_df s))). Qed.

Lemma kept_save_seen : keeps (kept_seen id) save_seen.
Proof.
  intros s (Hm & Hs & Ht). split_and!; simpl; auto.
  apply Forall_app. split; [exact Ht|]. constructor; [|constructor].
  split; [|done]. by intros sd [= <-].
Qed.

Lemma kept_add id' :
  keeps (kept_seen id) (set_seen_msgs (λ sm, sm ∪ {[ id' ]})).
Proof.
  intros s (Hm & Hs & Ht). split_and!; simpl; auto.
  apply elem_of_union. by left.
Qed.

Lemma kept_list_messages :
  keeps (kept_seen id)
    (sm ← gets seen_msgs;
     set_seen (λ sd, SeenData (elements sm) (cases sd)) ;;
     save_seen).
Proof.
  intros s (Hm & Hs & Ht).
  assert (Hel : id ∈ elements (seen_msgs s)) by (by apply elem_of_elements).
  split_and!; simpl; auto.
  apply Forall_app. split; [exact Ht|]. constructor; [|constructor].
  split; [|done]. by intros sd [= <-].
Qed.

Lemma seen_on_kept d tr :
  id ∈ seen_on d →
  Forall (λ ev, (∀ sd, ev.2 = ESaveSeen sd → id ∈ messages sd)
                ∧ ev.2 ≠ EGmailGet id) tr →
  id ∈ seen_on (disk_after d tr).
Proof.
  unfold disk_after. revert d.
  induction tr as [|ev tr IH]; intros d Hd Htr; simpl; [exact Hd|].
  apply Forall_cons in Htr as [[Hev _] Htr]. apply IH; [|exact Htr].
  destruct ev as [w ev]. unfold stored, seen_on. simpl in *.
  destruct ev; try exact Hd. simpl. by apply Hev.
Qed.

End KeptSeen.

Ltac kept_atom :=
  first
    [ apply kept_save_cases_excel | apply kept_save_seen | apply kept_add
    | apply kept_call; solve [intros ? [=] | intros [=]]
    | apply kept_emit; solve [intros ? [=] | intros [=]]
    | apply kept_modify; solve [intros ?; by split_and!] ].

Lemma load_files_kept_seen id d :
  id ∈ seen_on d →
  hoare (λ s, trace s = []) (load_files d) (kept_seen id).
Proof.
  intros Hid s Hs. unfold load_files, ensure_cases_excel, kept_seen.
  destruct (cases_xlsx d); simpl; rewrite messages_load_seen, Hs;
    (split_and!; [by apply elem_of_list_to_set|done|]);
    repeat constructor; done.
Qed.

Lemma discover_kept_seen id e : keeps (kept_seen id) (discover e).
Proof.
  intros s Hs. unfold discover. rewrite bind_gets.
  pose proof Hs as (Hin & _). revert Hin. generalize (seen_msgs s) at 1 2.
  intros seen_ids Hin. revert s Hs.
  change (keeps (kept_seen id)
    (new_msgs ← try_except (search_new_messages e seen_ids)
                 (λ ex, log (LGmailError (exn_msg ex)) ;; mret []);
     for_each note_message new_msgs ;; save_cases_excel ;;
     sm ← gets seen_msgs;
     set_seen (λ sd, SeenData (elements sm) (cases sd)) ;; save_seen)).
  apply keeps_bind.
  { apply keeps_try_except; [|intros ex; keeps_with kept_atom].
    unfold search_new_messages. apply keeps_bind; [kept_atom|].
    intros ids. apply scan_messages_keeps. intros id' Hid'.
    apply kept_emit; [intros ? [=]|]. intros [= ->]. done. }
  intros l. apply keeps_bind.
  { apply keeps_for_each. intros [msg_id k] _. unfold note_message.
    keeps_with kept_atom. }
  intros _. apply keeps_bind; [kept_atom|]. intros _.
  apply kept_list_messages.
Qed.

Lemma process_cases_kept_seen id e : keeps (kept_seen id) (process_cases e).
Proof.
  unfold process_cases. apply keeps_bind; [apply keeps_gets|]. intros df.
  apply keeps_for_each. intros [idx r] _.
  unfold process_row, acquire_case, file_case, find_case_folder,
    find_latest_pdf, download_pdf, set_status.
  keeps_with kept_atom.
Qed.

Lemma run_kept_seen e d id :
  id ∈ seen_on d →
  (∀ w, (w, EGmailGet id) ∉ (run e d).1.2) ∧ id ∈ seen_on (run e d).2.
Proof.
  intros Hid. unfold run.
  set (good := Forall (λ ev : option Z * event,
    (∀ sd, ev.2 = ESaveSeen sd → id ∈ messages sd) ∧ ev.2 ≠ EGmailGet id)).
  assert (Hp : hoare (λ s, trace s = []) (process e d) (λ s, good (trace s))).
  { assert (Hw : ∀ s, kept_seen id s → good (trace s)) by (by intros s (_ & _ & Ht)).
    unfold process.
    eapply hoare_bind with (Q := λ s, trace s = []).
    { intros s Hs. exact Hs. }
    2: { intros s ->. constructor. }
    intros _. eapply hoare_bind; [by apply load_files_kept_seen| |exact Hw].
    intros _. eapply hoare_weaken; [|intros s Hs; exact Hs|exact Hw].
    apply keeps_bind; [apply discover_kept_seen|]. intros _.
    apply keeps_bind; [apply keeps_lift|]. intros _.
    apply keeps_bind; [apply process_cases_kept_seen|]. intros _.
    unfold send_telegram. keeps_with kept_atom. }
  specialize (Hp init_state eq_refl).
  destruct (process e d init_state) as [res s]. simpl in *. split.
  - intros w Hin. unfold good in Hp. rewrite Forall_forall in Hp.
    by destruct (Hp _ Hin) as [_ Hne].
  - by apply seen_on_kept.
Qed.

(** A message that is recorded as seen stays recorded and is never
    fetched again, whatever the runs that follow. *)
Theorem seen_message_is_not_fetched_again (es : list env) (d : disk)
    (id : str) :
  id ∈ seen_on d →
  Forall (λ tr, ∀ w, (w, EGmailGet id) ∉ tr) (run_all es d)
  ∧ id ∈ seen_on (files_after es d).
Proof.
  revert d. induction es as [|e es IH]; intros d Hid; simpl.
  { split; [constructor|exact Hid]. }
  destruct (run_kept_seen e d id Hid) as [Hno Hin].
  destruct (IH _ Hin) as [Hall Hlast].
  destruct (run e d) as [[res tr] d']. simpl in *.
  split; [by constructor|exact Hlast].
Qed.

End WithUnicode.

Import Tables Samples.

Lemma seen_message_is_not_fetched_again_witness :
  Forall (λ tr, ∀ w, (w, EGmailGet (lit "m1")) ∉ tr)
    (run_all (H := ascii_tables) [services; services] done_disk).
Proof.
  apply (seen_message_is_not_fetched_again (H := ascii_tables)
           [services; services] done_disk (lit "m1")).
  left.
Defined.

End RunFacts2.

Module TableFacts.
Import Py Re MegaHelp RunWords RunFacts RunFacts2.

Section Extends.
Context (L : list Z).

Lemma extends_modify f :
  (∀ s, trace (f s) = trace s ∧ numbers (cases_df (f s)) = numbers (cases_df s)) →
  keeps (table_extends L) (modify f).
Proof.
  intros Hf s [Hdf Ht]. destruct (Hf s) as [Ht' Hn'].
  unfold table_extends, extends in *. simpl. by rewrite Ht', Hn'.
Qed.

Lemma extends_emit ev :
  (∀ df, ev ≠ ESaveExcel df) → keeps (table_extends L) (emit ev).
Proof.
  intros Hev s [Hdf Ht]. split; simpl; [exact Hdf|].
  apply Forall_app. split; [exact Ht|]. constructor; [|constructor].
  intros df Hd. by apply Hev in Hd.
Qed.

Lemma extends_call {A} ev (r : result A) :
  (∀ df, ev ≠ ESaveExcel df) → keeps (table_extends L) (call ev r).
Proof.
  intros Hev. unfold call. apply keeps_bind; [by apply extends_emit|].
  intros _. apply keeps_lift.
Qed.

Lemma extends_save_cases_excel : keeps (table_extends L) save_cases_excel.
Proof.
  intros s [Hdf Ht]. split; simpl; [exact Hdf|].
  apply Forall_app. split; [exact Ht|]. constructor; [|constructor].
  by intros df [= <-].
Qed.

Lemma extends_save_seen : keeps (table_extends L) save_seen.
Proof. intros s Hs. by apply (extends_emit (ESaveSeen (seen s))). Qed.

Lemma extends_set_df_alter (f : row → row) idx :
  (∀ r, r_invoice_number (f r) = r_invoice_number r) →
  keeps (table_extends L) (set_df (alter f idx)).
Proof.
  intros Hf s [Hdf Ht]. unfold table_extends, extends in *. simpl.
  by rewrite numbers_alter.
Qed.

Lemma extends_new_row k t :
  keeps (table_extends L)
    (df ← gets cases_df;
     (if bool_decide (k ∈ r_invoice_number <$> df) then mret ()
      else set_df (λ df, df ++ [Row (CStr []) (CStr []) (CStr []) k WAITING]) ;;
           emit (EState k t))).
Proof.
  intros s [[Hpre Hnd] Ht]. rewrite bind_gets.
  destruct (bool_decide (k ∈ r_invoice_number <$> cases_df s)) eqn:E;
    [by split|].
  apply bool_decide_eq_false in E.
  split; simpl.
  - unfold extends, numbers. rewrite fmap_app. simpl. split.
    + by apply prefix_app_r.
    + intros HL. apply NoDup_app. split_and!; [by apply Hnd| |apply NoDup_singleton].
      intros x Hx ->%list_elem_of_singleton. done.
  - apply Forall_app. split; [exact Ht|]. constructor; [|constructor].
    intros df [=].
Qed.

Lemma table_on_extends d tr :
  extends L (table_on d) →
  Forall (λ ev, ∀ df, ev.2 = ESaveExcel df → extends L df) tr →
  extends L (table_on (disk_after d tr)).
Proof.
  unfold disk_after. revert d.
  induction tr as [|ev tr IH]; intros d Hd Htr; simpl; [exact Hd|].
  apply Forall_cons in Htr as [Hev Htr]. apply IH; [|exact Htr].
  destruct ev as [w ev]. unfold stored, table_on. simpl in *.
  destruct ev; try exact Hd. simpl. by apply Hev.
Qed.

End Extends.

Ltac extends_atom :=
  first
    [ apply extends_save_cases_excel | apply extends_save_seen
    | apply extends_call; solve [intros ? [=]]
    | apply extends_emit; solve [intros ? [=]]
    | apply extends_set_df_alter; solve [reflexivity]
    | apply extends_modify; solve [intros ?; by split] ].

Section WithUnicode.
Context `{Unicode}.

Lemma process_extends e d :
  hoare (λ s, trace s = []) (process e d)
    (λ s, Forall (λ ev, ∀ df, ev.2 = ESaveExcel df →
                    extends (numbers (table_on d)) df) (trace s)).
Proof.
  unfold process.
  eapply hoare_bind with (Q := λ s, trace s = []).
  { intros s Hs. exact Hs. }
  2: { intros s ->. constructor. }
  intros _.
  eapply hoare_bind with (Q := table_extends (numbers (table_on d))).
  { intros s Ht. unfold load_files, ensure_cases_excel, table_on in *.
    destruct (cases_xlsx d) as [df|]; simpl; rewrite Ht;
      (split; [by split|]); constructor; [|constructor].
    by intros df' [= <-]. }
  2: { by intros s [_ Ht]. }
  intros _.
  apply (hoare_weaken (table_extends (numbers (table_on d))) _
           (table_extends (numbers (table_on d))));
    [|intros s Hs; exact Hs|by intros s [_ Ht]].
  apply keeps_bind.
  { unfold discover. apply keeps_bind; [apply keeps_gets|]. intros seen_ids.
    apply keeps_bind.
    { apply keeps_try_except; [|intros ex; keeps_with extends_atom].
      unfold search_new_messages. apply keeps_bind; [extends_atom|].
      intros ids. apply scan_messages_keeps. intros id _. extends_atom. }
    intros l. apply keeps_bind.
    { apply keeps_for_each. intros [msg_id k] _. unfold note_message.
      change (keeps (table_extends (numbers (table_on d)))
        ((df ← gets cases_df;
          (if bool_decide (k ∈ r_invoice_number <$> df) then mret ()
           else set_df (λ df, df ++ [Row (CStr []) (CStr []) (CStr []) k
                                       WAITING]) ;;
                emit (EState k TDiscovered))) ≫= λ _,
         log (LFound k) ;;
         set_seen_msgs (λ sm, sm ∪ {[ msg_id ]}) ;;
         set_seen (λ sd, SeenData (messages sd)
           (match cases sd !! str_of_int k with
            | Some _ => cases sd
            | None => <[str_of_int k := new_flags]> (cases sd)
            end)))).
      apply keeps_bind; [apply extends_new_row|]. intros _.
      keeps_with extends_atom. }
    intros _. keeps_with extends_atom. }
  intros _. apply keeps_bind; [apply keeps_lift|]. intros _.
  apply keeps_bind.
  { unfold process_cases. apply keeps_bind; [apply keeps_gets|]. intros df.
    apply keeps_for_each. intros [idx r] _.
    unfold process_row, acquire_case, file_case, find_case_folder,
      find_latest_pdf, download_pdf, set_status.
    keeps_with extends_atom. }
  intros _. unfold send_telegram. keeps_with extends_atom.
Qed.

Lemma run_extends e d :
  extends (numbers (table_on d)) (table_on (run e d).2).
Proof.
  unfold run. pose proof (process_extends e d init_state eq_refl) as Hp.
  destruct (process e d init_state) as [res s]. simpl in *.
  assert (Hself : extends (numbers (table_on d)) (table_on d)) by (by split).
  by apply table_on_extends.
Qed.

Lemma extends_trans L df1 df2 :
  extends L df1 → extends (numbers df1) df2 → extends L df2.
Proof.
  intros [Hp1 Hn1] [Hp2 Hn2]. split; [by etrans|auto].
Qed.

(** Runs never drop a case of the table nor change its number, they only
    add cases at the end; and they add no case twice: if the numbers of
    the table are distinct, they stay distinct. *)
Theorem table_keeps_its_cases (es : list env) (d : disk) :
  numbers (table_on d) `prefix_of` numbers (table_on (files_after es d))
  ∧ (NoDup (numbers (table_on d)) →
     NoDup (numbers (table_on (files_after es d)))).
Proof.
  change (extends (numbers (table_on d)) (table_on (files_after es d))).
  revert d. induction es as [|e es IH]; intros d; simpl.
  - by split.
  - eapply extends_trans; [apply run_extends|apply IH].
Qed.

End WithUnicode.

Import Tables Samples.

Lemma table_keeps_its_cases_witness :
  NoDup (numbers (table_on
    (files_after (H := ascii_tables) [services; services] first_run_disk))).
Proof.
  apply (table_keeps_its_cases (H := ascii_tables) [services; services]
           first_run_disk).
  constructor.
Defined.

End TableFacts.

Module RerunFacts.
Import Py Re MegaHelp RunWords RunFacts RunFacts2.


Section WithUnicode.
Context `{Unicode}.



End WithUnicode.

Import Tables Samples.


End RerunFacts.

Module TurnFacts.
Import Py Re MegaHelp RunWords TurnWords RunFacts RunFacts2.

Lemma triple_bind {A B} P (Q1 : A → rstate → Prop) (Q : B → rstate → Prop) R
    (m : M A) (f : A → M B) :
  triple P m Q1 R → (∀ a, triple (Q1 a) (f a) Q R) → triple P (m ≫= f) Q R.
Proof.
  intros Hm Hf s Hs. specialize (Hm s Hs). unfold mbind, M_bind.
  destruct (m s) as [[a|ex] s']; [by apply Hf|exact Hm].
Qed.

Lemma triple_raise {A} P (Q : A → rstate → Prop) ex : triple P (raise ex) Q P.
Proof. intros s Hs. exact Hs. Qed.

Lemma triple_keeps {A} (I R : rstate → Prop) (m : M A) :
  keeps I m → (∀ s, I s → R s) → triple I m (λ _, I) R.
Proof.
  intros Hk Hw s Hs. specialize (Hk s Hs).
  destruct (m s) as [[a|ex] s']; [exact Hk|by apply Hw].
Qed.

Lemma triple_try_except {A} P (Q : rstate → Prop) R (m : M A)
    (h : exn → M A) :
  triple P m (λ _, Q) R → (∀ ex, hoare R (h ex) Q) →
  hoare P (try_except m h) Q.
Proof.
  intros Hm Hh s Hs. specialize (Hm s Hs). unfold try_except.
  destruct (m s) as [[a|ex] s']; [exact Hm|by apply Hh].
Qed.

Section Turn.
Context (df0 : list row) (k : nat).

Lemma turn_modify now f :
  (∀ s, cases_df (f s) = cases_df s) → keeps (turn df0 k now) (modify f).
Proof. intros Hf s Hs. unfold turn in *. simpl. by rewrite Hf. Qed.

Lemma turn_emit now ev : keeps (turn df0 k now) (emit ev).
Proof. by apply turn_modify. Qed.

Lemma turn_call {A} now ev (r : result A) : keeps (turn df0 k now) (call ev r).
Proof.
  unfold call. apply keeps_bind; [apply turn_emit|].
  intros _. apply keeps_lift.
Qed.

Lemma turn_save_cases_excel now : keeps (turn df0 k now) save_cases_excel.
Proof. intros s Hs. by apply (turn_emit now (ESaveExcel (cases_df s))). Qed.

Lemma turn_save_seen now : keeps (turn df0 k now) save_seen.
Proof. intros s Hs. by apply (turn_emit now (ESaveSeen (seen s))). Qed.

(** An update of the row [k] that leaves its status *)
Lemma turn_set_df_alter now (f : row → row) :
  (∀ r, r_status (f r) = r_status r) →
  keeps (turn df0 k now) (set_df (alter f k)).
Proof.
  intros Hf s (Hlen & Hlt & Hgt & Hnow). unfold turn. simpl.
  split_and!.
  - by rewrite length_alter.
  - intros j r Hj. rewrite list_lookup_alter_ne by lia. by apply Hlt.
  - intros j Hj. rewrite list_lookup_alter_ne by lia. by apply Hgt.
  - intros Hn r. rewrite list_lookup_alter_eq.
    destruct (cases_df s !! k) as [r0|] eqn:E; [|done].
    intros [= <-]. specialize (Hnow Hn r0 eq_refl).
    unfold settled in *. by rewrite Hf.
Qed.

(** An update of the status of the row [k] that settles it *)
Lemma turn_set_status now n v t :
  (v = READY ∨ ∃ cause, v = ERROR_PREFIX ++ cause) →
  hoare (turn df0 k now) (set_status k n v t) (turn df0 k true).
Proof.
  intros Hv s (Hlen & Hlt & Hgt & _). unfold turn. simpl.
  split_and!.
  - by rewrite length_alter.
  - intros j r Hj. rewrite list_lookup_alter_ne by lia. by apply Hlt.
  - intros j Hj. rewrite list_lookup_alter_ne by lia. by apply Hgt.
  - intros _ r. rewrite list_lookup_alter_eq.
    destruct (cases_df s !! k) as [r0|] eqn:E; [|done].
    by intros [= <-].
Qed.

Lemma turn_weaken now s : turn df0 k now s → turn df0 k false s.
Proof. intros (Hlen & Hlt & Hgt & _). by split_and!. Qed.

Lemma turn_settles now n v t :
  (v = READY ∨ ∃ cause, v = ERROR_PREFIX ++ cause) →
  triple (turn df0 k now) (set_status k n v t) (λ _, turn df0 k true)
    (turn df0 k false).
Proof.
  intros Hv s Hs. apply (turn_set_status now n v t Hv) in Hs.
  unfold set_status, set_df, emit in *. rewrite bind_modify in *.
  exact Hs.
Qed.

End Turn.

Ltac turn_atom :=
  first
    [ apply turn_save_cases_excel | apply turn_save_seen
    | apply turn_call | apply turn_emit
    | apply turn_set_df_alter; solve [reflexivity]
    | apply turn_modify; solve [intros ?; reflexivity] ].

(** The walk along a computation whose last update of the status settles
    the row *)
Ltac turn_walk :=
  repeat first
    [ eapply triple_bind;
        [ first
            [ apply turn_settles; solve [by left | right; by eexists]
            | apply triple_keeps;
                [keeps_with turn_atom | apply turn_weaken] ]
        | intros ? ]
    | apply triple_raise
    | match goal with
      | |- triple _ (match ?x with _ => _ end) _ _ => destruct x
      end
    | apply triple_keeps; [keeps_with turn_atom | apply turn_weaken] ].

Section WithUnicode.
Context `{Unicode}.

Lemma acquire_case_settles e df0 k n :
  triple (turn df0 k false) (acquire_case e k n) (λ _, turn df0 k true)
    (turn df0 k false).
Proof.
  unfold acquire_case, file_case, find_case_folder, find_latest_pdf,
    download_pdf.
  turn_walk.
Qed.

Lemma process_row_settles e df0 k r :
  r_status r ≠ READY →
  hoare (turn df0 k false) (process_row e (k, r)) (turn df0 k true).
Proof.
  intros Hr. unfold process_row, str_eqb.
  rewrite bool_decide_eq_false_2 by exact Hr.
  apply hoare_after; [apply total_modify|turn_atom|]. intros _.
  apply hoare_after; [apply total_gets|apply keeps_gets|]. intros sd.
  apply hoare_after; [apply total_modify|turn_atom|]. intros _.
  apply hoare_try_finally.
  - eapply triple_try_except; [apply acquire_case_settles|].
    intros ex. apply hoare_then.
    + apply turn_set_status. right. by eexists.
    + intros _. keeps_with turn_atom.
  - unfold set_seen, set_in_hand. keeps_with turn_atom.
Qed.

(** The second loop settles every row: from the row [length pre] on *)
Lemma process_rows_settle e df0 : ∀ l pre,
  df0 = pre ++ l →
  hoare (λ s, turn df0 (length pre) false s
              ∧ cases_df s !! length pre = df0 !! length pre)
    (for_each (process_row e) (imap (λ i, pair (length pre + i)%nat) l))
    (λ s, ∀ r, r ∈ cases_df s → settled r).
Proof.
  induction l as [|r l IH]; intros pre Hdf0 s [(Hlen & Hlt & Hgt & _) Hk].
  - simpl. intros r [j Hj]%list_elem_of_lookup. apply (Hlt j r); [|exact Hj].
    apply lookup_lt_Some in Hj. rewrite Hlen, Hdf0, app_nil_r in Hj. exact Hj.
  - rewrite imap_cons. simpl for_each.
    replace (length pre + 0)%nat with (length pre) by lia.
    assert (Hr : df0 !! length pre = Some r).
    { rewrite Hdf0. by rewrite list_lookup_middle. }
    assert (Hnext : ∃ s1, process_row e (length pre, r) s = (Return (), s1)
      ∧ turn df0 (length pre) true s1).
    { destruct (total_eq _ s (process_row_total e (length pre, r)))
        as [s1 E1]. exists s1. split; [exact E1|].
      destruct (decide (r_status r = READY)) as [Hst|Hst].
      - destruct (process_row_saves e (length pre) r s)
          as (s1' & E1' & Hdone & _).
        rewrite E1 in E1'. injection E1' as <-. rewrite (Hdone Hst).
        split_and!; auto. intros _ r'. rewrite Hk, Hr. intros [= <-].
        by left.
      - pose proof (process_row_settles e df0 (length pre) r Hst s) as Hp.
        rewrite E1 in Hp. apply Hp. by split_and!. }
    destruct Hnext as (s1 & E1 & (Hlen1 & Hlt1 & Hgt1 & Hnow1)).
    rewrite (bind_eq _ _ _ _ _ E1).
    specialize (IH (pre ++ [r])). rewrite <- app_assoc in IH.
    specialize (IH Hdf0). rewrite length_app in IH. simpl in IH.
    assert (Heq : imap ((λ i, pair (length pre + i)%nat) ∘ S) l =
                  imap (λ i, pair (length pre + 1 + i)%nat) l).
    { apply imap_ext. intros i x _. simpl. f_equal. lia. }
    rewrite Heq. apply IH. split; [split_and!|]; auto.
    + intros j r' Hj. destruct (decide (j = length pre)) as [->|Hne].
      * by apply Hnow1.
      * apply Hlt1. lia.
    + intros j Hj. apply Hgt1. lia.
    + intros Hf. discriminate.
    + apply Hgt1. lia.
Qed.

Lemma process_cases_settle e :
  hoare (λ _, True) (process_cases e) (λ s, ∀ r, r ∈ cases_df s → settled r).
Proof.
  intros s _. unfold process_cases. rewrite bind_gets.
  apply (process_rows_settle e (cases_df s) (cases_df s) [] eq_refl).
  split; [by split_and!; simpl; auto; intros; lia|reflexivity].
Qed.

End WithUnicode.

End TurnFacts.

Module LedgerFacts.
Import Py Re MegaHelp RunWords TurnWords RunFacts RunFacts2 TurnFacts.

Section Ledger.
Context (x : list str * list Z).




End Ledger.


Section WithUnicode.
Context `{Unicode}.


(** The files after a run that got its parser hold what is in memory. *)
Lemma run_files e d :
  load_parser e = Return () →
  (run e d).2 = Disk (Some (cases_df (process e d init_state).2))
                     (Some (seen (process e d init_state).2)).
Proof.
  intros Hp. pose proof (process_synced e d Hp) as Hs. unfold run.
  destruct (process e d init_state) as [res s]. exact Hs.
Qed.

(** The two files being read and written without failure, no case of the
    table is left waiting after a run that got its parser and its Drive
    service. *)
Lemma run_settles_cases (e : env) (d : disk) :
  load_parser e = Return () → drive_auth e = Return () →
  Forall settled (table_on (run e d).2).
Proof.
  intros Hp Ha. rewrite (run_files e d Hp). unfold table_on. simpl.
  apply Forall_forall. unfold process. rewrite bind_lift, Hp.
  destruct (total_eq _ init_state (load_files_total d)) as [s1 E1].
  rewrite (bind_eq _ _ _ _ _ E1).
  destruct (total_eq _ s1 (discover_total e)) as [s2 E2].
  rewrite (bind_eq _ _ _ _ _ E2), bind_lift, Ha.
  pose proof (process_cases_settle e s2 I) as Hs.
  destruct (total_eq _ s2 (process_cases_total e)) as [s3 E3].
  rewrite E3 in Hs. rewrite (bind_eq _ _ _ _ _ E3).
  unfold send_telegram. rewrite bind_gets.
  destruct (telegram_log s3); exact Hs.
Qed.





End WithUnicode.

Import Tables Samples.


End LedgerFacts.

Module OrderFacts.
Import Py Re MegaHelp RunWords OrderWords RunFacts RunFacts2.

Lemma done_after_append_snoc tr : ∀ prev x,
  done_after_append prev (tr ++ [x]) ↔
  done_after_append prev tr
  ∧ (∀ n, x.2 = EState n TDone →
       ∃ values, from_option Some prev (last tr) = Some (x.1, EAppendRow values)
         ∧ values !! 3%nat = Some (CInt n)).
Proof.
  induction tr as [|ev tr IH]; intros prev x; simpl.
  - tauto.
  - rewrite IH. rewrite last_cons. destruct (last tr); simpl; tauto.
Qed.

Lemma done_after_append_app tr1 : ∀ prev ev tr2,
  done_after_append prev (tr1 ++ ev :: tr2) →
  ∀ n, ev.2 = EState n TDone →
    ∃ values, from_option Some prev (last tr1) = Some (ev.1, EAppendRow values)
      ∧ values !! 3%nat = Some (CInt n).
Proof.
  induction tr1 as [|x tr1 IH]; intros prev ev tr2; simpl.
  - intros [Hev _]. exact Hev.
  - intros [_ Hrest] n Hn. rewrite last_cons.
    destruct (IH _ _ _ Hrest n Hn) as (values & Hl & Hv).
    exists values. split; [|exact Hv]. by destruct (last tr1).
Qed.

Section Ordered.

Lemma ordered_modify f :
  (∀ s, trace (f s) = trace s) → keeps ordered (modify f).
Proof. intros Hf s Hs. unfold ordered in *. simpl. by rewrite Hf. Qed.

Lemma ordered_emit ev :
  (∀ n, ev ≠ EState n TDone) → keeps ordered (emit ev).
Proof.
  intros Hev s Hs. unfold ordered in *. simpl.
  apply done_after_append_snoc. split; [exact Hs|].
  intros n Hn. by apply Hev in Hn.
Qed.

Lemma ordered_call {A} ev (r : result A) :
  (∀ n, ev ≠ EState n TDone) → keeps ordered (call ev r).
Proof.
  intros Hev. unfold call. apply keeps_bind; [by apply ordered_emit|].
  intros _. apply keeps_lift.
Qed.

Lemma ordered_save_cases_excel : keeps ordered save_cases_excel.
Proof. intros s Hs. by apply (ordered_emit (ESaveExcel (cases_df s))). Qed.

Lemma ordered_save_seen : keeps ordered save_seen.
Proof. intros s Hs. by apply (ordered_emit (ESaveSeen (seen s))). Qed.

Lemma ordered_set_status idx n v c :
  keeps ordered (set_status idx n v (TError c)).
Proof.
  unfold set_status. apply keeps_bind; [by apply ordered_modify|].
  intros _. by apply ordered_emit.
Qed.

(** The end of the turn of a case that succeeds: the row, then the
    status *)
Lemma ordered_append_then_done values (r : result unit) l idx n v
    (rest : M unit) :
  values !! 3%nat = Some (CInt n) → keeps ordered rest →
  keeps ordered
    (call (EAppendRow values) r ;; log l ;; set_status idx n v TDone ;; rest).
Proof.
  intros Hv Hrest s Hs. rewrite bind_call.
  destruct r as [[]|ex].
  - unfold log. rewrite bind_modify.
    match goal with
    | |- context [(set_status idx n v TDone ≫= ?f) ?s1] =>
        change ((set_status idx n v TDone ≫= f) s1)
          with (f () (set_status idx n v TDone s1).2)
    end.
    apply Hrest. unfold ordered in *. simpl.
    apply done_after_append_snoc. split.
    + apply done_after_append_snoc. split; [exact Hs|]. intros n' [=].
    + intros n' [= <-]. exists values. rewrite last_snoc. by split.
  - unfold ordered in *. simpl.
    apply done_after_append_snoc. split; [exact Hs|]. intros n' [=].
Qed.

End Ordered.

Ltac ordered_atom :=
  first
    [ apply ordered_save_cases_excel | apply ordered_save_seen
    | match goal with
      | |- keeps _ (set_status _ _ _ (TError _)) => apply ordered_set_status
      | |- keeps _ (call (EAppendRow _) _ ≫= _) =>
          apply ordered_append_then_done; [reflexivity|]
      end
    | apply ordered_call; solve [intros ? [=]]
    | apply ordered_emit; solve [intros ? [=]]
    | apply ordered_modify; solve [intros ?; reflexivity] ].

Section WithUnicode.
Context `{Unicode}.

Lemma process_ordered e d : keeps ordered (process e d).
Proof.
  unfold process. apply keeps_bind; [apply keeps_lift|]. intros _.
  apply keeps_bind.
  { unfold load_files, ensure_cases_excel. keeps_with ordered_atom. }
  intros _. apply keeps_bind.
  { unfold discover. apply keeps_bind; [apply keeps_gets|]. intros seen_ids.
    apply keeps_bind.
    { apply keeps_try_except; [|intros ex; keeps_with ordered_atom].
      unfold search_new_messages. apply keeps_bind; [ordered_atom|].
      intros ids. apply scan_messages_keeps. intros id _. ordered_atom. }
    intros l. apply keeps_bind.
    { apply keeps_for_each. intros [msg_id k] _. unfold note_message.
      keeps_with ordered_atom. }
    intros _. keeps_with ordered_atom. }
  intros _. apply keeps_bind; [apply keeps_lift|]. intros _.
  apply keeps_bind.
  { unfold process_cases. apply keeps_bind; [apply keeps_gets|]. intros df.
    apply keeps_for_each. intros [idx r] _.
    unfold process_row, acquire_case, file_case, find_case_folder,
      find_latest_pdf, download_pdf.
    cbv zeta.
    keeps_with ordered_atom. }
  intros _. unfold send_telegram. keeps_with ordered_atom.
Qed.

(** A case is marked done only right after its row was appended to the
    sheet: in what a run does, the event before an update "done" of the
    case [n] is the appending of a row whose number is [n], with the same
    case in hand. *)
Theorem done_only_after_row (e : env) (d : disk) l1 w (n : Z) l2 :
  (run e d).1.2 = l1 ++ (w, EState n TDone) :: l2 →
  ∃ l0 values,
    l1 = l0 ++ [(w, EAppendRow values)]
    ∧ values !! 3%nat = Some (CInt n).
Proof.
  intros Htr. unfold run in Htr.
  pose proof (process_ordered e d init_state I) as Hp.
  destruct (process e d init_state) as [res s]. unfold ordered in Hp.
  simpl in *. rewrite Htr in Hp.
  destruct (done_after_append_app _ _ _ _ Hp n eq_refl) as (values & Hl & Hv).
  exists (removelast l1), values. split; [|exact Hv].
  destruct (last l1) as [x|] eqn:El; simpl in Hl; [|discriminate].
  injection Hl as ->.
  apply last_Some in El as [l' ->]. by rewrite removelast_last.
Qed.

(** *** The rows of the sheet *)

Lemma parse_invoice_fields text info :
  Invoice.parse_invoice text = Return info →
  Shape.located (Invoice.invoice_number info)
  ∧ Shape.located (Invoice.date info)
  ∧ is_Some (Invoice.amount info)
  ∧ Shape.located (Invoice.case_descr info).
Proof.
  intros Hp.
  destruct (InvoiceFacts.find_date_returns text) as [dt Hd].
  destruct (InvoiceFacts.find_amount_returns text) as [a Ha].
  rewrite (InvoiceFacts.parse_invoice_eq text dt a Hd Ha) in Hp.
  simpl in Hp.
  destruct (Invoice.missing_fields _) eqn:Em; [|discriminate].
  injection Hp as <-. by apply InvoiceFacts.missing_fields_nil.
Qed.

Lemma bind_ret {A B} (a : A) (f : A → M B) s : (mret a ≫= f) s = f a s.
Proof. reflexivity. Qed.

Section Rows.
Context (e : env).

Lemma rows_modify f :
  (∀ s, trace (f s) = trace s) → keeps (rows_from_invoices e) (modify f).
Proof. intros Hf s Hs. unfold rows_from_invoices in *. simpl. by rewrite Hf. Qed.

Lemma rows_emit ev :
  (∀ values, ev = EAppendRow values → from_invoice e values) →
  keeps (rows_from_invoices e) (emit ev).
Proof.
  intros Hev s Hs. unfold rows_from_invoices in *. simpl.
  apply Forall_app. split; [exact Hs|]. constructor; [exact Hev|constructor].
Qed.

Lemma rows_call {A} ev (r : result A) :
  (∀ values, ev = EAppendRow values → from_invoice e values) →
  keeps (rows_from_invoices e) (call ev r).
Proof.
  intros Hev. unfold call. apply keeps_bind; [by apply rows_emit|].
  intros _. apply keeps_lift.
Qed.

Lemma rows_save_cases_excel : keeps (rows_from_invoices e) save_cases_excel.
Proof.
  intros s Hs. apply (rows_emit (ESaveExcel (cases_df s))); [|exact Hs].
  intros values [=].
Qed.

Lemma rows_save_seen : keeps (rows_from_invoices e) save_seen.
Proof.
  intros s Hs. apply (rows_emit (ESaveSeen (seen s))); [|exact Hs].
  intros values [=].
Qed.

End Rows.

Ltac rows_atom :=
  first
    [ apply rows_save_cases_excel | apply rows_save_seen
    | apply rows_call; solve [intros ? [=]]
    | apply rows_emit; solve [intros ? [=]]
    | apply rows_modify; solve [intros ?; reflexivity] ].

Lemma file_case_rows e idx n inv_path grant_path :
  keeps (rows_from_invoices e) (file_case e idx n inv_path grant_path).
Proof.
  intros s Hs. unfold file_case. rewrite bind_call.
  assert (Hs1 : rows_from_invoices e (emit (EReadPdf inv_path) s).2).
  { apply rows_emit; [intros ? [=]|exact Hs]. }
  destruct (pdf_text e inv_path) as [text|ex] eqn:Et; [|exact Hs1].
  rewrite bind_lift.
  destruct (Invoice.parse_invoice text) as [info|ex] eqn:Ep; [|exact Hs1].
  destruct (parse_invoice_fields text info Ep)
    as (_ & (date_iso & Hd & _) & [amount Ha] & (descr & Hc & _)).
  rewrite Hd, Ha, Hc. simpl opt_cell. simpl require. rewrite bind_ret.
  rewrite bind_lift.
  destruct (fromisoformat date_iso) as [dt|ex]; [|exact Hs1].
  revert Hs1. generalize (emit (EReadPdf inv_path) s).2. clear s Hs.
  match goal with
  | |- ∀ s, _ → rows_from_invoices e (?m s).2 =>
      change (keeps (rows_from_invoices e) m)
  end.
  keeps_with ltac:(first
    [ rows_atom
    | apply rows_call; intros values [= <-];
      by exists n, inv_path, text, info, date_iso, descr, amount ]).
Qed.

Lemma process_rows_from_invoices e d :
  keeps (rows_from_invoices e) (process e d).
Proof.
  unfold process. apply keeps_bind; [apply keeps_lift|]. intros _.
  apply keeps_bind.
  { unfold load_files, ensure_cases_excel. keeps_with rows_atom. }
  intros _. apply keeps_bind.
  { unfold discover. apply keeps_bind; [apply keeps_gets|]. intros seen_ids.
    apply keeps_bind.
    { apply keeps_try_except; [|intros ex; keeps_with rows_atom].
      unfold search_new_messages. apply keeps_bind; [rows_atom|].
      intros ids. apply scan_messages_keeps. intros id _. rows_atom. }
    intros l. apply keeps_bind.
    { apply keeps_for_each. intros [msg_id k] _. unfold note_message.
      keeps_with rows_atom. }
    intros _. keeps_with rows_atom. }
  intros _. apply keeps_bind; [apply keeps_lift|]. intros _.
  apply keeps_bind.
  { unfold process_cases. apply keeps_bind; [apply keeps_gets|]. intros df.
    apply keeps_for_each. intros [idx r] _.
    unfold process_row, acquire_case, find_case_folder,
      find_latest_pdf, download_pdf, set_status.
    keeps_with ltac:(first
      [ match goal with
        | |- keeps _ (file_case _ _ _ _ _) => apply file_case_rows
        end
      | rows_atom ]). }
  intros _. unfold send_telegram. keeps_with rows_atom.
Qed.

(** Every row that a run appends to the sheet is made of the fields of an
    invoice that the parser accepted: its date, its description and its
    amount are those that [parse_invoice] found in the text of a PDF that
    was read. *)
Theorem sheet_rows_come_from_invoices (e : env) (d : disk) w values :
  (w, EAppendRow values) ∈ (run e d).1.2 → from_invoice e values.
Proof.
  intros Hin. unfold run in Hin.
  assert (H0 : rows_from_invoices e init_state) by constructor.
  pose proof (process_rows_from_invoices e d init_state H0) as Hp.
  destruct (process e d init_state) as [res s]. simpl in *.
  unfold rows_from_invoices in Hp. rewrite Forall_forall in Hp.
  apply (Hp _ Hin). reflexivity.
Qed.

End WithUnicode.

Import Tables Samples.

Lemma sheet_rows_come_from_invoices_witness :
  ∃ values,
    (run (H := ascii_tables) services first_run_disk).1.2 !! 19%nat
    = Some (Some 12345, EAppendRow values)
    ∧ from_invoice (H := ascii_tables) services values.
Proof.
  destruct ((run (H := ascii_tables) services first_run_disk).1.2 !! 19%nat)
    as [[w ev]|] eqn:E; [|by vm_compute in E].
  destruct ev; try (by vm_compute in E).
  exists values.
  assert (Hw : w = Some 12345)
    by (vm_compute in E; by injection E as <- _).
  subst w. split; [reflexivity|].
  apply (sheet_rows_come_from_invoices (H := ascii_tables) services
           first_run_disk (Some 12345)).
  by apply list_elem_of_lookup_2 in E.
Defined.

Lemma done_only_after_row_witness :
  ∃ l0 values,
    take 20 (run (H := ascii_tables) services first_run_disk).1.2
    = l0 ++ [(Some 12345, EAppendRow values)]
    ∧ values !! 3%nat = Some (CInt 12345).
Proof.
  apply (done_only_after_row (H := ascii_tables) services first_run_disk
           _ (Some 12345) 12345
           (drop 21 (run (H := ascii_tables) services first_run_disk).1.2)).
  vm_compute. reflexivity.
Defined.

End OrderFacts.

Module FieldFacts.
Import Py Re Invoice Shape NameShape FieldShape.

Lemma contains_trans (a b c : str) : contains a b → contains b c → contains a c.
Proof.
  intros (a1 & a2 & ->) (b1 & b2 & ->). exists (a1 ++ b1), (b2 ++ a2).
  by rewrite <- !app_assoc.
Qed.

Lemma splitlines_aux_one_line s : ∀ cur after_cr l,
  one_line cur → l ∈ splitlines_aux cur after_cr s → one_line l.
Proof.
  induction s as [|c s IH]; intros cur after_cr l Hcur Hl; simpl in Hl.
  - destruct cur; [by apply elem_of_nil in Hl|].
    by apply list_elem_of_singleton in Hl as ->.
  - destruct (after_cr && (c =? 10)).
    { eapply IH; [|exact Hl]. constructor. }
    destruct (is_linebreak c) eqn:Ec.
    + apply elem_of_cons in Hl as [->|Hl]; [exact Hcur|].
      eapply IH; [|exact Hl]. constructor.
    + eapply IH; [|exact Hl]. apply Forall_app. split; [exact Hcur|].
      by constructor.
Qed.

Lemma splitlines_aux_contains s : ∀ cur after_cr l,
  l ∈ splitlines_aux cur after_cr s → contains (cur ++ s) l.
Proof.
  induction s as [|c s IH]; intros cur after_cr l Hl; simpl in Hl.
  - destruct cur; [by apply elem_of_nil in Hl|].
    apply list_elem_of_singleton in Hl as ->. exists [], [].
    by rewrite !app_nil_r.
  - destruct (after_cr && (c =? 10)).
    { apply IH in Hl as (a & b & Hab). simpl in Hab.
      exists (cur ++ c :: a), b. rewrite Hab, <- !app_assoc. done. }
    destruct (is_linebreak c).
    + apply elem_of_cons in Hl as [->|Hl].
      * exists [], (c :: s). done.
      * apply IH in Hl as (a & b & Hab). simpl in Hab.
        exists (cur ++ c :: a), b. rewrite Hab, <- !app_assoc. done.
    + apply IH in Hl as (a & b & Hab). exists a, b.
      rewrite <- Hab, <- app_assoc. done.
Qed.

Section WithUnicode.
Context `{Unicode}.

Lemma strip_stripped (s : str) : stripped (strip s).
Proof.
  unfold strip, strip_by. split.
  - intros c Hc. apply NamingFacts.rstrip_by_head in Hc.
    by apply NamingFacts.lstrip_by_head in Hc.
  - intros c Hc. by apply NamingFacts.rstrip_by_last in Hc.
Qed.

Lemma strip_contains (s : str) : contains s (strip s).
Proof.
  unfold strip, strip_by.
  destruct (NamingFacts.lstrip_by_suffix isspace s) as (pre & Hs & _).
  destruct (NamingFacts.rstrip_by_prefix isspace (lstrip_by isspace s))
    as (suf & Hl & _).
  exists pre, suf. rewrite <- Hl. exact Hs.
Qed.

Lemma contains_one_line (s l : str) : contains s l → one_line s → one_line l.
Proof.
  intros (a & b & ->) Hs. unfold one_line in *.
  apply Forall_app in Hs as [_ Hs]. by apply Forall_app in Hs as [Hs _].
Qed.

(** The description that the parser finds is one line of the text, not
    empty, with no white space at its ends: it stands in the text, and has
    no line boundary in it. *)
Theorem description_is_one_trimmed_line (text line : str) :
  _find_case_descr text = Some line →
  line ≠ [] ∧ one_line line ∧ stripped line ∧ contains text line.
Proof.
  unfold _find_case_descr.
  destruct (search _RE_CASEDESCR text) as [m|] eqn:Em; [|discriminate].
  intros (before & after & Hl & _ & Hne)%InvoiceFacts.first_nonblank_spec.
  assert (Hin : line ∈ strip <$> splitlines (group m 1)).
  { rewrite Hl. apply elem_of_app. right. left. }
  apply list_elem_of_fmap in Hin as (l & -> & Hin).
  unfold splitlines in Hin.
  pose proof (splitlines_aux_one_line _ _ _ _ ltac:(constructor) Hin) as H1.
  pose proof (splitlines_aux_contains _ _ _ _ Hin) as Hc. simpl in Hc.
  split_and!.
  - exact Hne.
  - eapply contains_one_line; [apply strip_contains|exact H1].
  - apply strip_stripped.
  - apply InvoiceFacts.search_casedescr in Em
      as (pre & (h & a & post & -> & _) & _).
    eapply contains_trans; [|eapply contains_trans;
      [exact Hc|apply strip_contains]].
    exists (pre ++ h), (a ++ post). by rewrite <- !app_assoc.
Qed.

(** *** The number and the date *)

Lemma invno_matches_inv pv w nx c :
  matches _RE_INVNO pv w nx ∅ c →
  ∃ num, c !! 1%nat = Some num ∧ digits num ∧ (3 ≤ length num)%nat.
Proof.
  unfold _RE_INVNO. simpl seq_of. intros Hm.
  InvoiceFacts.inv_matches.
  match goal with
  | Hall : Forall (λ ch, cset_mem CDigit ch = true) ?w,
    Hlo : (3 <= length ?w)%nat |- _ =>
      exists w; split_and!; [apply lookup_insert_eq|exact Hall|exact Hlo]
  end.
Qed.

Lemma find_invoice_number_digits text num :
  find_invoice_number text = Some num → digits num.
Proof.
  unfold find_invoice_number.
  destruct (search _RE_INVNO text) as [m|] eqn:Em.
  - intros [= <-].
    apply ReFacts.search_some in Em as (pre & nx & _ & _ & Hm & _).
    apply invno_matches_inv in Hm as (num & Hg & Hd & _).
    unfold group. by rewrite Hg.
  - destruct (search _RE_INVNO_FBK text) as [m|] eqn:Ef; [|discriminate].
    intros [= <-].
    apply ReFacts.search_some in Ef as (pre & nx & _ & _ & Hm & _).
    apply InvoiceFacts.fbk_matches_inv in Hm as (d5 & -> & Hd & _).
    destruct (InvoiceFacts.lstrip_by_spec (in_chars (lit "0"))
                (lit "000" ++ d5)) as (p & Hp & _).
    assert (Hall : digits (lit "000" ++ d5)).
    { apply Forall_app. split; [|exact Hd].
      repeat constructor; apply InvoiceFacts.zero_is_digit. }
    rewrite Hp in Hall. by apply Forall_app in Hall as [_ Hall].
Qed.

Lemma find_date_valid text iso :
  find_date text = Return (Some iso) →
  ∃ d, iso = isoformat d ∧ valid_date (year d) (month d) (day d) = true.
Proof.
  unfold find_date.
  destruct (search _RE_DATE text) as [m|]; [|discriminate].
  destruct (int (group m 1)) as [mm|ex]; [|discriminate]. simpl.
  destruct (int (group m 2)) as [dd|ex]; [|discriminate]. simpl.
  destruct (int (group m 3)) as [yyyy|ex]; [|discriminate]. simpl.
  unfold datetime. destruct (valid_date yyyy mm dd) eqn:Ev; [|discriminate].
  intros [= <-]. by exists (Date yyyy mm dd).
Qed.

(** The number of an invoice that the parser accepts is a string of
    decimal digits, not empty, which [int] reads as long as it has no more
    than 4300 digits (CPython's [int] refuses a longer string, and the
    pattern sets no bound on the digits it captures); its date is the ISO
    text of a date of the calendar, which [datetime.fromisoformat] reads
    back. *)
Theorem parsed_number_and_date (text : str) (r : invoice) :
  parse_invoice text = Return r →
  (∃ num, invoice_number r = Some num ∧ num ≠ [] ∧ digits num
          ∧ ((length num ≤ 4300)%nat → ∃ n, int num = Return n))
  ∧ (∃ d, date r = Some (isoformat d)
          ∧ valid_date (year d) (month d) (day d) = true
          ∧ fromisoformat (isoformat d) = Return d).
Proof.
  intros Hp.
  destruct (InvoiceFacts.find_date_returns text) as [dt Hd].
  destruct (InvoiceFacts.find_amount_returns text) as [a Ha].
  rewrite (InvoiceFacts.parse_invoice_eq text dt a Hd Ha) in Hp.
  simpl in Hp. destruct (missing_fields _) eqn:Em; [|discriminate].
  injection Hp as <-.
  apply InvoiceFacts.missing_fields_nil in Em
    as ((num & Hn & Hne) & (iso & Hi & _) & _). simpl in *. split.
  - pose proof (find_invoice_number_digits text num Hn) as Hdg.
    exists num. split_and!; auto.
    intros _. exists (int_of_digits num). by apply InvoiceFacts.int_digits.
  - subst dt. destruct (find_date_valid text iso Hd) as (d & -> & Hv).
    exists d. split_and!; auto. by apply NamingFacts.fromisoformat_isoformat.
Qed.

End WithUnicode.

Import Tables Samples.

Lemma parsed_number_and_date_witness :
  ∃ num n, find_invoice_number (H := ascii_tables) invoice_text = Some num
    ∧ num ≠ [] ∧ digits (H := ascii_tables) num
    ∧ int (H := ascii_tables) num = Return n.
Proof.
  destruct (parse_invoice (H := ascii_tables) invoice_text) as [r|ex] eqn:E;
    [|by vm_compute in E].
  destruct (parsed_number_and_date (H := ascii_tables) invoice_text r E)
    as [(num & Hnum & Hne & Hdg & Hint) _].
  vm_compute in E. injection E as <-. injection Hnum as <-.
  destruct Hint as [n Hn]; [vm_compute; lia|].
  exists (lit "12345"), n. by split_and!.
Defined.

Lemma description_is_one_trimmed_line_witness :
  lit "repellents" ≠ [] ∧ one_line (lit "repellents")
  ∧ stripped (H := ascii_tables) (lit "repellents")
  ∧ contains invoice_text (lit "repellents").
Proof.
  apply (description_is_one_trimmed_line (H := ascii_tables) invoice_text).
  vm_compute. reflexivity.
Defined.

End FieldFacts.

Module ExtractFacts.
Import Py Re Invoice Shape NameShape FieldShape ExtractPdf FieldFacts.

Lemma filter_filter_bool {A} (f g : A → bool) (l : list A) :
  (∀ x, f x = true → g x = true) →
  List.filter f (List.filter g l) = List.filter f l.
Proof.
  intros Hfg. induction l as [|x l IH]; simpl; [reflexivity|].
  destruct (g x) eqn:Eg; simpl.
  - by rewrite IH.
  - destruct (f x) eqn:Ef; [|exact IH]. apply Hfg in Ef. congruence.
Qed.

Lemma filter_all_bool {A} (f : A → bool) (l : list A) :
  Forall (λ x, f x = true) l → List.filter f l = l.
Proof.
  induction 1 as [|x l Hx _ IH]; simpl; [reflexivity|]. by rewrite Hx, IH.
Qed.

Lemma filter_none_bool {A} (f : A → bool) (l : list A) :
  Forall (λ x, f x = false) l → List.filter f l = [].
Proof.
  induction 1 as [|x l Hx _ IH]; simpl; [reflexivity|]. by rewrite Hx, IH.
Qed.

Lemma prefix_by_spec p (s : str) :
  s = prefix_by p s ++ drop (length (prefix_by p s)) s
  ∧ Forall (λ c, p c = true) (prefix_by p s).
Proof.
  induction s as [|c s [IH1 IH2]]; simpl; [by split|].
  destruct (p c) eqn:Ep; simpl; [|by split].
  split; [by rewrite <- IH1|by constructor].
Qed.

Section WithUnicode.
Context `{Unicode}.

Lemma strip_by_twice p (s : str) : strip_by p (strip_by p s) = strip_by p s.
Proof.
  apply NamingFacts.strip_by_id; unfold strip_by; intros c Hc.
  - apply NamingFacts.rstrip_by_head in Hc.
    by apply NamingFacts.lstrip_by_head in Hc.
  - by apply NamingFacts.rstrip_by_last in Hc.
Qed.

Lemma float_strip (s : str) : float (strip_by float_blank s) = float s.
Proof. unfold float. by rewrite strip_by_twice. Qed.

Lemma float_blank_space (c : Z) : float_blank c = true → isspace c = true.
Proof. unfold float_blank. by intros [? _]%andb_prop. Qed.

Lemma float_chars (s : str) x :
  float s = Return x →
  Forall (λ c, digit_or_dot c = true) (strip_by float_blank s).
Proof.
  unfold float.
  destruct (prefix_by_spec isdigit (strip_by float_blank s)) as [Ht Hip].
  set (ip := prefix_by isdigit (strip_by float_blank s)) in *.
  assert (Hk : Forall (λ c, digit_or_dot c = true) ip).
  { eapply Forall_impl; [exact Hip|]. intros c Hc. unfold digit_or_dot.
    simpl in Hc. by rewrite Hc. }
  destruct (drop (length ip) (strip_by float_blank s)) as [|c fp] eqn:Ed.
  - intros _. rewrite Ht, app_nil_r. exact Hk.
  - destruct ((c =? 46) && forallb isdigit fp
              && negb (bool_decide (ip = []) && bool_decide (fp = [])))
      eqn:Ec; [|discriminate].
    intros _. apply andb_prop in Ec as [Ec _].
    apply andb_prop in Ec as [Ec Hfp]. apply Z.eqb_eq in Ec as ->.
    rewrite Ht. apply Forall_app. split; [exact Hk|].
    constructor; [unfold digit_or_dot; apply orb_true_r|].
    apply Forall_forall. intros c Hc. unfold digit_or_dot.
    rewrite forallb_forall in Hfp. rewrite Hfp; [reflexivity|].
    by apply list_elem_of_In.
Qed.

Lemma blank_not_kept (c : Z) : isspace c = true → digit_or_dot c = false.
Proof.
  intros Hs. unfold digit_or_dot. apply orb_false_intro.
  - destruct (isdigit c) eqn:Ed; [|reflexivity].
    apply isdigit_not_space in Ed. congruence.
  - apply Z.eqb_neq. intros ->.
    rewrite isspace_ascii in Hs by lia. discriminate.
Qed.

Lemma sub_set_keep (g : str) :
  sub_set _RE_NON_DIGIT_DOT [] g = List.filter digit_or_dot g.
Proof.
  rewrite InvoiceFacts.sub_set_delete. apply filter_ext. intros c.
  unfold _RE_NON_DIGIT_DOT, digit_or_dot. cbn [cset_mem].
  by rewrite negb_involutive, (Z.eqb_sym 46).
Qed.

Lemma kept_not_removed (c : Z) (sep : Z) :
  sep = 32 ∨ sep = 44 → digit_or_dot c = true → negb (c =? sep) = true.
Proof.
  intros Hsep Hk. apply negb_true_iff, Z.eqb_neq. intros Hc.
  unfold digit_or_dot in Hk. apply orb_prop in Hk as [Hd|He].
  - destruct Hsep; subst; rewrite isdigit_ascii in Hd by lia; discriminate.
  - apply Z.eqb_eq in He. destruct Hsep; lia.
Qed.

(** Where [make_case_dir] reads an amount in the captured text, the
    parser reads the same amount there. *)
Lemma amounts_agree (raw : str) x :
  MakeCaseDir.amount_float raw = Return x →
  normalize_amount raw = Return (Some x).
Proof.
  unfold MakeCaseDir.amount_float, MakeCaseDir.remove_char.
  set (norm := List.filter _ (List.filter _ raw)). intros Hf.
  assert (Hraw : List.filter digit_or_dot raw = strip_by float_blank norm).
  { transitivity (List.filter digit_or_dot norm).
    - unfold norm. rewrite !filter_filter_bool; [reflexivity|..];
        intros c Hc; by apply kept_not_removed; auto.
    - destruct (NamingFacts.strip_by_parts float_blank norm)
        as (pre & suf & Hn & Hpre & Hsuf).
      rewrite Hn at 1. rewrite !List.filter_app.
      rewrite (filter_none_bool digit_or_dot pre),
        (filter_none_bool digit_or_dot suf).
      + rewrite app_nil_r. simpl. apply filter_all_bool.
        by eapply float_chars.
      + eapply Forall_impl; [exact Hsuf|]. intros c Hc.
        by apply blank_not_kept, float_blank_space.
      + eapply Forall_impl; [exact Hpre|]. intros c Hc.
        by apply blank_not_kept, float_blank_space. }
  unfold normalize_amount. rewrite sub_set_keep, Hraw, float_strip, Hf.
  reflexivity.
Qed.

(** Whenever [extract_from_pdf] of [make_case_dir_v2-1.py] returns, the
    parser finds in the same text the same date, the same number and the
    same amount, of which [extract_from_pdf] keeps the integer part. *)
Theorem extractors_agree (text : str) (ex : extracted) :
  extract_from_pdf text = Return ex →
  find_date text = Return (Some (isoformat (invoice_dt ex)))
  ∧ find_invoice_number text = Some (invoice_num ex)
  ∧ ∃ x, find_amount text = Return (Some x)
         ∧ int_of_float x = Return (amount_int ex).
Proof.
  unfold extract_from_pdf, find_date, find_invoice_number, find_amount.
  destruct (search _RE_DATE text) as [m_date|]; [|discriminate].
  destruct (int (group m_date 1)) as [mm|?]; [|discriminate]. simpl.
  destruct (int (group m_date 2)) as [dd|?]; [|discriminate]. simpl.
  destruct (int (group m_date 3)) as [yyyy|?]; [|discriminate]. simpl.
  destruct (datetime yyyy mm dd) as [dt|?]; [|discriminate]. simpl.
  assert (Hnum : ∀ num : result str, ∀ k : str → result extracted,
    bind num k = Return ex → ∃ n, num = Return n ∧ k n = Return ex).
  { intros [n|?] k; [|discriminate]. simpl. eauto. }
  intros (num & Hn & Hrest)%Hnum.
  destruct (amount_match text) as [m_amt|]; [|discriminate].
  destruct (float _) as [x|?] eqn:Ef; [|discriminate]. simpl in Hrest.
  destruct (int_of_float x) as [k|?] eqn:Ek; [|discriminate].
  simpl in Hrest. injection Hrest as <-. simpl. split_and!.
  - reflexivity.
  - destruct (search _RE_INVNO text) as [m|].
    + by injection Hn as <-.
    + destruct (search _RE_INVNO_FBK text) as [m|]; [|discriminate].
      by injection Hn as <-.
  - exists x. split; [|exact Ek]. by apply amounts_agree.
Qed.

End WithUnicode.

Import Tables Samples.

Lemma extractors_agree_witness :
  find_date (H := ascii_tables) invoice_text
  = Return (Some (isoformat (Date 2025 3 10)))
  ∧ find_invoice_number (H := ascii_tables) invoice_text = Some (lit "12345").
Proof.
  destruct (extract_from_pdf (H := ascii_tables) invoice_text) as [ex|?]
    eqn:E; [|by vm_compute in E].
  destruct (extractors_agree (H := ascii_tables) invoice_text ex E)
    as (Hd & Hn & _).
  vm_compute in E. injection E as <-. by split.
Defined.

End ExtractFacts.

Module PaddingFacts.
Import Py Re MegaHelp.

Lemma ascii_digits_uint (s : str) :
  Forall (λ c, 48 ≤ c ≤ 57) s → ∃ d, s = uint_chars d.
Proof.
  induction 1 as [|c s Hc _ [d ->]]; [by exists Nil|].
  assert (Hcases : c = 48 ∨ c = 49 ∨ c = 50 ∨ c = 51 ∨ c = 52 ∨ c = 53
                   ∨ c = 54 ∨ c = 55 ∨ c = 56 ∨ c = 57) by lia.
  destruct Hcases as [->|[->|[->|[->|[->|[->|[->|[->|[->| ->]]]]]]]]];
    [by exists (D0 d)|by exists (D1 d)|by exists (D2 d)|by exists (D3 d)
    |by exists (D4 d)|by exists (D5 d)|by exists (D6 d)|by exists (D7 d)
    |by exists (D8 d)|by exists (D9 d)].
Qed.

Lemma str_of_uint (d : Decimal.uint) :
  str_of_int (Z.of_uint d) = uint_chars (Decimal.unorm d).
Proof.
  unfold str_of_int.
  change (Z.of_uint d) with (Z.of_int (Decimal.Pos d)).
  by rewrite DecimalZ.to_of.
Qed.

Lemma length_nzhead (d : Decimal.uint) :
  (length (uint_chars (Decimal.nzhead d)) ≤ length (uint_chars d))%nat.
Proof. induction d; simpl; lia. Qed.

Lemma uint_chars_nzhead (d : Decimal.uint) :
  uint_chars d =
  replicate (length (uint_chars d) - length (uint_chars (Decimal.nzhead d)))
    48 ++ uint_chars (Decimal.nzhead d).
Proof.
  induction d; simpl; rewrite ?Nat.sub_diag; try reflexivity.
  pose proof (length_nzhead d).
  replace (S (length (uint_chars d))
           - length (uint_chars (Decimal.nzhead d)))%nat
    with (S (length (uint_chars d)
             - length (uint_chars (Decimal.nzhead d)))) by lia.
  simpl. by rewrite <- IHd.
Qed.

Lemma zfill_unorm (d : Decimal.uint) :
  d ≠ Nil →
  zfill (length (uint_chars d)) (uint_chars (Decimal.unorm d)) = uint_chars d.
Proof.
  intros Hd. unfold zfill, Decimal.unorm.
  rewrite (uint_chars_nzhead d) at 2.
  destruct (Decimal.nzhead d) eqn:E; try reflexivity.
  simpl. rewrite Nat.sub_0_r, app_nil_r.
  destruct (uint_chars d) as [|c s] eqn:Es; [by destruct d|].
  simpl. rewrite Nat.sub_0_r. clear.
  induction (length s); simpl; [reflexivity|]. by rewrite IHn.
Qed.

Section WithUnicode.
Context `{Unicode}.

Lemma int_of_uint_acc (d : Decimal.uint) : ∀ acc,
  foldl (λ a c, 10 * a + digit_value c)
    (Z.of_N (DecimalPos.Unsigned.of_lu acc)) (uint_chars d)
  = Z.of_N (DecimalPos.Unsigned.of_lu (Decimal.revapp d acc)).
Proof.
  induction d; intros acc; cbn [uint_chars foldl Decimal.revapp];
    [reflexivity|..];
    rewrite digit_value_ascii by lia;
    rewrite <- IHd; f_equal; cbn [DecimalPos.Unsigned.of_lu]; lia.
Qed.

Lemma int_of_uint (d : Decimal.uint) :
  int_of_digits (uint_chars d) = Z.of_uint d.
Proof.
  unfold int_of_digits, Z.of_uint.
  rewrite DecimalPos.Unsigned.of_uint_alt.
  apply (int_of_uint_acc d Nil).
Qed.

Lemma ascii_digits (s : str) :
  Forall (λ c, 48 ≤ c ≤ 57) s → Forall (λ c, isdigit c = true) s.
Proof.
  intros Hs. eapply Forall_impl; [exact Hs|]. intros c Hc. simpl in *.
  rewrite isdigit_ascii by lia.
  apply andb_true_intro. split; apply Z.leb_le; lia.
Qed.

(** The eight digits of a message name the folder of the case: read as a
    number and written back with [{0:08d}], they are the same eight
    characters; and the padded name of a number that is not negative reads
    back as that number. *)
Theorem padded_name_round_trip :
  (∀ s : str, length s = 8%nat → Forall (λ c, 48 ≤ c ≤ 57) s →
     ∃ n, int s = Return n ∧ format_08d n = s)
  ∧ (∀ n : Z, 0 ≤ n → int (format_08d n) = Return n
                      ∧ (8 ≤ length (format_08d n))%nat).
Proof.
  split.
  - intros s Hlen Hs. exists (int_of_digits s). split.
    + apply InvoiceFacts.int_digits; [by apply ascii_digits|].
      intros ->. discriminate.
    + destruct (ascii_digits_uint s Hs) as [d ->].
      rewrite int_of_uint. unfold format_08d.
      assert (Hpos : 0 ≤ Z.of_uint d) by (unfold Z.of_uint; lia).
      destruct (Z.of_uint d <? 0) eqn:E; [lia|].
      rewrite str_of_uint, <- Hlen. apply zfill_unorm.
      intros ->. discriminate.
  - intros n Hn. unfold format_08d.
    destruct (n <? 0) eqn:E; [lia|].
    assert (Hs : ∃ d, str_of_int n = uint_chars d ∧ Z.of_uint d = n ∧ d ≠ Nil).
    { unfold str_of_int. pose proof (DecimalZ.of_to n) as Hof.
      destruct n as [|p|p]; [| |lia].
      - exists (D0 Nil). by split_and!.
      - simpl in *. exists (Pos.to_uint p). split_and!; auto.
        apply DecimalPos.Unsigned.to_uint_nonnil. }
    destruct Hs as (d & Hd & Hv & Hne). rewrite Hd. unfold zfill. split.
    + set (k := (8 - length (uint_chars d))%nat).
      assert (Hz : replicate k 48 ++ uint_chars d
                   = uint_chars (Nat.iter k D0 d)).
      { clear. induction k; simpl; [reflexivity|]. by rewrite IHk. }
      rewrite Hz, InvoiceFacts.int_digits.
      * f_equal. rewrite int_of_uint, <- Hv.
        change (Z.of_uint ?u) with (Z.of_int (Decimal.Pos u)).
        apply DecimalZ.of_iff. simpl. f_equal.
        unfold Decimal.unorm. f_equal. clear.
        induction k; simpl; [reflexivity|exact IHk].
      * apply ascii_digits. apply NamingFacts.uint_chars_digits.
      * rewrite <- Hz. intros Hnil. apply app_eq_nil in Hnil as [_ Hnil].
        by destruct d.
    + rewrite length_app, length_replicate. lia.
Qed.

End WithUnicode.

Lemma padded_name_round_trip_witness :
  ∃ n, int (H := Tables.ascii_tables) (lit "00012345") = Return n
       ∧ format_08d n = lit "00012345".
Proof.
  apply (padded_name_round_trip (H := Tables.ascii_tables)).
  - reflexivity.
  - cbv [lit]. simpl.
    repeat (apply Forall_cons_2; [lia|]). apply Forall_nil_2.
Defined.

End PaddingFacts.

Module CleanNameFacts.
Import Py Re NameShape.

Lemma trimmed_not_in_chars (s : str) :
  trimmed s →
  (∀ c, head s = Some c → in_chars (lit " .") c = false)
  ∧ (∀ c, last s = Some c → in_chars (lit " .") c = false).
Proof.
  intros [Hh Hl]. split; intros c Hc; apply bool_decide_eq_false;
    intros Hin; [destruct (Hh c Hc)|destruct (Hl c Hc)];
    apply elem_of_cons in Hin as [->|Hin]; try done;
    apply list_elem_of_singleton in Hin as ->; done.
Qed.

Section WithUnicode.
Context `{Unicode}.

Lemma clean_filename_valid (name : str) :
  legal (MegaHelp.clean_filename name) ∧ trimmed (MegaHelp.clean_filename name).
Proof.
  unfold MegaHelp.clean_filename. split.
  - apply NamingFacts.strip_by_legal.
    apply (NamingFacts.sub_set_result_legal (lit "_")).
    constructor; [|constructor]. intros Hin. vm_compute in Hin.
    repeat (apply elem_of_cons in Hin as [Hin|Hin]; [discriminate|]).
    by apply elem_of_nil in Hin.
  - apply NamingFacts.strip_by_trimmed.
Qed.

Lemma sanitize_valid (name : str) :
  legal (AddString.sanitize name) ∧ trimmed (AddString.sanitize name).
Proof.
  unfold AddString.sanitize. split.
  - apply NamingFacts.strip_by_legal.
    apply (NamingFacts.sub_set_result_legal []). constructor.
  - apply NamingFacts.strip_by_trimmed.
Qed.

Lemma clean_filename_id (name : str) :
  legal name → trimmed name → MegaHelp.clean_filename name = name.
Proof.
  intros Hl Ht. unfold MegaHelp.clean_filename.
  change MegaHelp.FORBIDDEN with AddString.FORBIDDEN.
  rewrite NamingFacts.sub_set_legal by exact Hl.
  destruct (trimmed_not_in_chars name Ht). by apply NamingFacts.strip_by_id.
Qed.

Lemma sanitize_id (name : str) :
  legal name → trimmed name → AddString.sanitize name = name.
Proof.
  intros Hl Ht. unfold AddString.sanitize.
  rewrite NamingFacts.sub_set_legal by exact Hl.
  destruct (trimmed_not_in_chars name Ht). by apply NamingFacts.strip_by_id.
Qed.

(** The names that the two cleanings leave as they are are those with no
    forbidden character and no space or period at their ends; so cleaning
    twice is cleaning once; and on a name with no forbidden character the
    two cleanings agree. *)
Theorem cleaning_fixes_valid_names (name : str) :
  (MegaHelp.clean_filename name = name ↔ legal name ∧ trimmed name)
  ∧ (AddString.sanitize name = name ↔ legal name ∧ trimmed name)
  ∧ MegaHelp.clean_filename (MegaHelp.clean_filename name)
    = MegaHelp.clean_filename name
  ∧ AddString.sanitize (AddString.sanitize name) = AddString.sanitize name
  ∧ (legal name → AddString.sanitize name = MegaHelp.clean_filename name).
Proof.
  split_and!.
  - split; [intros <-; apply clean_filename_valid|].
    intros [Hl Ht]. by apply clean_filename_id.
  - split; [intros <-; apply sanitize_valid|].
    intros [Hl Ht]. by apply sanitize_id.
  - destruct (clean_filename_valid name). by apply clean_filename_id.
  - destruct (sanitize_valid name). by apply sanitize_id.
  - intros Hl. unfold AddString.sanitize, MegaHelp.clean_filename.
    change MegaHelp.FORBIDDEN with AddString.FORBIDDEN.
    by rewrite !NamingFacts.sub_set_legal.
Qed.

End WithUnicode.

Lemma cleaning_fixes_valid_names_witness :
  AddString.sanitize (H := Tables.ascii_tables) (lit "Invoice 12345.pdf")
  = MegaHelp.clean_filename (H := Tables.ascii_tables) (lit "Invoice 12345.pdf").
Proof.
  apply (cleaning_fixes_valid_names (H := Tables.ascii_tables)).
  apply Forall_forall. intros c Hc. vm_compute in Hc.
  intros Hf. vm_compute in Hf.
  repeat (apply elem_of_cons in Hc as [->|Hc];
          [by repeat (apply elem_of_cons in Hf as [Hf|Hf]; [discriminate|]);
              apply elem_of_nil in Hf|]).
  by apply elem_of_nil in Hc.
Defined.

End CleanNameFacts.

Module AddStringMainFacts.
Import Py Re MegaHelp OrderWords AddStringMain RunFacts TurnFacts OrderFacts.

Section Since.
Context (t0 : list (option Z * event)).

Lemma since_modify f :
  (∀ s, trace (f s) = trace s) → keeps (no_row_since t0) (modify f).
Proof. intros Hf s Hs. unfold no_row_since in *. simpl. by rewrite Hf. Qed.

Lemma since_emit ev :
  (∀ w, is_append (w, ev) = false) → keeps (no_row_since t0) (emit ev).
Proof.
  intros Hev s (evs & Ht & Hall). exists (evs ++ [(in_hand s, ev)]). simpl.
  split; [by rewrite Ht, app_assoc|].
  apply Forall_app. split; [exact Hall|]. constructor; [apply Hev|constructor].
Qed.

Lemma since_call {A} ev (r : result A) :
  (∀ w, is_append (w, ev) = false) → keeps (no_row_since t0) (call ev r).
Proof.
  intros Hev. unfold call. apply keeps_bind; [by apply since_emit|].
  intros _. apply keeps_lift.
Qed.

End Since.

Ltac since_atom :=
  first
    [ apply since_call; solve [intros ?; reflexivity]
    | apply since_emit; solve [intros ?; reflexivity]
    | apply since_modify; solve [intros ?; reflexivity] ].

Section WithUnicode.
Context `{Unicode}.

Lemma parse_or_exit_spec e inv_local t0 :
  triple (no_row_since t0) (parse_or_exit e inv_local)
    (λ r s, no_row_since t0 s
            ∧ ∀ info, r = inr info →
                ∃ text, pdf_text e inv_local = Return text
                  ∧ Invoice.parse_invoice text = Return info)
    (no_row_since t0).
Proof.
  intros s Hs. unfold parse_or_exit, try_except. rewrite bind_call.
  assert (Hs1 : no_row_since t0 (emit (EReadPdf inv_local) s).2).
  { apply since_emit; [by intros ?|exact Hs]. }
  destruct (pdf_text e inv_local) as [text|ex] eqn:Et.
  - rewrite bind_lift.
    destruct (Invoice.parse_invoice text) as [info|ex] eqn:Ep; simpl.
    + split; [exact Hs1|]. intros info' [= <-]. by exists text.
    + split; [exact Hs1|]. intros info' [=].
  - simpl. split; [exact Hs1|]. intros info' [=].
Qed.

Lemma main_spec e dirs n t0 :
  triple (no_row_since t0) (main e dirs n)
    (λ r s', match r with
             | Finished =>
                 ∃ values, row_last_since t0 values s'
                   ∧ sheet_append e values = Return ()
                   ∧ from_invoice e values
             | SysExit _ => no_row_since t0 s'
             end)
    (λ s', no_row_since t0 s'
           ∨ ∃ values ex, row_last_since t0 values s'
               ∧ sheet_append e values = Raise ex).
Proof.
  unfold main, find_first_pdf, find_case_folder, find_latest_pdf, download_pdf.
  cbv zeta.
  eapply triple_bind;
    [apply triple_keeps; [keeps_with since_atom|by left]|intros folder].
  destruct folder as [[|c folder_id]|]; try (by intros s Hs).
  eapply triple_bind;
    [apply triple_keeps; [keeps_with since_atom|by left]|intros inv_meta].
  destruct inv_meta as [im|]; [|by intros s Hs].
  eapply triple_bind;
    [apply triple_keeps; [keeps_with since_atom|by left]|intros inv_local].
  eapply triple_bind;
    [apply triple_keeps; [keeps_with since_atom|by left]|intros ga_meta].
  eapply triple_bind;
    [apply triple_keeps; [keeps_with since_atom|by left]|intros ga_local].
  eapply triple_bind.
  { intros s Hs. pose proof (parse_or_exit_spec e inv_local t0 s Hs) as Hp.
    destruct (parse_or_exit e inv_local s) as [[r|ex] s']; [exact Hp|].
    by left. }
  intros [msg|info]; [by intros s [Hs _]|].
  intros s [Hs Hinfo]. destruct (Hinfo info eq_refl) as (text & Ht & Hp).
  clear Hinfo. revert s Hs.
  match goal with
  | |- ∀ s, no_row_since t0 s → match ?m s with _ => _ end =>
      change (triple (no_row_since t0) m
        (λ r s', match r with
                 | Finished =>
                     ∃ values, row_last_since t0 values s'
                       ∧ sheet_append e values = Return ()
                       ∧ from_invoice e values
                 | SysExit _ => no_row_since t0 s'
                 end)
        (λ s', no_row_since t0 s'
               ∨ ∃ values ex, row_last_since t0 values s'
                   ∧ sheet_append e values = Raise ex))
  end.
  eapply triple_bind.
  { apply triple_keeps; [|by left]. unfold target_dir_of.
    keeps_with since_atom. }
  intros target_dir.
  eapply triple_bind;
    [apply triple_keeps; [keeps_with since_atom|by left]|intros []].
  eapply triple_bind;
    [apply triple_keeps; [keeps_with since_atom|by left]|intros []].
  destruct (parse_invoice_fields text info Hp)
    as (_ & (date_iso & Hd & _) & [amount Ha] & (descr & Hc & _)).
  rewrite Hd, Ha, Hc. simpl opt_cell.
  match goal with
  | |- context [sheet_append e ?r] => set (row := r)
  end.
  intros s (evs & Htr & Hall). rewrite bind_call.
  assert (Hlast : row_last_since t0 row (emit (EAppendRow row) s).2).
  { exists evs, (in_hand s). simpl. by rewrite Htr, <- app_assoc. }
  destruct (sheet_append e row) as [[]|ex] eqn:Es; simpl.
  - exists row. split_and!; [exact Hlast|exact Es|].
    by exists n, inv_local, text, info, date_iso, descr, amount.
  - right. by exists row, ex.
Qed.

(** [main] appends the row as the last thing it does, once everything
    else succeeded: it finishes exactly when the row was appended; when it
    exits with a message, or when an exception other than that of the
    appending escapes it, no row was appended.  The row that it appends
    is made of the fields that the parser found in the invoice. *)
Theorem row_is_the_last_step (e : env) (dirs : list str) (n : Z)
    (s : rstate) :
  match main e dirs n s with
  | (Return Finished, s') =>
      ∃ values, row_last_since (trace s) values s'
        ∧ sheet_append e values = Return ()
        ∧ from_invoice e values
  | (Return (SysExit _), s') => no_row_since (trace s) s'
  | (Raise _, s') =>
      no_row_since (trace s) s'
      ∨ ∃ values ex, row_last_since (trace s) values s'
          ∧ sheet_append e values = Raise ex
  end.
Proof.
  assert (H0 : no_row_since (trace s) s).
  { exists []. by rewrite app_nil_r. }
  pose proof (main_spec e dirs n (trace s) s H0) as Hm.
  by destruct (main e dirs n s) as [[[|msg]|ex] s'].
Qed.

End WithUnicode.

End AddStringMainFacts.

Module AmountFacts.
Import Py Re Invoice ExtractPdf AmountShape.

Lemma shr_1_m (mrs : shr_record) : 0 ≤ shr_m mrs → 0 ≤ shr_m (shr_1 mrs).
Proof. destruct mrs as [[|[p|p|]|p] r s]; simpl; lia. Qed.

Lemma iter_shr_1_m (p : positive) : ∀ mrs,
  0 ≤ shr_m mrs → 0 ≤ shr_m (SpecFloat.iter_pos shr_1 p mrs).
Proof.
  induction p as [p IH|p IH|]; intros mrs Hm; simpl.
  - apply IH, IH, shr_1_m, Hm.
  - apply IH, IH, Hm.
  - apply shr_1_m, Hm.
Qed.

Lemma shr_fexp_m prec emax (m e : Z) (l : location) :
  0 ≤ m → 0 ≤ shr_m (shr_fexp prec emax m e l).1.
Proof.
  intros Hm. unfold shr_fexp, shr.
  assert (H0 : 0 ≤ shr_m (shr_record_of_loc m l)) by (by destruct l as [|[]]).
  destruct (fexp prec emax (Zdigits2 m + e) - e); simpl; try exact H0.
  by apply iter_shr_1_m.
Qed.

Lemma round_nearest_even_m (m : Z) (l : location) :
  0 ≤ m → 0 ≤ round_nearest_even m l.
Proof.
  intros Hm. destruct l as [|[]]; simpl; try lia.
  destruct (Z.even m); lia.
Qed.

Lemma binary_round_aux_sign prec emax (m e : Z) (l : location) :
  0 ≤ m → not_negative (binary_round_aux prec emax false m e l).
Proof.
  intros Hm. unfold binary_round_aux.
  pose proof (shr_fexp_m prec emax m e l Hm) as H1.
  destruct (shr_fexp prec emax m e l) as [mrs' e']. simpl in H1.
  pose proof (shr_fexp_m prec emax
                (round_nearest_even (shr_m mrs') (loc_of_shr_record mrs'))
                e' loc_Exact (round_nearest_even_m _ _ H1)) as H2.
  destruct (shr_fexp prec emax _ e' loc_Exact) as [mrs'' e'']. simpl in H2.
  destruct (shr_m mrs''); [exact I| |lia].
  by destruct (_ <=? _).
Qed.

Lemma float_of_decimal_sign (m : Z) (k : nat) :
  0 ≤ m → not_negative (float_of_decimal m k).
Proof.
  intros Hm. unfold float_of_decimal, SFdiv_core_binary.
  set (e' := Z.min _ _). set (s := 0 - 0 - e').
  set (m' := match s with 0 => m | Z.pos _ => Z.shiftl m s | Z.neg _ => 0 end).
  assert (Hm' : 0 ≤ m').
  { unfold m'. destruct s; [exact Hm| |lia]. by apply Z.shiftl_nonneg. }
  destruct (Z.div_eucl m' (10 ^ Z.of_nat k)) as [q r] eqn:E.
  assert (Hq : q = m' / 10 ^ Z.of_nat k) by (unfold Z.div; by rewrite E).
  apply binary_round_aux_sign. rewrite Hq. apply Z.div_pos; [exact Hm'|].
  apply Z.pow_pos_nonneg; lia.
Qed.

Lemma filter_reverse_bool {A} (p : A → bool) (l : list A) :
  List.filter p (reverse l) = reverse (List.filter p l).
Proof.
  induction l as [|x l IH]; simpl; [reflexivity|].
  rewrite reverse_cons, List.filter_app, IH. simpl.
  destruct (p x); [by rewrite reverse_cons|by rewrite app_nil_r].
Qed.

Lemma filter_fmap_bool {A B} (p : B → bool) (f : A → B) (l : list A) :
  List.filter p (f <$> l) = f <$> List.filter (λ x, p (f x)) l.
Proof.
  induction l as [|x l IH]; [reflexivity|].
  rewrite fmap_cons. cbn [List.filter]. rewrite IH.
  destruct (p (f x)); reflexivity.
Qed.

Lemma filter_groups (p : Z → bool) (sep : Z) (l : str) :
  p sep = false → ∀ F : nat → Z → str,
  (∀ i c, F i c = [sep; c] ∨ F i c = [c]) →
  List.filter p (concat (imap F l)) = List.filter p l.
Proof.
  intros Hsep. induction l as [|c l IH]; intros F HF; [reflexivity|].
  cbn [imap concat]. rewrite List.filter_app.
  rewrite IH by (intros i d; unfold compose; apply HF).
  destruct (HF 0%nat c) as [-> | ->]; simpl; rewrite ?Hsep;
    by destruct (p c).
Qed.

Lemma Forall_groups (P : Z → Prop) (sep : Z) (l : str) :
  P sep → Forall P l → ∀ F : nat → Z → str,
  (∀ i c, F i c = [sep; c] ∨ F i c = [c]) →
  Forall P (concat (imap F l)).
Proof.
  intros Hsep. induction 1 as [|c l Hc _ IH]; intros F HF; [constructor|].
  cbn [imap concat]. apply Forall_app. split; [|apply IH; intros i d; unfold compose; apply HF].
  destruct (HF 0%nat c) as [-> | ->]; repeat constructor; assumption.
Qed.

Lemma group3_steps (sep : Z) (i : nat) (c : Z) :
  (if bool_decide (i ≠ 0%nat ∧ (i mod 3 = 0)%nat) then [sep; c] else [c])
  = [sep; c]
  ∨ (if bool_decide (i ≠ 0%nat ∧ (i mod 3 = 0)%nat) then [sep; c] else [c])
    = [c].
Proof. destruct (bool_decide _); auto. Qed.

(** Without its separators, a grouped number is the number. *)
Lemma filter_group3 (p : Z → bool) (sep : Z) (s : str) :
  p sep = false → List.filter p (group3 sep s) = List.filter p s.
Proof.
  intros Hsep. unfold group3.
  rewrite filter_reverse_bool, (filter_groups p sep) by
    (exact Hsep || apply group3_steps).
  by rewrite filter_reverse_bool, reverse_involutive.
Qed.

Lemma Forall_group3 (P : Z → Prop) (sep : Z) (s : str) :
  P sep → Forall P s → Forall P (group3 sep s).
Proof.
  intros Hsep Hs. unfold group3. apply Forall_reverse.
  apply (Forall_groups P sep); [exact Hsep| |apply group3_steps].
  by apply Forall_reverse.
Qed.

Lemma str_of_int_uint (n : Z) :
  0 ≤ n → ∃ d, str_of_int n = uint_chars d ∧ Z.of_uint d = n ∧ d ≠ Nil.
Proof.
  intros Hn. unfold str_of_int. pose proof (DecimalZ.of_to n) as Hof.
  destruct n as [|p|p]; [| |lia].
  - exists (D0 Nil). by split_and!.
  - simpl in *. exists (Pos.to_uint p). split_and!; auto.
    apply DecimalPos.Unsigned.to_uint_nonnil.
Qed.

Lemma str_of_int_digits (n : Z) :
  0 ≤ n → Forall (λ c, 48 ≤ c ≤ 57) (str_of_int n) ∧ str_of_int n ≠ [].
Proof.
  intros (d & -> & _ & Hd)%str_of_int_uint. split.
  - apply NamingFacts.uint_chars_digits.
  - by destruct d.
Qed.

Lemma two_digits (v : Z) :
  0 ≤ v < 100 →
  length (zfill 2 (str_of_int v)) = 2%nat
  ∧ Forall (λ c, 48 ≤ c ≤ 57) (zfill 2 (str_of_int v)).
Proof.
  intros Hv. split.
  - assert (Hn : ∃ n : nat, (n < 100)%nat ∧ v = Z.of_nat n)
      by (exists (Z.to_nat v); lia).
    destruct Hn as (n & Hn & ->).
    do 100 (destruct n as [|n]; [reflexivity|]). lia.
  - unfold zfill. apply Forall_app. split.
    + apply Forall_replicate. lia.
    + apply str_of_int_digits. lia.
Qed.

(** The cents of a positive float and its integer part: the whole part
    of the rounded cents is the integer part, or one more when the
    rounding carries. *)
Lemma cents_and_integer_part (m : positive) (e : Z) :
  let a := if 0 <=? e then Z.pos m * 2 ^ e else Z.pos m / 2 ^ (- e) in
  let cents := round_half_even (m * 100) e in
  0 ≤ a ∧ 0 ≤ cents ∧ (cents / 100 = a ∨ cents / 100 = a + 1).
Proof.
  unfold round_half_even. destruct (0 <=? e) eqn:He; simpl.
  - apply Z.leb_le in He.
    assert (Hp : 0 < 2 ^ e) by (apply Z.pow_pos_nonneg; lia).
    split_and!; [nia|nia|]. left.
    rewrite Pos2Z.inj_mul.
    replace (Z.pos m * 100 * 2 ^ e) with (Z.pos m * 2 ^ e * 100) by lia.
    apply Z.div_mul. lia.
  - apply Z.leb_gt in He.
    set (d := 2 ^ (- e)).
    assert (Hd : 0 < d) by (apply Z.pow_pos_nonneg; lia).
    rewrite Pos2Z.inj_mul.
    set (M := Z.pos m). assert (HM : 0 < M) by (unfold M; lia).
    pose proof (Z.div_mod M d ltac:(lia)) as E1.
    pose proof (Z.mod_pos_bound M d Hd) as B1.
    pose proof (Z.div_mod (M * 100) d ltac:(lia)) as E2.
    pose proof (Z.mod_pos_bound (M * 100) d Hd) as B2.
    set (a := M / d) in *. set (q := M * 100 / d) in *.
    set (r1 := M mod d) in *. set (r2 := (M * 100) mod d) in *.
    assert (Ha : 0 ≤ a) by (apply Z.div_pos; lia).
    assert (Hq1 : 100 * a ≤ q) by nia.
    assert (Hq2 : q < 100 * (a + 1)) by nia.
    assert (Hc : ∀ c, 100 * a ≤ c ≤ 100 * (a + 1) →
                 0 ≤ c ∧ (c / 100 = a ∨ c / 100 = a + 1)).
    { intros c Hc. split; [lia|].
      pose proof (Z.div_mod c 100 ltac:(lia)).
      pose proof (Z.mod_pos_bound c 100 ltac:(lia)). lia. }
    split; [exact Ha|].
    destruct (2 * r2 <? d); [apply Hc; lia|].
    destruct (d <? 2 * r2); [apply Hc; lia|].
    destruct (Z.even q); apply Hc; lia.
Qed.

Section WithUnicode.
Context `{Unicode}.

Lemma foldl_digits_sign (s : str) :
  Forall (λ c, isdigit c = true) s → ∀ acc, 0 ≤ acc →
  0 ≤ foldl (λ a c, 10 * a + digit_value c) acc s.
Proof.
  induction 1 as [|c s Hc _ IH]; intros acc Hacc; simpl; [exact Hacc|].
  apply IH. pose proof (digit_value_range c Hc). lia.
Qed.

Lemma int_of_digits_sign (s : str) :
  Forall (λ c, isdigit c = true) s → 0 ≤ int_of_digits s.
Proof. intros Hs. unfold int_of_digits. by apply foldl_digits_sign. Qed.

Lemma float_sign (s : str) x : float s = Return x → not_negative x.
Proof.
  unfold float.
  destruct (ExtractFacts.prefix_by_spec isdigit (strip_by float_blank s))
    as [_ Hip].
  set (ip := prefix_by isdigit (strip_by float_blank s)) in *.
  destruct (drop (length ip) (strip_by float_blank s)) as [|c fp].
  - destruct (bool_decide (ip = [])); [discriminate|].
    intros [= <-]. by apply float_of_decimal_sign, int_of_digits_sign.
  - destruct ((c =? 46) && forallb isdigit fp
              && negb (bool_decide (ip = []) && bool_decide (fp = [])))
      eqn:Ec; [|discriminate].
    intros [= <-]. apply float_of_decimal_sign, int_of_digits_sign.
    apply andb_prop in Ec as [Ec _]. apply andb_prop in Ec as [_ Hfp].
    apply Forall_app. split; [exact Hip|].
    apply Forall_forall. intros d Hd. rewrite forallb_forall in Hfp.
    apply Hfp. by apply list_elem_of_In.
Qed.

Lemma find_amount_sign (text : str) x :
  find_amount text = Return (Some x) → not_negative x.
Proof.
  unfold find_amount, normalize_amount.
  destruct (amount_match text) as [m|]; [|discriminate].
  destruct (float _) as [y|[]] eqn:Ef; try discriminate.
  intros [= <-]. by eapply float_sign.
Qed.

(** The amount of an invoice that the parser accepts is zero, a positive
    number or the positive infinity (a number of more than three hundred
    digits): it is never negative and never a NaN. *)
Theorem parsed_amount_is_not_negative (text : str) (r : invoice) :
  parse_invoice text = Return r →
  ∃ x, amount r = Some x ∧ not_negative x.
Proof.
  unfold parse_invoice.
  destruct (find_date text) as [date_iso|?]; [|discriminate]. simpl.
  destruct (find_amount text) as [a|?] eqn:Ea; [|discriminate]. simpl.
  destruct (missing_fields _) eqn:Em; [|discriminate].
  intros [= <-]. simpl. destruct a as [x|].
  - exists x. split; [reflexivity|]. by eapply find_amount_sign.
  - exfalso. unfold missing_fields in Em. simpl in Em.
    repeat match type of Em with
           | context [if ?b then _ else _] => destruct b
           end; discriminate.
Qed.

Lemma int_str_of_int (n : Z) : 0 ≤ n → int (str_of_int n) = Return n.
Proof.
  intros Hn. destruct (str_of_int_digits n Hn) as [Hd Hne].
  rewrite InvoiceFacts.int_digits;
    [|by apply PaddingFacts.ascii_digits|exact Hne].
  destruct (str_of_int_uint n Hn) as (d & -> & <- & _).
  by rewrite PaddingFacts.int_of_uint.
Qed.

(** What the two [replace] of [extract_from_pdf] make of the text of a
    number of cents: the groups are set apart by spaces, and a comma
    stands before the two decimals. *)
Lemma amount_text (cents : Z) :
  0 ≤ cents →
  let whole := replace_char 44 32 (group3 44 (str_of_int (cents / 100))) in
  let frac := zfill 2 (str_of_int (cents mod 100)) in
  replace_char 46 44
    (replace_char 44 32
       (group3 44 (str_of_int (cents / 100)) ++ [46] ++ frac))
  = whole ++ [44] ++ frac
  ∧ Forall (λ c, 48 ≤ c ≤ 57 ∨ c = 32) whole
  ∧ length frac = 2%nat ∧ Forall (λ c, 48 ≤ c ≤ 57) frac
  ∧ int (MakeCaseDir.remove_char 32 whole) = Return (cents / 100).
Proof.
  intros Hc whole frac.
  assert (Hw : 0 ≤ cents / 100) by (apply Z.div_pos; lia).
  destruct (str_of_int_digits _ Hw) as [Hd _].
  destruct (two_digits (cents mod 100)) as [Hlen Hfrac];
    [apply Z.mod_pos_bound; lia|].
  assert (Hfix : ∀ (a b : Z) (s : str),
            Forall (λ c, c ≠ a) s → replace_char a b s = s).
  { intros a b s Hs. unfold replace_char.
    induction Hs as [|c s Hc' _ IH]; [reflexivity|].
    rewrite fmap_cons, IH. f_equal.
    destruct (c =? a) eqn:E; [apply Z.eqb_eq in E; contradiction|].
    reflexivity. }
  assert (Hwhole : Forall (λ c, 48 ≤ c ≤ 57 ∨ c = 32) whole).
  { unfold whole, replace_char. apply Forall_fmap.
    eapply Forall_impl;
      [apply (Forall_group3 (λ c, 48 ≤ c ≤ 57 ∨ c = 44) 44);
         [by right|eapply Forall_impl; [exact Hd|]; simpl; auto]|].
    intros c Hcc. simpl in *. destruct (c =? 44) eqn:E; [by right|].
    apply Z.eqb_neq in E. lia. }
  split_and!.
  - assert (Happ : ∀ a b (s t : str),
              replace_char a b (s ++ t)
              = replace_char a b s ++ replace_char a b t)
      by (intros; apply fmap_app).
    rewrite !Happ. fold whole.
    change (replace_char 44 32 [46]) with [46].
    change (replace_char 46 44 [46]) with [44]. f_equal; [|f_equal].
    + apply Hfix. eapply Forall_impl; [exact Hwhole|]. simpl. lia.
    + rewrite (Hfix 44 32 frac), (Hfix 46 44 frac); [reflexivity|..];
        (eapply Forall_impl; [exact Hfrac|]; simpl; lia).
  - exact Hwhole.
  - exact Hlen.
  - exact Hfrac.
  - unfold MakeCaseDir.remove_char, whole, replace_char.
    rewrite filter_fmap_bool, (filter_group3 _ 44) by reflexivity.
    rewrite ExtractFacts.filter_all_bool.
    + transitivity (int (str_of_int (cents / 100)));
        [|by apply int_str_of_int].
      f_equal. apply (Hfix 44 32).
      eapply Forall_impl; [exact Hd|]. simpl. lia.
    + eapply Forall_impl; [exact Hd|]. intros c Hcc. simpl in *.
      destruct (c =? 44) eqn:E; [apply Z.eqb_eq in E; lia|].
      apply negb_true_iff, Z.eqb_neq. lia.
Qed.

(** The amount that [extract_from_pdf] writes for the letter is a number
    with two decimals after a comma, its whole part in groups set apart by
    spaces; read without the spaces, the whole part is the integer part
    that names the folder, or one more when the rounding to cents
    carries.  The integer part is never negative. *)
Theorem amount_text_shape (text : str) (ex : extracted) :
  extract_from_pdf text = Return ex →
  0 ≤ amount_int ex
  ∧ ∃ whole frac k,
      amount_full ex = whole ++ [44] ++ frac
      ∧ Forall (λ c, 48 ≤ c ≤ 57 ∨ c = 32) whole
      ∧ length frac = 2%nat ∧ Forall (λ c, 48 ≤ c ≤ 57) frac
      ∧ int (MakeCaseDir.remove_char 32 whole) = Return k
      ∧ (k = amount_int ex ∨ k = amount_int ex + 1).
Proof.
  unfold extract_from_pdf.
  destruct (search _RE_DATE text) as [m_date|]; [|discriminate].
  destruct (int (group m_date 1)) as [mm|?]; [|discriminate]. simpl.
  destruct (int (group m_date 2)) as [dd|?]; [|discriminate]. simpl.
  destruct (int (group m_date 3)) as [yyyy|?]; [|discriminate]. simpl.
  destruct (datetime yyyy mm dd) as [dt|?]; [|discriminate]. simpl.
  match goal with
  | |- bind ?num _ = _ → _ => destruct num as [n|?]; [|discriminate]
  end.
  simpl. destruct (amount_match text) as [m_amt|]; [|discriminate].
  destruct (float _) as [x|?] eqn:Ef; [|discriminate]. simpl.
  destruct (int_of_float x) as [k|?] eqn:Ek; [|discriminate]. simpl.
  intros [= <-]. simpl. apply float_sign in Ef.
  destruct x as [[]|[]| |[] m e]; try contradiction; try discriminate.
  - injection Ek as <-. split; [lia|].
    exists [48], [48; 48], 0. split_and!.
    + reflexivity.
    + apply Forall_cons_2; [lia|apply Forall_nil_2].
    + reflexivity.
    + repeat (apply Forall_cons_2; [lia|]). apply Forall_nil_2.
    + apply (int_str_of_int 0). lia.
    + by left.
  - injection Ek as <-.
    destruct (cents_and_integer_part m e) as (Ha & Hc & Hk).
    split; [exact Ha|].
    destruct (amount_text _ Hc) as (E & Hw & Hl & Hf & Hi).
    eexists _, _, _. split_and!;
      [exact E|exact Hw|exact Hl|exact Hf|exact Hi|exact Hk].
Qed.

End WithUnicode.

Import Tables Samples.

Lemma parsed_amount_is_not_negative_witness :
  ∃ x, find_amount (H := ascii_tables) invoice_text = Return (Some x)
       ∧ not_negative x.
Proof.
  destruct (parse_invoice (H := ascii_tables) invoice_text) as [r|ex] eqn:E;
    [|by vm_compute in E].
  destruct (parsed_amount_is_not_negative (H := ascii_tables) invoice_text r E)
    as (x & Hx & Hn).
  exists x. split; [|exact Hn].
  vm_compute in E. injection E as <-. injection Hx as <-.
  vm_compute. reflexivity.
Defined.

Lemma amount_text_shape_witness :
  ∃ ex, extract_from_pdf (H := ascii_tables) invoice_text = Return ex
        ∧ amount_full ex = lit "4 000,00" ∧ 0 ≤ amount_int ex.
Proof.
  destruct (extract_from_pdf (H := ascii_tables) invoice_text) as [ex|?]
    eqn:E; [|by vm_compute in E].
  exists ex. split; [reflexivity|].
  pose proof (proj1 (amount_text_shape (H := ascii_tables) invoice_text ex E))
    as Hint.
  split; [|exact Hint].
  vm_compute in E. injection E as <-. reflexivity.
Defined.

End AmountFacts.

Module AddStringFolderFacts.
Import Py Re MegaHelp OrderWords AddStringMain AddStringFolder.
Import RunFacts TurnFacts OrderFacts NameShape.

Lemma infixb_cons (sub : str) (c : Z) (s : str) :
  infixb sub (c :: s) = bool_decide (sub `prefix_of` c :: s) || infixb sub s.
Proof. reflexivity. Qed.

Lemma infixb_contains (sub s : str) : contains s sub → infixb sub s = true.
Proof.
  intros (a & b & ->). induction a as [|c a IH].
  - assert (Hp : sub `prefix_of` [] ++ sub ++ b) by (by exists b).
    destruct (sub ++ b) eqn:E; simpl in *;
      by rewrite bool_decide_eq_true_2.
  - change ((c :: a) ++ sub ++ b) with (c :: (a ++ sub ++ b)).
    rewrite infixb_cons, IH. apply orb_true_r.
Qed.

Section Since.
Context (n : Z) (t0 : list (option Z * event)).

Lemma moves_modify f :
  (∀ s, trace (f s) = trace s) → keeps (moves_since n t0) (modify f).
Proof. intros Hf s Hs. unfold moves_since in *. simpl. by rewrite Hf. Qed.

Lemma moves_emit ev :
  (∀ w, into_folder_of n (w, ev)) → keeps (moves_since n t0) (emit ev).
Proof.
  intros Hev s (evs & Ht & Hall). exists (evs ++ [(in_hand s, ev)]). simpl.
  split; [by rewrite Ht, app_assoc|].
  apply Forall_app. split; [exact Hall|]. constructor; [apply Hev|constructor].
Qed.

Lemma moves_call {A} ev (r : result A) :
  (∀ w, into_folder_of n (w, ev)) → keeps (moves_since n t0) (call ev r).
Proof.
  intros Hev. unfold call. apply keeps_bind; [by apply moves_emit|].
  intros _. apply keeps_lift.
Qed.

End Since.

Ltac moves_atom :=
  first
    [ apply moves_call; solve [intros ?; exact I]
    | apply moves_emit; solve [intros ?; exact I]
    | apply moves_modify; solve [intros ?; reflexivity] ].

Section WithUnicode.
Context `{Unicode}.

(** The name that [create_case_dir] makes for an invoice that the parser
    accepted holds the number. *)
Lemma created_name_holds_number text info date_iso amount n name :
  Invoice.parse_invoice text = Return info →
  Invoice.date info = Some date_iso →
  AddString.create_case_dir date_iso amount n = Return name →
  infixb (str_of_int n) name = true.
Proof.
  intros Hp Hd Hc.
  assert (Hf : Invoice.find_date text = Return (Some date_iso)).
  { unfold Invoice.parse_invoice in Hp.
    destruct (Invoice.find_date text) as [dt|?]; [|discriminate].
    simpl in Hp.
    destruct (Invoice.find_amount text) as [a|?]; [|discriminate].
    simpl in Hp. destruct (Invoice.missing_fields _); [|discriminate].
    injection Hp as <-. simpl in Hd. by rewrite Hd. }
  destruct (FieldFacts.find_date_valid text date_iso Hf) as (d & -> & Hv).
  unfold AddString.create_case_dir in Hc.
  rewrite NamingFacts.fromisoformat_isoformat in Hc by exact Hv.
  simpl in Hc. destruct (round amount) as [amount_int|?]; [|discriminate].
  simpl in Hc. injection Hc as <-.
  change (AddString.sanitize ?x)
    with (AddString.sanitize (template d amount_int n)).
  unfold AddString.sanitize.
  rewrite NamingFacts.sub_set_legal by apply NamingFacts.template_legal.
  destruct (NamingFacts.template_trimmed d amount_int n) as [Hh Hl].
  rewrite NamingFacts.strip_by_id.
  - apply infixb_contains. unfold template.
    exists (AddString.nova ++ strftime_yy_mm d ++ lit " XXX "
            ++ str_of_int amount_int ++ AddString.numero), AddString.help.
    by rewrite <- !app_assoc.
  - intros c Hc. apply Hh in Hc. unfold in_chars.
    apply bool_decide_eq_false. change (lit " .") with [32; 46].
    rewrite !elem_of_cons, elem_of_nil. lia.
  - intros c Hc. apply Hl in Hc. unfold in_chars.
    apply bool_decide_eq_false. change (lit " .") with [32; 46].
    rewrite !elem_of_cons, elem_of_nil. lia.
Qed.

Lemma target_dir_spec e dirs n text info t0 :
  Invoice.parse_invoice text = Return info →
  triple (moves_since n t0) (target_dir_of e dirs n info)
    (λ dir s, moves_since n t0 s ∧ infixb (str_of_int n) dir = true)
    (moves_since n t0).
Proof.
  intros Hp. unfold target_dir_of.
  destruct (List.find _ dirs) as [p|] eqn:Ef.
  - intros s Hs. simpl. split; [exact Hs|].
    by apply List.find_some in Ef as [_ Ef].
  - destruct (parse_invoice_fields text info Hp)
      as (_ & (date_iso & Hd & _) & [amount Ha] & _).
    rewrite Hd, Ha. intros s Hs. unfold require.
    rewrite !bind_ret, bind_lift.
    destruct (AddString.create_case_dir date_iso amount n) as [name|ex]
      eqn:Ec; [|exact Hs].
    pose proof (created_name_holds_number _ _ _ _ _ _ Hp Hd Ec) as Hn.
    assert (Hs1 : moves_since n t0 (emit (EMkdir name) s).2).
    { apply moves_emit; [intros ?; exact Hn|exact Hs]. }
    rewrite bind_call.
    destruct (fs_mkdir e name) as [[]|ex]; [by split|exact Hs1].
Qed.

Lemma main_moves e dirs n t0 :
  triple (moves_since n t0) (main e dirs n)
    (λ _, moves_since n t0) (moves_since n t0).
Proof.
  unfold main, find_first_pdf, find_case_folder, find_latest_pdf, download_pdf.
  cbv zeta.
  eapply triple_bind;
    [apply triple_keeps; [keeps_with moves_atom|done]|intros folder].
  destruct folder as [[|c folder_id]|]; try (by intros s Hs).
  eapply triple_bind;
    [apply triple_keeps; [keeps_with moves_atom|done]|intros inv_meta].
  destruct inv_meta as [im|]; [|by intros s Hs].
  eapply triple_bind;
    [apply triple_keeps; [keeps_with moves_atom|done]|intros inv_local].
  eapply triple_bind;
    [apply triple_keeps; [keeps_with moves_atom|done]|intros ga_meta].
  eapply triple_bind;
    [apply triple_keeps; [keeps_with moves_atom|done]|intros ga_local].
  eapply (triple_bind _
            (λ r s, moves_since n t0 s
                    ∧ ∀ info, r = inr info →
                        ∃ text, Invoice.parse_invoice text = Return info)).
  { intros s Hs. unfold parse_or_exit, try_except. rewrite bind_call.
    assert (Hs1 : moves_since n t0 (emit (EReadPdf inv_local) s).2).
    { apply moves_emit; [by intros ?|exact Hs]. }
    destruct (pdf_text e inv_local) as [text|ex] eqn:Et.
    - rewrite bind_lift.
      destruct (Invoice.parse_invoice text) as [info|ex] eqn:Ep; simpl.
      + split; [exact Hs1|]. intros info' [= <-]. by exists text.
      + split; [exact Hs1|]. intros info' [=].
    - simpl. split; [exact Hs1|]. intros info' [=]. }
  intros [msg|info]; [by intros s [Hs _]|].
  intros s [Hs Hinfo]. destruct (Hinfo info eq_refl) as (text & Hp).
  clear Hinfo. revert s Hs.
  match goal with
  | |- ∀ s, moves_since n t0 s → match ?m s with _ => _ end =>
      change (triple (moves_since n t0) m
                (λ _, moves_since n t0) (moves_since n t0))
  end.
  eapply triple_bind; [by apply (target_dir_spec e dirs n text)|].
  intros target_dir.
  assert (Hmove : ∀ src,
            infixb (str_of_int n) target_dir = true →
            ∀ w, into_folder_of n (w, EMove src (target_dir ++ [47] ++ src))).
  { intros src Hdir w. by exists target_dir. }
  eapply (triple_bind _ (λ _ s, moves_since n t0 s
                               ∧ infixb (str_of_int n) target_dir = true)).
  { intros s [Hs Hdir].
    pose proof (moves_call n t0 (EMove inv_local
                                   (target_dir ++ [47] ++ inv_local))
                  (fs_move e inv_local (target_dir ++ [47] ++ inv_local))
                  (Hmove inv_local Hdir) s Hs) as Hk.
    destruct (call _ _ s) as [[a|ex] s']; [by split|exact Hk]. }
  intros []. 
  eapply (triple_bind _ (λ _, moves_since n t0)).
  { intros s [Hs Hdir]. destruct ga_local as [g|]; [|exact Hs].
    pose proof (moves_call n t0 (EMove g (target_dir ++ [47] ++ g))
                  (fs_move e g (target_dir ++ [47] ++ g))
                  (Hmove g Hdir) s Hs) as Hk.
    by destruct (call _ _ s) as [[a|ex] s']. }
  intros [].
  apply triple_keeps; [keeps_with moves_atom|done].
Qed.

(** Whatever [main] finds on the Drive and in the working directory, the
    directory it makes and the places where it moves the files carry the
    number of the case in their name, and a moved file keeps its name:
    no file lands elsewhere, whether the script finishes, exits or
    fails. *)
Theorem files_go_under_the_number (e : env) (dirs : list str) (n : Z)
    (s : rstate) :
  moves_since n (trace s) (main e dirs n s).2.
Proof.
  assert (H0 : moves_since n (trace s) s).
  { exists []. by rewrite app_nil_r. }
  pose proof (main_moves e dirs n (trace s) s H0) as Hm.
  by destruct (main e dirs n s) as [[r|ex] s'].
Qed.

End WithUnicode.

End AddStringFolderFacts.

(** ** The normalization of the amount in the two scripts *)

Module NormalizationFacts.
Import Py Re Invoice Shape FieldShape InvoiceFacts.

Section WithUnicode.
Context `{Unicode}.









End WithUnicode.

Import Tables Samples.


End NormalizationFacts.

Module StoreFacts.
Import Py Re MegaHelp RunWords RunFacts RunFacts2 LedgerFacts.

Lemma same_refl {A} (m : M A) : MegaHelpStore.same m m.
Proof. by intros s. Qed.

Lemma same_bind {A B} (m m' : M A) (f f' : A → M B) :
  MegaHelpStore.same m m' → (∀ a, MegaHelpStore.same (f a) (f' a)) →
  MegaHelpStore.same (m ≫= f) (m' ≫= f').
Proof.
  intros Hm Hf s. unfold mbind, M_bind. rewrite Hm.
  destruct (m' s) as [[a|ex] s']; [apply Hf|reflexivity].
Qed.

Lemma same_try_finally {A} (m m' : M A) (f f' : M unit) :
  MegaHelpStore.same m m' → MegaHelpStore.same f f' →
  MegaHelpStore.same (try_finally m f) (try_finally m' f').
Proof.
  intros Hm Hf s. unfold try_finally. rewrite Hm.
  destruct (m' s) as [r s']. by rewrite Hf.
Qed.

Lemma same_for_each {A} (f f' : A → M unit) (l : list A) :
  (∀ a, MegaHelpStore.same (f a) (f' a)) →
  MegaHelpStore.same (for_each f l) (for_each f' l).
Proof.
  intros Hf. induction l as [|a l IH]; [apply same_refl|].
  simpl. apply same_bind; [apply Hf|intros _; exact IH].
Qed.

Lemma raises_bind_l {A B} (m : M A) (f : A → M B) :
  MegaHelpStore.raises m → MegaHelpStore.raises (m ≫= f).
Proof.
  intros Hm s. destruct (Hm s) as [ex Hex]. exists ex.
  unfold mbind, M_bind. destruct (m s) as [[a|ex'] s']; simpl in *;
    [discriminate|]. by injection Hex as ->.
Qed.

Lemma raises_bind_r {A B} (m : M A) (f : A → M B) :
  (∀ a, MegaHelpStore.raises (f a)) → MegaHelpStore.raises (m ≫= f).
Proof.
  intros Hf s. unfold mbind, M_bind.
  destruct (m s) as [[a|ex] s']; [apply Hf|by exists ex].
Qed.

Section WithUnicode.
Context `{Unicode}.
Variable st : MegaHelpStore.store.

Section Works.
Hypothesis Hst : MegaHelpStore.works st.

Lemma save_cases_excel_works :
  MegaHelpStore.same (MegaHelpStore.save_cases_excel st) save_cases_excel.
Proof.
  destruct Hst as (_ & _ & Hw & _). intros s.
  unfold MegaHelpStore.save_cases_excel, save_cases_excel.
  rewrite !bind_gets, bind_lift, Hw. reflexivity.
Qed.

Lemma save_seen_works :
  MegaHelpStore.same (MegaHelpStore.save_seen st) save_seen.
Proof.
  destruct Hst as (_ & _ & _ & Hw & _). intros s.
  unfold MegaHelpStore.save_seen, save_seen.
  rewrite !bind_gets, bind_lift, Hw. reflexivity.
Qed.

Lemma load_files_works d :
  MegaHelpStore.same (MegaHelpStore.load_files st d) (load_files d).
Proof.
  destruct Hst as (Hre & Hrs & Hw & _). intros s.
  unfold MegaHelpStore.load_files, load_files,
    MegaHelpStore.ensure_cases_excel, ensure_cases_excel,
    MegaHelpStore.load_seen, load_seen.
  destruct (cases_xlsx d) as [df|], (seen_json d) as [sd|];
    rewrite ?Hre, ?Hrs, ?Hw; reflexivity.
Qed.

Lemma process_row_works e ir :
  MegaHelpStore.same (MegaHelpStore.process_row st e ir) (process_row e ir).
Proof.
  destruct ir as [idx r]. unfold MegaHelpStore.process_row, process_row.
  destruct (str_eqb (r_status r) READY); [apply same_refl|].
  destruct Hst as (_ & _ & _ & _ & Hn). rewrite Hn. intros s.
  rewrite bind_lift. revert s.
  apply same_bind; [apply same_refl|intros _].
  apply same_bind; [apply same_refl|intros sd].
  apply same_bind; [apply same_refl|intros _].
  apply same_try_finally; [apply same_refl|].
  apply same_bind; [apply same_refl|intros cf].
  apply same_bind; [apply same_refl|intros _].
  apply same_bind; [apply save_cases_excel_works|intros _].
  apply same_bind; [apply save_seen_works|intros _].
  apply same_refl.
Qed.

Lemma discover_works e :
  MegaHelpStore.same (MegaHelpStore.discover st e) (discover e).
Proof.
  unfold MegaHelpStore.discover, discover.
  apply same_bind; [apply same_refl|intros seen_ids].
  apply same_bind; [apply same_refl|intros new_msgs].
  apply same_bind; [apply same_refl|intros _].
  apply same_bind; [apply save_cases_excel_works|intros _].
  apply same_bind; [apply same_refl|intros sm].
  apply same_bind; [apply same_refl|intros _].
  apply save_seen_works.
Qed.

Lemma process_cases_works e :
  MegaHelpStore.same (MegaHelpStore.process_cases st e) (process_cases e).
Proof.
  unfold MegaHelpStore.process_cases, process_cases.
  apply same_bind; [apply same_refl|intros df].
  apply same_for_each. intros ir. apply process_row_works.
Qed.

Lemma process_works e d :
  MegaHelpStore.same (MegaHelpStore.process st e d) (process e d).
Proof.
  unfold MegaHelpStore.process, process.
  apply same_bind; [apply same_refl|intros _].
  apply same_bind; [apply load_files_works|intros _].
  apply same_bind; [apply discover_works|intros _].
  apply same_bind; [apply same_refl|intros _].
  apply same_bind; [apply process_cases_works|intros _].
  apply same_refl.
Qed.

(** With a store that works, the run is the run of the script whose
    files never fail. *)
Lemma run_works e d : MegaHelpStore.run st e d = run e d.
Proof. unfold MegaHelpStore.run, run. by rewrite process_works. Qed.

End Works.

Lemma save_cases_excel_raises :
  (∀ df, ∃ ex, MegaHelpStore.write_excel st df = Raise ex) →
  MegaHelpStore.raises (MegaHelpStore.save_cases_excel st).
Proof.
  intros Hw s. unfold MegaHelpStore.save_cases_excel.
  rewrite bind_gets, bind_lift.
  destruct (Hw (cases_df s)) as [ex ->]. by exists ex.
Qed.

Lemma save_seen_raises :
  (∀ sd, ∃ ex, MegaHelpStore.write_seen st sd = Raise ex) →
  MegaHelpStore.raises (MegaHelpStore.save_seen st).
Proof.
  intros Hw s. unfold MegaHelpStore.save_seen.
  rewrite bind_gets, bind_lift.
  destruct (Hw (seen s)) as [ex ->]. by exists ex.
Qed.

Lemma process_raises e d :
  MegaHelpStore.raises (MegaHelpStore.discover st e) →
  MegaHelpStore.raises (MegaHelpStore.process st e d).
Proof.
  intros Hd. unfold MegaHelpStore.process.
  apply raises_bind_r. intros _. apply raises_bind_r. intros _.
  by apply raises_bind_l.
Qed.

(** When the two files can be read and written and the number cells of
    the table hold integers, a run fails only at its start: when the
    parser cannot be loaded, or when the Drive service cannot be built; no
    failure of the search of the messages and no failure of a service in
    the turn of a case makes the run fail.  The files matter: a table that
    cannot be written, or a seen file that cannot be written, makes every
    run fail. *)
Theorem run_fails_only_at_start (e : env) (d : disk) :
  (MegaHelpStore.works st →
   (MegaHelpStore.run st e d).1.1 = bind (load_parser e) (λ _, drive_auth e))
  ∧ ((∀ df, ∃ ex, MegaHelpStore.write_excel st df = Raise ex) →
     ∃ ex, (MegaHelpStore.run st e d).1.1 = Raise ex)
  ∧ ((∀ sd, ∃ ex, MegaHelpStore.write_seen st sd = Raise ex) →
     ∃ ex, (MegaHelpStore.run st e d).1.1 = Raise ex).
Proof.
  assert (Hrun : MegaHelpStore.raises (MegaHelpStore.discover st e) →
            ∃ ex, (MegaHelpStore.run st e d).1.1 = Raise ex).
  { intros Hd. unfold MegaHelpStore.run.
    destruct (process_raises e d Hd init_state) as [ex Hex].
    exists ex. by destruct (MegaHelpStore.process st e d init_state). }
  split_and!.
  - intros Hst. rewrite (run_works Hst). apply run_outcome.
  - intros Hw. apply Hrun. unfold MegaHelpStore.discover.
    apply raises_bind_r. intros seen_ids.
    apply raises_bind_r. intros new_msgs.
    apply raises_bind_r. intros _.
    by apply raises_bind_l, save_cases_excel_raises.
  - intros Hw. apply Hrun. unfold MegaHelpStore.discover.
    apply raises_bind_r. intros seen_ids.
    apply raises_bind_r. intros new_msgs.
    apply raises_bind_r. intros _.
    apply raises_bind_r. intros _.
    apply raises_bind_r. intros sm.
    apply raises_bind_r. intros _.
    by apply save_seen_raises.
Qed.

(** When the two files can be read and written and the number cells of
    the table hold integers, every case of the table that is not done is
    taken in hand by a run that got its parser and its Drive service,
    whatever happens to the cases before it: the folder of the case is
    searched. *)
Theorem every_open_case_is_tried (e : env) (d : disk) (r : row) :
  MegaHelpStore.works st →
  load_parser e = Return () → drive_auth e = Return () →
  r ∈ table_on d → r_status r ≠ READY →
  (Some (r_invoice_number r), EFindFolder (format_08d (r_invoice_number r)))
    ∈ (MegaHelpStore.run st e d).1.2.
Proof.
  intros Hst Hp Ha Hr Hs. rewrite (run_works Hst).
  by apply open_case_is_tried.
Qed.

(** When the two files can be read and written and the number cells of
    the table hold integers, no case of the table is left waiting after a
    run that got its parser and its Drive service: each is done, or
    carries the cause of its failure. *)
Theorem run_settles_every_case (e : env) (d : disk) :
  MegaHelpStore.works st →
  load_parser e = Return () → drive_auth e = Return () →
  Forall settled (table_on (MegaHelpStore.run st e d).2).
Proof.
  intros Hst Hp Ha. rewrite (run_works Hst). by apply run_settles_cases.
Qed.

End WithUnicode.

Import Tables Samples.

Lemma run_fails_only_at_start_witness :
  (MegaHelpStore.run (H := ascii_tables) MegaHelpStore.sound_store
     services first_run_disk).1.1 = Return ().
Proof.
  destruct (run_fails_only_at_start (H := ascii_tables)
              MegaHelpStore.sound_store services first_run_disk)
    as (Hrun & _).
  rewrite Hrun; [reflexivity|]. by split_and!.
Defined.

(** The folder of the case 111 is not found, which is the error of that
    case; the case 12345, which comes after it, is taken in hand. *)
Lemma every_open_case_is_tried_witness :
  (MegaHelpStore.run (H := ascii_tables) MegaHelpStore.sound_store
     MegaHelpStore.one_folder
     (Disk (Some [waiting_row 111; waiting_row 12345]) None)).1.2 !! 4%nat
  = Some (Some 111, EState 111 (TError FOLDER_NOT_FOUND))
  ∧ (Some 12345, EFindFolder (format_08d 12345))
      ∈ (MegaHelpStore.run (H := ascii_tables) MegaHelpStore.sound_store
           MegaHelpStore.one_folder
           (Disk (Some [waiting_row 111; waiting_row 12345]) None)).1.2.
Proof.
  split; [vm_compute; reflexivity|].
  apply (every_open_case_is_tried (H := ascii_tables)
           MegaHelpStore.sound_store MegaHelpStore.one_folder
           (Disk (Some [waiting_row 111; waiting_row 12345]) None)
           (waiting_row 12345)).
  - by split_and!.
  - reflexivity.
  - reflexivity.
  - right. left.
  - discriminate.
Defined.

Lemma run_settles_every_case_witness :
  Forall settled
    (table_on (MegaHelpStore.run (H := ascii_tables)
                 MegaHelpStore.sound_store MegaHelpStore.one_folder
                 (Disk (Some [waiting_row 111; waiting_row 12345]) None)).2).
Proof.
  apply (run_settles_every_case (H := ascii_tables)
           MegaHelpStore.sound_store MegaHelpStore.one_folder);
    [by split_and!|reflexivity|reflexivity].
Defined.

End StoreFacts.
